(** * advanced-vector: [RawMemory<T>] and [Vector<T>] of vector.h

    A shallow embedding of the two class templates of
    [advanced-vector/vector.h] and the properties of its specification.

    - [size_t] values are [N]; arithmetic that can leave the 64-bit range is
      wrapped explicitly with [wrap].
    - A [T*] into a buffer is the offset of the slot it points to; the
      buffer itself is the list of its slots, each either raw ([None]) or
      holding a live object ([Some x]).
    - A member function is a state transformer that ends in one of three
      ways: it returns, it throws, or it leaves the contract of the language
      (a failed [assert], a read of a raw slot, an access outside the
      allocated block). *)

From Stdlib Require Import NArith ZArith Lia String.
From stdpp Require Import base option list.

Local Open Scope N_scope.

(** ** Machine integers *)

Definition SIZE_BITS : N := 64.
Definition SIZE_MOD : N := 2 ^ SIZE_BITS.
Definition PTRDIFF_MAX : N := 2 ^ 63 - 1.

(** [size_t] arithmetic is modulo 2^64. *)
Definition wrap (n : N) : N := n mod SIZE_MOD.

(** [++n] and [--n] on a [size_t]. *)
Definition incr (n : N) : N := wrap (n + 1).
Definition decr (n : N) : N := wrap (n + (SIZE_MOD - 1)).

(** ** Exceptions and outcomes *)

Inductive exn : Type :=
| bad_alloc
| out_of_range (what : string)
| element_error.

Inductive outcome (A : Type) : Type :=
| Normal (a : A)
| Throw (e : exn)
| Undefined.
Arguments Normal {A} a.
Arguments Throw {A} e.
Arguments Undefined {A}.

(** ** The monad of member functions: state and outcome *)

Definition M (S A : Type) : Type := S -> outcome A * S.

Definition ret {S A} (a : A) : M S A := fun s => (Normal a, s).

Definition bind {S A B} (m : M S A) (k : A -> M S B) : M S B :=
  fun s =>
    match m s with
    | (Normal a, s') => k a s'
    | (Throw e, s') => (Throw e, s')
    | (Undefined, s') => (Undefined, s')
    end.

Definition throw {S A} (e : exn) : M S A := fun s => (Throw e, s).
Definition undefined {S A} : M S A := fun s => (Undefined, s).
Definition get {S} : M S S := fun s => (Normal s, s).
Definition put {S} (s : S) : M S unit := fun _ => (Normal tt, s).
Definition gets {S A} (f : S -> A) : M S A := fun s => (Normal (f s), s).
Definition modify {S} (f : S -> S) : M S unit := fun s => (Normal tt, f s).

(** [assert(c)] *)
Definition cassert {S} (c : bool) : M S unit :=
  if c then ret tt else undefined.

(** [try { m } catch (...) { h; throw; }] *)
Definition on_throw {S A} (m : M S A) (h : M S unit) : M S A :=
  fun s =>
    match m s with
    | (Throw e, s') =>
        match h s' with
        | (Normal _, s'') => (Throw e, s'')
        | (Throw e', s'') => (Throw e', s'')
        | (Undefined, s'') => (Undefined, s'')
        end
    | r => r
    end.

Declare Scope cpp_scope.
Delimit Scope cpp_scope with cpp.
Notation "x <- m ;; k" := (bind m (fun x => k))
  (at level 100, m at next level, right associativity) : cpp_scope.
Notation "m ;; k" := (bind m (fun _ => k))
  (at level 100, right associativity) : cpp_scope.
Local Open Scope cpp_scope.

(** A member function of a sub-object run inside the enclosing state. *)
Record Lens (S S' : Type) : Type := MkLens {
  view : S -> S';
  update : S' -> S -> S
}.
Arguments MkLens {S S'} view update.
Arguments view {S S'} l s.
Arguments update {S S'} l s' s.

Definition zoom {S S' A} (l : Lens S S') (m : M S' A) : M S A :=
  fun s => let (r, s') := m (view l s) in (r, update l s' s).

Definition compose_lens {S S' S''} (l : Lens S S') (l' : Lens S' S'') : Lens S S'' :=
  MkLens (fun s => view l' (view l s))
         (fun x s => update l (update l' x (view l s)) s).

Definition pair_lens {S A B} (la : Lens S A) (lb : Lens S B) : Lens S (A * B) :=
  MkLens (fun s => (view la s, view lb s))
         (fun '(a, b) s => update lb b (update la a s)).

(** ** The element type [T] *)

(** What the templates use of [T]: its size, its special member functions and
    the two type traits tested by [if constexpr].  A constructor that throws
    gives [None].  A move leaves something behind in its source; an
    assignment that throws leaves its operands in some state, too. *)
Class Element (T : Type) : Type := {
  sizeof : positive;
  value_init : option T;
  copy_construct : T -> option T;
  move_construct : T -> option T * T;
  copy_assign : T -> T -> bool * T;
  move_assign : T -> T -> bool * T * T;
  is_nothrow_move_constructible : bool;
  is_copy_constructible : bool
}.

(** Value semantics: a successful copy or move yields the value of its
    source. *)
Class Regular (T : Type) `{Element T} : Prop := {
  copy_construct_value : forall x y, copy_construct x = Some y -> y = x;
  move_construct_value : forall x y r, move_construct x = (Some y, r) -> y = x;
  copy_assign_value : forall d s d', copy_assign d s = (true, d') -> d' = s;
  move_assign_value :
    forall d s d' s', move_assign d s = (true, d', s') -> d' = s
}.

(** No operation of the element type throws. *)
Class Reliable (T : Type) `{Element T} : Prop := {
  value_init_returns : is_Some value_init;
  copy_construct_returns : forall x, is_Some (copy_construct x);
  move_construct_returns : forall x, is_Some (fst (move_construct x));
  copy_assign_returns : forall d s, fst (copy_assign d s) = true;
  move_assign_returns : forall d s, fst (fst (move_assign d s)) = true
}.

(** ** The free store *)

(** [oracle] decides the coming calls of [operator new]: [false] makes a call
    throw [bad_alloc]; when it is used up every call succeeds.  [news] and
    [deletes] count the blocks obtained and released. *)
Record Heap : Type := MkHeap {
  oracle : list bool;
  news : N;
  deletes : N
}.

(** A free store that refuses no request. *)
Definition generous (h : Heap) : Prop := oracle h = [].

(** A block of raw memory, seen as slots of [T]. *)
Abbreviation Block T := (list (option T)) (only parsing).

Section WithElement.

Context {T : Type} `{Element T}.

(** The global [operator new(bytes)] of the C++ runtime, which vector.h
    calls and does not define.  It hands out a block of [bytes] bytes, seen
    here as the slots of [T] that fit in it, or throws [bad_alloc]; like the
    allocators of the usual platforms it refuses a request above
    [PTRDIFF_MAX], the largest size of an object. *)
Definition operator_new (bytes : N) : M Heap (Block T) :=
  fun h =>
    if PTRDIFF_MAX <? bytes then (Throw bad_alloc, h)
    else
      let blk := replicate (N.to_nat (bytes / Npos sizeof)) None in
      match oracle h with
      | false :: o => (Throw bad_alloc, MkHeap o (news h) (deletes h))
      | true :: o => (Normal blk, MkHeap o (news h + 1) (deletes h))
      | [] => (Normal blk, MkHeap [] (news h + 1) (deletes h))
      end.

(** [operator delete(p)]: nothing happens for a null pointer. *)
Definition operator_delete (p : option (Block T)) : M Heap unit :=
  match p with
  | None => ret tt
  | Some _ => modify (fun h => MkHeap (oracle h) (news h) (deletes h + 1))
  end.

(** ** RawMemory *)

Record RawMemory : Type := MkRawMemory {
  buffer_ : option (Block T);
  capacity_ : N
}.

(** [RawMemory() = default] *)
Definition RawMemory_default : RawMemory := MkRawMemory None 0.

(** [Allocate(n)] *)
Definition Allocate (n : N) : M Heap (option (Block T)) :=
  if n =? 0 then ret None
  else blk <- operator_new (wrap (n * Npos sizeof)) ;; ret (Some blk).

(** [Deallocate(buf)] *)
Definition Deallocate (buf : option (Block T)) : M Heap unit :=
  operator_delete buf.

(** [explicit RawMemory(size_t capacity)] *)
Definition RawMemory_ctor (capacity : N) : M Heap RawMemory :=
  buf <- Allocate capacity ;; ret (MkRawMemory buf capacity).

(** [~RawMemory()] *)
Definition RawMemory_dtor (m : RawMemory) : M Heap unit :=
  Deallocate (buffer_ m).

(** [RawMemory::Swap]: seen from the pair of the two objects. *)
Definition RawMemory_Swap : M (RawMemory * RawMemory) unit :=
  modify (fun '(a, b) =>
    (MkRawMemory (buffer_ b) (capacity_ b), MkRawMemory (buffer_ a) (capacity_ a))).

(** [operator+(offset)] *)
Definition RawMemory_plus (offset : N) : M RawMemory N :=
  m <- get ;;
  cassert (offset <=? capacity_ m) ;;
  ret offset.

(** [operator[](index)]: the slot referred to. *)
Definition RawMemory_index (index : N) : M RawMemory N :=
  m <- get ;;
  cassert (index <? capacity_ m) ;;
  ret index.

(** [GetAddress()] *)
Definition GetAddress : M RawMemory N := ret 0.

(** The slots behind [buffer_]. *)
Definition cells (m : RawMemory) : Block T := default [] (buffer_ m).

Definition in_block (m : RawMemory) (p : N) : bool :=
  p <? N.of_nat (length (cells m)).

Definition poke (p : N) (o : option T) (m : RawMemory) : RawMemory :=
  MkRawMemory (fmap (M := option) (fun b => <[N.to_nat p := o]> b) (buffer_ m)) (capacity_ m).

(** The live object at [p], if there is one. *)
Definition peek (m : RawMemory) (p : N) : option T :=
  mjoin (cells m !! N.to_nat p).

(** [*p] read as a [T]. *)
Definition load (p : N) : M RawMemory T :=
  m <- get ;;
  match peek m p with
  | Some x => ret x
  | None => undefined
  end.

(** [*p = x] on the representation of a live object. *)
Definition store (p : N) (x : T) : M RawMemory unit :=
  m <- get ;;
  match peek m p with
  | Some _ => put (poke p (Some x) m)
  | None => undefined
  end.

(** [new (p) T(...)], the value constructed being the result [r] of the
    constructor call. *)
Definition placement_new (p : N) (r : option T) : M RawMemory unit :=
  match r with
  | None => throw element_error
  | Some x =>
      m <- get ;;
      if in_block m p then put (poke p (Some x) m) else undefined
  end.

(** [std::destroy_at(p)] *)
Definition destroy_at (p : N) : M RawMemory unit :=
  m <- get ;;
  match peek m p with
  | Some _ => put (poke p None m)
  | None => undefined
  end.

(** [std::destroy_n(first, n)] *)
Fixpoint destroy_loop (k : nat) (p : N) : M RawMemory unit :=
  match k with
  | O => ret tt
  | S k' => destroy_at p ;; destroy_loop k' (p + 1)
  end.

Definition destroy_n (first n : N) : M RawMemory unit :=
  destroy_loop (N.to_nat n) first.


(** [std::uninitialized_value_construct_n(first, n)]: the objects built so
    far are destroyed when a constructor throws. *)
Fixpoint value_construct_loop (first : N) (k : nat) (cur : N) : M RawMemory unit :=
  match k with
  | O => ret tt
  | S k' =>
      on_throw (placement_new cur value_init) (destroy_n first (cur - first)) ;;
      value_construct_loop first k' (cur + 1)
  end.

Definition uninitialized_value_construct_n (first n : N) : M RawMemory unit :=
  value_construct_loop first (N.to_nat n) first.

(** [std::uninitialized_copy_n(first, n, d_first)], reading from [src]. *)
Fixpoint copy_loop (src : RawMemory) (d_first : N) (k : nat) (first cur : N)
  : M RawMemory unit :=
  match k with
  | O => ret tt
  | S k' =>
      match peek src first with
      | None => undefined
      | Some x =>
          on_throw (placement_new cur (copy_construct x))
                   (destroy_n d_first (cur - d_first)) ;;
          copy_loop src d_first k' (first + 1) (cur + 1)
      end
  end.

Definition uninitialized_copy_n (src : RawMemory) (first n d_first : N)
  : M RawMemory unit :=
  copy_loop src d_first (N.to_nat n) first d_first.

Definition fst_lens {A B} : Lens (A * B) A := MkLens fst (fun a p => (a, snd p)).
Definition snd_lens {A B} : Lens (A * B) B := MkLens snd (fun b p => (fst p, b)).

(** [std::uninitialized_move_n(first, n, d_first)]: the state is the pair of
    the source and the destination storage. *)
Fixpoint move_loop (d_first : N) (k : nat) (first cur : N)
  : M (RawMemory * RawMemory) unit :=
  match k with
  | O => ret tt
  | S k' =>
      x <- zoom fst_lens (load first) ;;
      zoom fst_lens (store first (snd (move_construct x))) ;;
      zoom snd_lens
        (on_throw (placement_new cur (fst (move_construct x)))
                  (destroy_n d_first (cur - d_first))) ;;
      move_loop d_first k' (first + 1) (cur + 1)
  end.

Definition uninitialized_move_n (first n d_first : N)
  : M (RawMemory * RawMemory) unit :=
  move_loop d_first (N.to_nat n) first d_first.

(** Slot [d] is move-assigned from slot [s] of the same storage. *)
Definition move_assign_at (d s : N) : M RawMemory unit :=
  x <- load s ;;
  y <- load d ;;
  let '(ok, y', x') := move_assign y x in
  store s x' ;;
  store d y' ;;
  if ok then ret tt else throw element_error.

(** [std::move(first, last, d_first)] *)
Fixpoint move_forward_loop (k : nat) (first d_first : N) : M RawMemory unit :=
  match k with
  | O => ret tt
  | S k' =>
      move_assign_at d_first first ;;
      move_forward_loop k' (first + 1) (d_first + 1)
  end.

Definition std_move (first last d_first : N) : M RawMemory unit :=
  if last <? first then undefined
  else move_forward_loop (N.to_nat (last - first)) first d_first.

(** [std::move_backward(first, last, d_last)] *)
Fixpoint move_backward_loop (k : nat) (last d_last : N) : M RawMemory unit :=
  match k with
  | O => ret tt
  | S k' =>
      move_assign_at (d_last - 1) (last - 1) ;;
      move_backward_loop k' (last - 1) (d_last - 1)
  end.

Definition std_move_backward (first last d_last : N) : M RawMemory unit :=
  if last <? first then undefined
  else move_backward_loop (N.to_nat (last - first)) last d_last.

(** A new object is move-constructed in slot [d] from slot [s] of the same
    storage. *)
Definition move_construct_at (d s : N) : M RawMemory unit :=
  x <- load s ;;
  store s (snd (move_construct x)) ;;
  placement_new d (fst (move_construct x)).

(** Slot [d] is move-assigned from a local [tmp]. *)
Definition move_assign_from (d : N) (tmp : T) : M RawMemory unit :=
  y <- load d ;;
  let '(ok, y', _) := move_assign y tmp in
  store d y' ;;
  if ok then ret tt else throw element_error.

(** Slot [d] is copy-assigned from an [x] outside the storage. *)
Definition copy_assign_from (d : N) (x : T) : M RawMemory unit :=
  y <- load d ;;
  let '(ok, y') := copy_assign y x in
  store d y' ;;
  if ok then ret tt else throw element_error.

(** ** Vector *)

Record Vector : Type := MkVector {
  data_ : RawMemory;
  size_ : N
}.

(** [Vector() = default] *)
Definition Vector_default : Vector := MkVector RawMemory_default 0.

(** The state a member function of [Vector] runs in: the free store and the
    object itself. *)
Record Frame : Type := MkFrame {
  heap : Heap;
  this : Vector
}.

Definition _heap : Lens Frame Heap :=
  MkLens heap (fun h f => MkFrame h (this f)).
Definition _this : Lens Frame Vector :=
  MkLens this (fun v f => MkFrame (heap f) v).
Definition _data : Lens Vector RawMemory :=
  MkLens data_ (fun m v => MkVector m (size_ v)).
Definition _size : Lens Vector N :=
  MkLens size_ (fun n v => MkVector (data_ v) n).
Definition _this_data : Lens Frame RawMemory := compose_lens _this _data.
Definition _this_size : Lens Frame N := compose_lens _this _size.

(** A local object: [dtor] runs when the scope is left, normally or by an
    exception. *)
Definition scoped {S L A} (dtor : L -> M S unit) (l : L) (body : M (S * L) A)
  : M S A :=
  fun s =>
    match body (s, l) with
    | (Normal a, (s', l')) =>
        match dtor l' s' with
        | (Normal _, s'') => (Normal a, s'')
        | (Throw e, s'') => (Throw e, s'')
        | (Undefined, s'') => (Undefined, s'')
        end
    | (Throw e, (s', l')) =>
        match dtor l' s' with
        | (Normal _, s'') => (Throw e, s'')
        | (Throw e', s'') => (Throw e', s'')
        | (Undefined, s'') => (Undefined, s'')
        end
    | (Undefined, (s', _)) => (Undefined, s')
    end.

(** Inside a growth step: the frame and the local [new_data]. *)
Definition _outer {L} : Lens (Frame * L) Frame := fst_lens.
Definition _new_data : Lens (Frame * RawMemory) RawMemory := snd_lens.
Definition _old_data : Lens (Frame * RawMemory) RawMemory :=
  compose_lens fst_lens _this_data.
Definition _old_new : Lens (Frame * RawMemory) (RawMemory * RawMemory) :=
  pair_lens _old_data _new_data.

Definition new_RawMemory (capacity : N) : M Frame RawMemory :=
  zoom _heap (RawMemory_ctor capacity).
Definition delete_RawMemory (m : RawMemory) : M Frame unit :=
  zoom _heap (RawMemory_dtor m).

(** [Size()], [Capacity()], [IsEmpty()] *)
Definition Size (v : Vector) : N := size_ v.
Definition Capacity (v : Vector) : N := capacity_ (data_ v).
Definition IsEmpty (v : Vector) : bool := size_ v =? 0.

(** [begin()] and [end()] *)
Definition begin_ : M Vector N := zoom _data GetAddress.
Definition end_ : M Vector N :=
  n <- gets size_ ;; zoom _data (RawMemory_plus n).

(** The branch taken by
    [if constexpr (is_nothrow_move_constructible_v<T> || !is_copy_constructible_v<T>)]. *)
Definition relocates : bool :=
  is_nothrow_move_constructible || negb is_copy_constructible.

(** [std::uninitialized_move_n] and [std::uninitialized_copy_n] from the
    storage of the vector to [new_data]. *)
Definition relocate (first n d_first : N) : M (Frame * RawMemory) unit :=
  zoom _old_new (uninitialized_move_n first n d_first).

Definition duplicate (first n d_first : N) : M (Frame * RawMemory) unit :=
  old <- gets (view _old_data) ;;
  zoom _new_data (uninitialized_copy_n old first n d_first).

(** Elements [first, first + n) of the old storage go to [d_first, ...) of
    [new_data], moved or copied. *)
Definition transfer (first n d_first : N) : M (Frame * RawMemory) unit :=
  if relocates then relocate first n d_first
  else duplicate first n d_first.

(** [size_ == 0 ? 1 : size_ * 2] *)
Definition grown_capacity (size : N) : N :=
  if size =? 0 then 1 else wrap (size * 2).

(** An argument bound to [const T&] or to [T&&]; the object referred to is
    not an element of the vector. *)
Inductive Arg : Type :=
| lvalue (x : T)
| rvalue (x : T).

(** [T(std::forward<Type>(value))] *)
Definition forward (value : Arg) : option T :=
  match value with
  | lvalue x => copy_construct x
  | rvalue x => fst (move_construct x)
  end.

(** [explicit Vector(size_t size)] *)
Definition Vector_sized (size : N) : M Heap Vector :=
  m <- RawMemory_ctor size ;;
  fun h =>
    match (p <- GetAddress ;; uninitialized_value_construct_n p size) m with
    | (Normal _, m') => (Normal (MkVector m' size), h)
    | (Throw e, m') =>
        match RawMemory_dtor m' h with
        | (_, h') => (Throw e, h')
        end
    | (Undefined, _) => (Undefined, h)
    end.

(** [Vector(const Vector& other)] *)
Definition Vector_copy (other : Vector) : M Heap Vector :=
  m <- RawMemory_ctor (size_ other) ;;
  fun h =>
    match (uninitialized_copy_n (data_ other) 0 (size_ other) 0) m with
    | (Normal _, m') => (Normal (MkVector m' (size_ other)), h)
    | (Throw e, m') =>
        match RawMemory_dtor m' h with
        | (_, h') => (Throw e, h')
        end
    | (Undefined, _) => (Undefined, h)
    end.

(** [~Vector()] *)
Definition Vector_dtor (v : Vector) : M Heap unit :=
  fun h =>
    match destroy_n 0 (size_ v) (data_ v) with
    | (Normal _, m') => RawMemory_dtor m' h
    | (Throw e, _) => (Throw e, h)
    | (Undefined, _) => (Undefined, h)
    end.

(** [Swap(Vector& other)]: seen from the pair of the two objects. *)
Definition Vector_Swap : M (Vector * Vector) unit :=
  zoom (pair_lens (compose_lens fst_lens _data) (compose_lens snd_lens _data))
       RawMemory_Swap ;;
  modify (fun '(a, b) => (MkVector (data_ a) (size_ b), MkVector (data_ b) (size_ a))).

(** [PushBack(Type&& value)] *)
Definition PushBack (value : Arg) : M Frame unit :=
  v <- gets this ;;
  (if size_ v =? Capacity v then
     let new_capacity := grown_capacity (size_ v) in
     new_data <- new_RawMemory new_capacity ;;
     scoped delete_RawMemory new_data (
       p <- zoom _new_data (RawMemory_plus (size_ v)) ;;
       zoom _new_data (placement_new p (forward value)) ;;
       transfer 0 (size_ v) 0 ;;
       zoom _old_data (destroy_n 0 (size_ v)) ;;
       zoom _old_new RawMemory_Swap)
   else
     p <- zoom _this_data (RawMemory_plus (size_ v)) ;;
     zoom _this_data (placement_new p (forward value))) ;;
  zoom _this_size (modify incr).

(** [EmplaceBack(Args&&... args)]; [made] is the result of
    [T(std::forward<Args>(args)...)].  The reference returned is the slot. *)
Definition EmplaceBack (made : option T) : M Frame N :=
  v <- gets this ;;
  (if size_ v =? Capacity v then
     let new_capacity := grown_capacity (size_ v) in
     new_data <- new_RawMemory new_capacity ;;
     scoped delete_RawMemory new_data (
       p <- zoom _new_data (RawMemory_plus (size_ v)) ;;
       zoom _new_data (placement_new p made) ;;
       transfer 0 (size_ v) 0 ;;
       zoom _old_data (destroy_n 0 (size_ v)) ;;
       zoom _old_new RawMemory_Swap)
   else
     p <- zoom _this_data (RawMemory_plus (size_ v)) ;;
     zoom _this_data (placement_new p made)) ;;
  zoom _this_size (modify incr) ;;
  zoom _this_data (RawMemory_index (size_ v)).

(** [Emplace(const_iterator pos, Args&&... args)] *)
Definition Emplace (pos : N) (made : option T) : M Frame N :=
  b <- zoom _this begin_ ;;
  e <- zoom _this end_ ;;
  cassert ((b <=? pos) && (pos <=? e)) ;;
  if pos =? e then EmplaceBack made
  else
    let new_index := pos - b in
    v <- gets this ;;
    (if size_ v =? Capacity v then
       let new_capacity := grown_capacity (size_ v) in
       new_data <- new_RawMemory new_capacity ;;
       scoped delete_RawMemory new_data (
         p <- zoom _new_data (RawMemory_plus new_index) ;;
         zoom _new_data (placement_new p made) ;;
         (if relocates then
            relocate 0 new_index 0 ;;
            q <- zoom _old_data (RawMemory_plus new_index) ;;
            d <- zoom _new_data (RawMemory_plus new_index) ;;
            relocate q (size_ v - new_index) (d + 1)
          else
            duplicate 0 new_index 0 ;;
            q <- zoom _old_data (RawMemory_plus new_index) ;;
            d <- zoom _new_data (RawMemory_plus new_index) ;;
            duplicate q (size_ v - new_index) (d + 1)) ;;
         zoom _old_data (destroy_n 0 (size_ v)) ;;
         zoom _old_new RawMemory_Swap)
     else
       match made with
       | None => throw element_error
       | Some tmp =>
           last <- zoom _this_data (RawMemory_index (decr (size_ v))) ;;
           zoom _this_data (move_construct_at e last) ;;
           first <- zoom _this_data (RawMemory_plus new_index) ;;
           zoom _this_data (std_move_backward first (e - 1) e) ;;
           d <- zoom _this_data (RawMemory_index new_index) ;;
           zoom _this_data (move_assign_from d tmp)
       end) ;;
    zoom _this_size (modify incr) ;;
    b' <- zoom _this begin_ ;;
    ret (b' + new_index).

(** [Insert(const_iterator pos, const T& value)] and
    [Insert(const_iterator pos, T&& value)] *)
Definition Insert (pos : N) (value : Arg) : M Frame N :=
  Emplace pos (forward value).

(** [PopBack()] *)
Definition PopBack : M Vector unit :=
  n <- gets size_ ;;
  if negb (n =? 0) then
    zoom _size (modify decr) ;;
    n' <- gets size_ ;;
    p <- zoom _data (RawMemory_plus n') ;;
    zoom _data (destroy_at p)
  else ret tt.

(** [Erase(const_iterator pos)] *)
Definition Erase (pos : N) : M Vector N :=
  b <- begin_ ;;
  e <- end_ ;;
  cassert ((b <=? pos) && (pos <=? e)) ;;
  n <- gets size_ ;;
  cassert (negb (n =? 0)) ;;
  let new_index := pos - b in
  zoom _data (std_move (b + (new_index + 1)) e (b + new_index)) ;;
  p <- zoom _data (RawMemory_plus n) ;;
  zoom _data (destroy_at (p - 1)) ;;
  zoom _size (modify decr) ;;
  ret (b + new_index).

(** [At(size_t index)] *)
Definition At (index : N) : M Vector N :=
  n <- gets size_ ;;
  if n <=? index then throw (out_of_range "Invalid vector index")
  else zoom _data (RawMemory_index index).

(** [operator[](size_t index)] *)
Definition Vector_index (index : N) : M Vector N :=
  n <- gets size_ ;;
  cassert (index <? n) ;;
  zoom _data (RawMemory_index index).

(** [Clear()] *)
Definition Clear : M Vector unit :=
  n <- gets size_ ;;
  p <- zoom _data GetAddress ;;
  zoom _data (destroy_n p n) ;;
  zoom _size (put 0).

(** [Reserve(size_t new_capacity)] *)
Definition Reserve (new_capacity : N) : M Frame unit :=
  v <- gets this ;;
  if new_capacity <=? size_ v then ret tt
  else
    new_data <- new_RawMemory new_capacity ;;
    scoped delete_RawMemory new_data (
      transfer 0 (size_ v) 0 ;;
      zoom _old_data (destroy_n 0 (size_ v)) ;;
      zoom _old_new RawMemory_Swap).

(** [Resize(size_t new_size)] *)
Definition Resize (new_size : N) : M Frame unit :=
  v <- gets this ;;
  (if size_ v <? new_size then
     Reserve new_size ;;
     p <- zoom _this_data (RawMemory_plus (size_ v)) ;;
     zoom _this_data (uninitialized_value_construct_n p (new_size - size_ v))
   else
     p <- zoom _this_data (RawMemory_plus new_size) ;;
     zoom _this_data (destroy_n p (size_ v - new_size))) ;;
  zoom _this_size (put new_size).

(** ** Several vectors: assignment and move *)

(** A const member function evaluated on an object that is not the state. *)
Definition on_const {S S' A} (m : M S' A) (s' : S') : M S A :=
  match fst (m s') with
  | Normal a => ret a
  | Throw e => throw e
  | Undefined => undefined
  end.

(** [for (size_t index = 0; index != n; ++index) data_[index] = rhs.data_[index];] *)
Fixpoint assign_loop (rhs : RawMemory) (k : nat) (index : N) : M RawMemory unit :=
  match k with
  | O => ret tt
  | S k' =>
      s <- on_const (RawMemory_index index) rhs ;;
      d <- RawMemory_index index ;;
      match peek rhs s with
      | None => undefined
      | Some x => copy_assign_from d x
      end ;;
      assign_loop rhs k' (index + 1)
  end.

Definition _copy_this : Lens (Frame * Vector) (Vector * Vector) :=
  pair_lens (compose_lens fst_lens _this) snd_lens.

(** The body of [operator=(const Vector& rhs)] under [this != &rhs]. *)
Definition assign_other (rhs : Vector) : M Frame unit :=
  v <- gets this ;;
  if Capacity v <? size_ rhs then
    rhs_copy <- zoom _heap (Vector_copy rhs) ;;
    scoped (fun c => zoom _heap (Vector_dtor c)) rhs_copy
      (zoom _copy_this Vector_Swap)
  else
    (if size_ rhs <? size_ v then
       zoom _this_data (assign_loop (data_ rhs) (N.to_nat (size_ rhs)) 0) ;;
       p <- zoom _this_data (RawMemory_plus (size_ rhs)) ;;
       zoom _this_data (destroy_n p (size_ v - size_ rhs))
     else
       zoom _this_data (assign_loop (data_ rhs) (N.to_nat (size_ v)) 0) ;;
       q <- on_const (RawMemory_plus (size_ v)) (data_ rhs) ;;
       p <- zoom _this_data (RawMemory_plus (size_ v)) ;;
       zoom _this_data
         (uninitialized_copy_n (data_ rhs) q (size_ rhs - size_ v) p)) ;;
    zoom _this_size (put (size_ rhs)).

(** The objects of a program, by address, and the free store they share. *)
Record World : Type := MkWorld {
  free_store : Heap;
  objects : list Vector
}.

Definition object (w : World) (a : nat) : Vector :=
  default Vector_default (objects w !! a).

Definition _object (a : nat) : Lens World Frame :=
  MkLens (fun w => MkFrame (free_store w) (object w a))
         (fun f w => MkWorld (heap f) (<[a := this f]> (objects w))).

Definition _objects (a b : nat) : Lens World (Vector * Vector) :=
  MkLens (fun w => (object w a, object w b))
         (fun '(x, y) w => MkWorld (free_store w) (<[b := y]> (<[a := x]> (objects w)))).

Definition exists_at (a : nat) : M World unit :=
  w <- get ;;
  match objects w !! a with
  | Some _ => ret tt
  | None => undefined
  end.

(** A member function called on the object at [a]. *)
Definition call {A} (a : nat) (m : M Frame A) : M World A :=
  exists_at a ;; zoom (_object a) m.

(** [a.Swap(b)] *)
Definition Swap (a b : nat) : M World unit :=
  exists_at a ;; exists_at b ;; zoom (_objects a b) Vector_Swap.

(** [Vector& operator=(const Vector& rhs)] *)
Definition copy_assignment (self rhs : nat) : M World unit :=
  exists_at self ;; exists_at rhs ;;
  if negb (Nat.eqb self rhs) then
    w <- get ;;
    call self (assign_other (object w rhs))
  else ret tt.

(** [Vector& operator=(Vector&& rhs) noexcept] *)
Definition move_assignment (self rhs : nat) : M World unit :=
  exists_at self ;; exists_at rhs ;;
  if negb (Nat.eqb self rhs) then Swap self rhs
  else ret tt.

(** A new object at the next free address. *)
Definition declare (v : Vector) : M World nat :=
  w <- get ;;
  put (MkWorld (free_store w) (objects w ++ [v])) ;;
  ret (length (objects w)).

(** [Vector(Vector&& other) noexcept]: the address of the new object. *)
Definition move_construction (other : nat) : M World nat :=
  exists_at other ;;
  self <- declare Vector_default ;;
  Swap self other ;;
  ret self.

(** [Vector(const Vector& other)]: the address of the new object. *)
Definition copy_construction (other : nat) : M World nat :=
  exists_at other ;;
  w <- get ;;
  v <- zoom (MkLens free_store (fun h w => MkWorld h (objects w)))
            (Vector_copy (object w other)) ;;
  declare v.

(** ** What a vector holds *)

(** The objects in the slots [0, size_). *)
Fixpoint live_prefix (k : nat) (b : Block T) : list T :=
  match k, b with
  | S k', Some x :: b' => x :: live_prefix k' b'
  | _, _ => []
  end.

Definition elements (v : Vector) : list T :=
  live_prefix (N.to_nat (size_ v)) (cells (data_ v)).

End WithElement.

Arguments RawMemory T : clear implicits.
Arguments Vector T : clear implicits.
Arguments Frame T : clear implicits.
Arguments World T : clear implicits.
Arguments Arg T : clear implicits.

(** ** Specifications *)

(** [post m s Q]: [Q] holds of the outcome and the final state of [m] run
    from [s]. *)
Definition post {S A} (m : M S A) (s : S) (Q : outcome A -> S -> Prop) : Prop :=
  Q (fst (m s)) (snd (m s)).

Section Invariants.

Context {T : Type} `{Element T}.

(** Operations on slots keep the capacity and the extent of the block. *)
Definition same_shape (m m' : RawMemory T) : Prop :=
  capacity_ m' = capacity_ m /\ length (cells m') = length (cells m).

(** The block behind a [RawMemory] has [capacity_] slots and is an object
    the free store can hand out. *)
Record wf_memory (m : RawMemory T) : Prop := {
  wf_extent : N.of_nat (length (cells m)) = capacity_ m;
  wf_bytes : capacity_ m * Npos sizeof <= PTRDIFF_MAX
}.

(** Exactly the slots below [n] hold live objects. *)
Definition live_below (n : N) (m : RawMemory T) : Prop :=
  forall i, is_Some (peek m i) <-> i < n.

(** The invariant of [Vector]. *)
Record wf (v : Vector T) : Prop := {
  wf_data : wf_memory (data_ v);
  wf_size : size_ v <= Capacity v;
  wf_live : live_below (size_ v) (data_ v)
}.

(** [y] is what a successful move assignment from [x] leaves in its
    target, and likewise for a copy assignment. *)
Definition move_assigned (x y : T) : Prop :=
  exists d r, move_assign d x = (true, y, r).
Definition copy_assigned (x y : T) : Prop :=
  exists d, copy_assign d x = (true, y).

(** [y] is [x] itself or the result of one successful copy or move of [x]. *)
Inductive transported : T -> T -> Prop :=
| transported_same x : transported x x
| transported_move x y : fst (move_construct x) = Some y -> transported x y
| transported_copy x y : copy_construct x = Some y -> transported x y
| transported_move_assign x y : move_assigned x y -> transported x y
| transported_copy_assign x y : copy_assigned x y -> transported x y.

(** A [RawMemory] as its constructor leaves it, asked for [n] slots: every
    slot raw, [capacity_] set to [n], the block as long as the wrapped byte
    count allows. *)
Record fresh (n : N) (m : RawMemory T) : Prop := {
  fresh_capacity : capacity_ m = n;
  fresh_raw : forall i, peek m i = None;
  fresh_extent :
    N.of_nat (length (cells m)) =
    if n =? 0 then 0 else wrap (n * Npos sizeof) / Npos sizeof;
  fresh_bytes : n <> 0 -> wrap (n * Npos sizeof) <= PTRDIFF_MAX
}.

(** Elements [first, first + n) of [old] have gone to [d_first, ...) of
    [new']; nothing else has changed. *)
Definition transferred (first n d_first : N)
    (old new old' new' : RawMemory T) : Prop :=
  (forall j, j < n ->
     exists x y, peek old (first + j) = Some x /\ transported x y /\
                 peek new' (d_first + j) = Some y /\
                 is_Some (peek old' (first + j))) /\
  (forall i, ~ (d_first <= i < d_first + n) -> peek new' i = peek new i) /\
  (forall i, ~ (first <= i < first + n) -> peek old' i = peek old i).

(** The postcondition of a transfer inside a growth step. *)
Definition transfer_post (first n d_first : N) (f : Frame T) (nd : RawMemory T)
    (r : outcome unit) (s' : Frame T * RawMemory T) : Prop :=
  size_ (this (fst s')) = size_ (this f) /\
  same_shape (data_ (this f)) (data_ (this (fst s'))) /\
  same_shape nd (snd s') /\
  (r = Normal tt ->
   transferred first n d_first (data_ (this f)) nd (data_ (this (fst s'))) (snd s')).

(** The vector of a frame has kept its size and the shape of its storage. *)
Definition stable (f f' : Frame T) : Prop :=
  size_ (this f') = size_ (this f) /\
  same_shape (data_ (this f)) (data_ (this f')).

(** The outcome of the reallocating branch of an append: [m'] is the new
    storage of a vector that held [n] elements in [m]. *)
Record appended (made : option T) (n : N) (m m' : RawMemory T) : Prop := {
  appended_wf : wf_memory m';
  appended_capacity : capacity_ m' = N.max 1 (2 * n);
  appended_new : is_Some made /\ peek m' n = made;
  appended_old :
    forall i, i < n ->
      exists a b, peek m i = Some a /\ transported a b /\ peek m' i = Some b;
  appended_raw : forall i, n < i -> peek m' i = None
}.

(** The outcome of an append: [v'] is [v] with [made] added at the end. *)
Record pushed (made : option T) (v v' : Vector T) : Prop := {
  pushed_wf : wf v';
  pushed_size : size_ v' = size_ v + 1;
  pushed_capacity :
    Capacity v' =
    if size_ v =? Capacity v then N.max 1 (2 * size_ v) else Capacity v;
  pushed_new : is_Some made /\ peek (data_ v') (size_ v) = made;
  pushed_old :
    forall i, i < size_ v ->
      exists a b, peek (data_ v) i = Some a /\ transported a b /\
                  peek (data_ v') i = Some b
}.

(** The outcome of [Reserve(n)]. *)
Record reserved (n : N) (v v' : Vector T) : Prop := {
  reserved_size : size_ v' = size_ v;
  reserved_capacity :
    Capacity v' = if n <=? size_ v then Capacity v else n;
  reserved_old :
    forall i, i < size_ v ->
      exists a b, peek (data_ v) i = Some a /\ transported a b /\
                  peek (data_ v') i = Some b;
  reserved_raw : forall i, size_ v <= i -> peek (data_ v') i = None;
  reserved_wf :
    n <= N.of_nat (length (cells (data_ v'))) \/ n * Npos sizeof < SIZE_MOD ->
    wf v'
}.

(** The outcome of [Resize(n)]. *)
Record resized (n : N) (v v' : Vector T) : Prop := {
  resized_wf : wf v';
  resized_size : size_ v' = n;
  resized_capacity :
    Capacity v' = if size_ v <? n then n else Capacity v;
  resized_old :
    forall i, i < N.min n (size_ v) ->
      exists a b, peek (data_ v) i = Some a /\ transported a b /\
                  peek (data_ v') i = Some b;
  resized_new :
    forall i, size_ v <= i < n ->
      is_Some value_init /\ peek (data_ v') i = value_init
}.

(** The outcome of an insertion of [made] before position [idx]. *)
Record inserted (made : option T) (idx : N) (v v' : Vector T) : Prop := {
  inserted_wf : wf v';
  inserted_size : size_ v' = size_ v + 1;
  inserted_capacity :
    Capacity v' =
    if size_ v =? Capacity v then N.max 1 (2 * size_ v) else Capacity v;
  inserted_before :
    forall i, i < idx ->
      exists a b, peek (data_ v) i = Some a /\ transported a b /\
                  peek (data_ v') i = Some b;
  inserted_new :
    exists x y, made = Some x /\ transported x y /\
                peek (data_ v') idx = Some y;
  inserted_after :
    forall i, idx <= i < size_ v ->
      exists a b, peek (data_ v) i = Some a /\ transported a b /\
                  peek (data_ v') (i + 1) = Some b
}.

(** The outcome of the removal of the element at position [idx]. *)
Record erased (idx : N) (v v' : Vector T) : Prop := {
  erased_wf : wf v';
  erased_size : size_ v' + 1 = size_ v;
  erased_capacity : Capacity v' = Capacity v;
  erased_before :
    forall i, i < idx -> peek (data_ v') i = peek (data_ v) i;
  erased_after :
    forall i, idx <= i < size_ v' ->
      exists a b, peek (data_ v) (i + 1) = Some a /\ transported a b /\
                  peek (data_ v') i = Some b
}.

(** A decision procedure for the invariant, for concrete vectors. *)
Definition is_live (o : option T) : bool :=
  match o with Some _ => true | None => false end.

Definition wf_check (v : Vector T) : bool :=
  (N.of_nat (length (cells (data_ v))) =? Capacity v) &&
  (Capacity v * Npos sizeof <=? PTRDIFF_MAX) &&
  (size_ v <=? Capacity v) &&
  forallb is_live (take (N.to_nat (size_ v)) (cells (data_ v))) &&
  forallb (fun o => negb (is_live o)) (drop (N.to_nat (size_ v)) (cells (data_ v))).

(** ** Sequences of appends *)

Inductive append_op : Type :=
| push_back (value : Arg T)
| emplace_back (made : option T).

Definition do_append (op : append_op) : M (Frame T) unit :=
  match op with
  | push_back value => PushBack value
  | emplace_back made => EmplaceBack made ;; ret tt
  end.

Fixpoint appends (ops : list append_op) : M (Frame T) unit :=
  match ops with
  | [] => ret tt
  | op :: ops' => do_append op ;; appends ops'
  end.

End Invariants.

(** The capacity after [n] appends to an empty vector: 0, 1, 2, 4, 4, 8, ... *)
Definition doubling (n : N) : N :=
  if n =? 0 then 0 else 2 ^ N.log2_up n.

(** ** Element types and programs used as concrete inputs *)

(** [int] *)
#[export] Instance int_element : Element Z := {|
  sizeof := 4;
  value_init := Some 0%Z;
  copy_construct x := Some x;
  move_construct x := (Some x, x);
  copy_assign _ s := (true, s);
  move_assign _ s := (true, s, s);
  is_nothrow_move_constructible := true;
  is_copy_constructible := true
|}.

(** A class with a [noexcept] move constructor and a move assignment that
    throws when its source holds 13; a moved-from object holds 0. *)
Record Fussy : Type := MkFussy { payload : Z }.

#[export] Instance fussy_element : Element Fussy := {|
  sizeof := 4;
  value_init := Some (MkFussy 0);
  copy_construct x := Some x;
  move_construct x := (Some x, MkFussy 0);
  copy_assign _ s := (true, s);
  move_assign d s :=
    if (payload s =? 13)%Z then (false, d, s) else (true, s, MkFussy 0);
  is_nothrow_move_constructible := true;
  is_copy_constructible := true
|}.

(** A class whose copy constructor throws when its source holds 13. *)
Record Brittle : Type := MkBrittle { content : Z }.

#[export] Instance brittle_element : Element Brittle := {|
  sizeof := 8;
  value_init := Some (MkBrittle 0);
  copy_construct x := if (content x =? 13)%Z then None else Some x;
  move_construct x := (Some x, MkBrittle 0);
  copy_assign _ s := (true, s);
  move_assign _ s := (true, s, MkBrittle 0);
  is_nothrow_move_constructible := true;
  is_copy_constructible := true
|}.

Definition empty_heap : Heap := MkHeap [] 0 0.

(** The frame a program is left in. *)
Definition final {S A} (m : M S A) (s : S) : S := snd (m s).

(** [Vector<int> v; v.PushBack(1); v.PushBack(2); v.PushBack(3);] *)
Definition one_two_three : Frame Z :=
  final (PushBack (rvalue 1%Z) ;; PushBack (rvalue 2%Z) ;; PushBack (rvalue 3%Z))
        (MkFrame empty_heap Vector_default).

(** [... v.PopBack(); v.PopBack();]: size 1, capacity 4. *)
Definition one_of_four : Frame Z :=
  final (zoom _this PopBack ;; zoom _this PopBack) one_two_three.

(** [Vector<Fussy> v; v.PushBack(13); v.PushBack(2); v.PushBack(3);]:
    size 3, capacity 4. *)
Definition fussy_three : Frame Fussy :=
  final (PushBack (rvalue (MkFussy 13)) ;; PushBack (rvalue (MkFussy 2)) ;;
         PushBack (rvalue (MkFussy 3)))
        (MkFrame empty_heap Vector_default).

(** Two vectors of [int]: [a] at address 0 holds 2, 3; [b] at address 1
    holds 1. *)
Definition two_vectors : World Z :=
  MkWorld empty_heap
    [ MkVector (MkRawMemory (Some [Some 2%Z; Some 3%Z]) 2) 2;
      MkVector (MkRawMemory (Some [Some 1%Z]) 1) 1 ].

(** [Vector<Brittle> v; v.PushBack(7);]: size 1, capacity 1. *)
Definition brittle_full : Frame Brittle :=
  final (PushBack (rvalue (MkBrittle 7))) (MkFrame empty_heap Vector_default).

(** Five appends of [int]s. *)
Definition five_appends : list (@append_op Z) :=
  [push_back (lvalue 1%Z); emplace_back (Some 2%Z); push_back (rvalue 3%Z);
   push_back (lvalue 4%Z); emplace_back (Some 5%Z)].

(** ** Further vocabulary *)

Section Vocabulary.

Context {T : Type} `{Element T}.

(** The object an argument refers to. *)
Definition referent (value : Arg T) : T :=
  match value with
  | lvalue x => x
  | rvalue x => x
  end.

End Vocabulary.

Section Guarantees.

Context {T : Type} `{Element T}.

(** The transfer of the elements to a new storage cannot fail halfway with
    the old storage already changed: either it copies, or it moves with a
    move constructor that does not throw. *)
Definition safe_transfer : Prop :=
  relocates = false \/ forall x : T, is_Some (fst (move_construct x)).

(** What a throwing step of a growth must satisfy: the vector is as it
    was. *)
Definition unchanged_on_throw (f : Frame T) (r : outcome unit)
    (s' : Frame T * RawMemory T) : Prop :=
  forall e, r = Throw e -> this (fst s') = this f.

End Guarantees.

(** ** Accounting for the blocks of the free store *)

(** The blocks obtained and not yet released. *)
Definition outstanding (h : Heap) : Z :=
  (Z.of_N (news h) - Z.of_N (deletes h))%Z.

(** [c] leaves the quantity [g] of the state as it was, whether it returns
    or throws. *)
Definition keeps {S A X} (g : S -> X) (c : M S A) : Prop :=
  forall s, fst (c s) <> Undefined -> g (snd (c s)) = g s.

Section Accounting.

Context {T : Type} `{Element T}.

(** The number of blocks a [RawMemory] holds: one unless [buffer_] is
    null. *)
Definition owns (m : RawMemory T) : Z :=
  match buffer_ m with
  | Some _ => 1%Z
  | None => 0%Z
  end.

Definition owns_both (s : RawMemory T * RawMemory T) : Z :=
  (owns (fst s) + owns (snd s))%Z.

(** The blocks outstanding that the vector of the frame does not hold. *)
Definition stray (f : Frame T) : Z :=
  (outstanding (heap f) - owns (data_ (this f)))%Z.

(** The same inside a growth step, where the local [new_data] holds a block
    as well. *)
Definition stray_in_scope (s : Frame T * RawMemory T) : Z :=
  (stray (fst s) - owns (snd s))%Z.

(** The number of allocations that [k] appends to an empty vector make. *)
Definition growth_steps (k : N) : N :=
  if k =? 0 then 0 else N.log2_up k + 1.

End Accounting.

(** ** Further concrete inputs *)

(** A [Vector<Fussy>] that holds 2, 13. *)
Definition fussy_pair : Vector Fussy :=
  MkVector (MkRawMemory (Some [Some (MkFussy 2); Some (MkFussy 13)]) 2) 2.

(** Two vectors of [Brittle]: an empty one at address 0, one that holds 13
    at address 1. *)
Definition brittle_world : World Brittle :=
  MkWorld empty_heap
    [ Vector_default;
      MkVector (MkRawMemory (Some [Some (MkBrittle 13)]) 1) 1 ].

(** A free store whose next request fails. *)
Definition exhausted_heap : Heap := MkHeap [false] 0 0.

(** * Properties *)

(** ** The monad *)

Section PostRules.

Context {S : Type}.

Lemma post_run {A} (m : M S A) s r s' (Q : outcome A -> S -> Prop) :
  post m s Q -> m s = (r, s') -> Q r s'.
Proof. unfold post. intros HQ E. now rewrite E in HQ. Qed.

Lemma post_mono {A} (m : M S A) s (Q Q' : outcome A -> S -> Prop) :
  post m s Q -> (forall r s', Q r s' -> Q' r s') -> post m s Q'.
Proof. unfold post. auto. Qed.

Lemma post_ret {A} (a : A) s (Q : outcome A -> S -> Prop) :
  Q (Normal a) s -> post (ret a) s Q.
Proof. exact id. Qed.

Lemma post_throw {A} e s (Q : outcome A -> S -> Prop) :
  Q (Throw e) s -> post (throw e) s Q.
Proof. exact id. Qed.

Lemma post_undefined {A} s (Q : outcome A -> S -> Prop) :
  Q Undefined s -> post undefined s Q.
Proof. exact id. Qed.

Lemma post_get s (Q : outcome S -> S -> Prop) :
  Q (Normal s) s -> post get s Q.
Proof. exact id. Qed.

Lemma post_gets {A} (f : S -> A) s (Q : outcome A -> S -> Prop) :
  Q (Normal (f s)) s -> post (gets f) s Q.
Proof. exact id. Qed.

Lemma post_put s' s (Q : outcome unit -> S -> Prop) :
  Q (Normal tt) s' -> post (put s') s Q.
Proof. exact id. Qed.

Lemma post_modify f s (Q : outcome unit -> S -> Prop) :
  Q (Normal tt) (f s) -> post (modify f) s Q.
Proof. exact id. Qed.

Lemma post_bind {A B} (m : M S A) (k : A -> M S B) s (Q : outcome B -> S -> Prop) :
  post m s (fun r s' =>
    match r with
    | Normal a => post (k a) s' Q
    | Throw e => Q (Throw e) s'
    | Undefined => Q Undefined s'
    end) ->
  post (bind m k) s Q.
Proof. unfold post, bind. destruct (m s) as [[a|e|] s']; auto. Qed.

Lemma post_cassert (c : bool) s (Q : outcome unit -> S -> Prop) :
  (c = true -> Q (Normal tt) s) -> (c = false -> Q Undefined s) ->
  post (cassert c) s Q.
Proof. destruct c; unfold post; cbn; auto. Qed.

Lemma post_on_throw {A} (m : M S A) h s (Q : outcome A -> S -> Prop) :
  post m s (fun r s' =>
    match r with
    | Throw e =>
        post h s' (fun r' s'' =>
          match r' with
          | Normal _ => Q (Throw e) s''
          | Throw e' => Q (Throw e') s''
          | Undefined => Q Undefined s''
          end)
    | _ => Q r s'
    end) ->
  post (on_throw m h) s Q.
Proof.
  unfold post, on_throw. destruct (m s) as [[a|e|] s']; cbn; auto.
  destruct (h s') as [[u|e'|] s'']; auto.
Qed.

Lemma post_zoom {S' A} (l : Lens S S') (m : M S' A) s (Q : outcome A -> S -> Prop) :
  post m (view l s) (fun r s' => Q r (update l s' s)) -> post (zoom l m) s Q.
Proof. unfold post, zoom. destruct (m (view l s)); auto. Qed.

Lemma post_scoped {L A} (dtor : L -> M S unit) l (body : M (S * L) A) s
    (Q : outcome A -> S -> Prop) :
  post body (s, l) (fun r sl =>
    match r with
    | Normal a =>
        post (dtor (snd sl)) (fst sl) (fun r' s'' =>
          match r' with
          | Normal _ => Q (Normal a) s''
          | Throw e => Q (Throw e) s''
          | Undefined => Q Undefined s''
          end)
    | Throw e =>
        post (dtor (snd sl)) (fst sl) (fun r' s'' =>
          match r' with
          | Normal _ => Q (Throw e) s''
          | Throw e' => Q (Throw e') s''
          | Undefined => Q Undefined s''
          end)
    | Undefined => Q Undefined (fst sl)
    end) ->
  post (scoped dtor l body) s Q.
Proof.
  unfold post, scoped. destruct (body (s, l)) as [[a|e|] [s' l']]; cbn; auto;
    destruct (dtor l' s') as [[u|e'|] s'']; auto.
Qed.

Lemma post_on_const {S' A} (m : M S' A) s' s (Q : outcome A -> S -> Prop) :
  post m s' (fun r _ => Q r s) -> post (on_const m s') s Q.
Proof. unfold post, on_const. destruct (m s') as [[a|e|] ?]; auto. Qed.

End PostRules.

(** Symbolic execution of the structure of a member function. *)
Ltac wp_step :=
  lazymatch goal with
  | |- post (bind _ _) _ _ => apply post_bind
  | |- post (ret _) _ _ => apply post_ret
  | |- post (throw _) _ _ => apply post_throw
  | |- post undefined _ _ => apply post_undefined
  | |- post get _ _ => apply post_get
  | |- post (gets _) _ _ => apply post_gets
  | |- post (put _) _ _ => apply post_put
  | |- post (modify _) _ _ => apply post_modify
  | |- post (zoom _ _) _ _ => apply post_zoom
  | |- post (on_throw _ _) _ _ => apply post_on_throw
  | |- post (on_const _ _) _ _ => apply post_on_const
  | |- post (scoped _ _ _) _ _ => apply post_scoped
  end.

Ltac wp := repeat wp_step.

(** ** Slots *)

Section Slots.

Context {T : Type} `{Element T}.
Implicit Types (m : RawMemory T) (p q i : N).

Lemma same_shape_refl m : same_shape m m.
Proof. split; reflexivity. Qed.

Lemma same_shape_trans m1 m2 m3 :
  same_shape m1 m2 -> same_shape m2 m3 -> same_shape m1 m3.
Proof. intros [? ?] [? ?]. split; congruence. Qed.

Lemma cells_poke p o m : cells (poke p o m) = <[N.to_nat p := o]> (cells m).
Proof. unfold cells, poke. cbn. destruct (buffer_ m); reflexivity. Qed.

Lemma capacity_poke p o m : capacity_ (poke p o m) = capacity_ m.
Proof. reflexivity. Qed.

Lemma same_shape_poke p o m : same_shape m (poke p o m).
Proof. split; [reflexivity|]. rewrite cells_poke. apply length_insert. Qed.

Lemma in_block_lt m p : in_block m p = true <-> (N.to_nat p < length (cells m))%nat.
Proof. unfold in_block. rewrite N.ltb_lt. lia. Qed.

Lemma in_block_shape m m' p : same_shape m m' -> in_block m' p = in_block m p.
Proof. intros [_ E]. unfold in_block. now rewrite E. Qed.

Lemma peek_in_block m p : is_Some (peek m p) -> in_block m p = true.
Proof.
  unfold peek. intros [x Hx]. apply in_block_lt.
  destruct (cells m !! N.to_nat p) eqn:E; [|discriminate].
  eapply lookup_lt_Some, E.
Qed.

Lemma peek_outside m p : in_block m p = false -> peek m p = None.
Proof.
  intros Hb. destruct (peek m p) eqn:E; [|reflexivity].
  rewrite peek_in_block in Hb; [discriminate|eauto].
Qed.

Lemma peek_poke_eq p o m : in_block m p = true -> peek (poke p o m) p = o.
Proof.
  intros Hb. unfold peek. rewrite cells_poke.
  rewrite list_lookup_insert_eq; [reflexivity|]. now apply in_block_lt.
Qed.

Lemma peek_poke_ne p q o m : p <> q -> peek (poke p o m) q = peek m q.
Proof.
  intros Hne. unfold peek. rewrite cells_poke.
  rewrite list_lookup_insert_ne; [reflexivity|]. lia.
Qed.

Lemma peek_poke_None p q m : q <> p -> peek (poke p None m) q = peek m q.
Proof. intros. apply peek_poke_ne. congruence. Qed.

(** *** The primitives *)

Lemma load_spec p m :
  post (load p) m (fun r m' =>
    m' = m /\ (forall e, r <> Throw e) /\
    (forall x, r = Normal x -> peek m p = Some x)).
Proof.
  unfold load. wp. destruct (peek m p) as [x|] eqn:E; wp;
    (split; [reflexivity|split; [discriminate|]]); congruence.
Qed.

Lemma store_spec p x m :
  post (store p x) m (fun r m' =>
    same_shape m m' /\ (forall e, r <> Throw e) /\
    (r = Normal tt -> is_Some (peek m p) /\ m' = poke p (Some x) m)).
Proof.
  unfold store. wp. destruct (peek m p) as [y|] eqn:E; wp.
  - split; [apply same_shape_poke|]. split; [discriminate|]. eauto.
  - split; [apply same_shape_refl|]. split; discriminate.
Qed.

Lemma placement_new_spec p r m :
  post (placement_new p r) m (fun o m' =>
    same_shape m m' /\
    (forall e, o = Throw e -> m' = m /\ r = None) /\
    (o = Normal tt ->
     exists x, r = Some x /\ in_block m p = true /\ m' = poke p (Some x) m)).
Proof.
  unfold placement_new. destruct r as [x|]; wp.
  - destruct (in_block m p) eqn:E; wp.
    + split; [apply same_shape_poke|]. split; [discriminate|]. eauto.
    + split; [apply same_shape_refl|]. split; discriminate.
  - split; [apply same_shape_refl|]. split; [auto|discriminate].
Qed.

Lemma destroy_at_spec p m :
  post (destroy_at p) m (fun r m' =>
    same_shape m m' /\ (forall e, r <> Throw e) /\
    (r = Normal tt -> is_Some (peek m p) /\ m' = poke p None m)).
Proof.
  unfold destroy_at. wp. destruct (peek m p) as [y|] eqn:E; wp.
  - split; [apply same_shape_poke|]. split; [discriminate|]. eauto.
  - split; [apply same_shape_refl|]. split; discriminate.
Qed.

Lemma RawMemory_plus_spec offset m :
  post (RawMemory_plus offset) m (fun r m' =>
    m' = m /\ (forall e, r <> Throw e) /\
    (forall p, r = Normal p -> p = offset /\ offset <= capacity_ m)).
Proof.
  unfold RawMemory_plus. wp. apply post_cassert; intros E; wp;
    (split; [reflexivity|split; [discriminate|]]); [|discriminate].
  intros p [= <-]. apply N.leb_le in E. auto.
Qed.

Lemma RawMemory_index_spec index m :
  post (RawMemory_index index) m (fun r m' =>
    m' = m /\ (forall e, r <> Throw e) /\
    (forall p, r = Normal p -> p = index /\ index < capacity_ m)).
Proof.
  unfold RawMemory_index. wp. apply post_cassert; intros E; wp;
    (split; [reflexivity|split; [discriminate|]]); [|discriminate].
  intros p [= <-]. apply N.ltb_lt in E. auto.
Qed.

(** *** [std::destroy_n] *)

Lemma destroy_loop_spec k : forall p m,
  post (destroy_loop k p) m (fun r m' =>
    same_shape m m' /\ (forall e, r <> Throw e) /\
    (r = Normal tt ->
     (forall i, p <= i < p + N.of_nat k -> is_Some (peek m i) /\ peek m' i = None) /\
     (forall i, ~ (p <= i < p + N.of_nat k) -> peek m' i = peek m i))).
Proof.
  induction k as [|k IH]; intros p m; cbn [destroy_loop].
  - wp. split; [apply same_shape_refl|]. split; [discriminate|].
    intros _. split; [lia|auto].
  - wp_step. eapply post_mono; [apply destroy_at_spec|].
    intros [[]|e|] m1 (Hs & Hne & Hn); cbn.
    + destruct Hn as [Hlive ->]; [reflexivity|].
      eapply post_mono; [apply IH|].
      intros r m2 (Hs2 & Hne2 & Hn2).
      split; [eapply same_shape_trans; eauto|]. split; [assumption|].
      intros ->. destruct Hn2 as [Hin Hout]; [reflexivity|].
      split.
      * intros i Hi. destruct (N.eq_dec i p) as [->|Hip].
        -- split; [assumption|]. rewrite Hout by lia.
           apply peek_poke_eq. now apply peek_in_block.
        -- destruct (Hin i) as [Hl Hr]; [lia|].
           rewrite peek_poke_None in Hl by assumption. auto.
      * intros i Hi. rewrite Hout by lia. apply peek_poke_None. lia.
    + exfalso. eapply Hne. reflexivity.
    + split; [assumption|]. split; discriminate.
Qed.

Lemma destroy_n_spec first n m :
  post (destroy_n first n) m (fun r m' =>
    same_shape m m' /\ (forall e, r <> Throw e) /\
    (r = Normal tt ->
     (forall i, first <= i < first + n -> is_Some (peek m i) /\ peek m' i = None) /\
     (forall i, ~ (first <= i < first + n) -> peek m' i = peek m i))).
Proof.
  unfold destroy_n. eapply post_mono; [apply destroy_loop_spec|].
  cbn. intros r m'. rewrite N2Nat.id. auto.
Qed.

End Slots.

(** ** The algorithms of [<memory>] and [<algorithm>] *)

Section Algorithms.

Context {T : Type} `{Element T}.
Implicit Types (m src dst : RawMemory T) (p q i j : N).

Lemma value_construct_loop_spec first k : forall cur m,
  post (value_construct_loop first k cur) m (fun r m' =>
    same_shape m m' /\
    (r = Normal tt ->
     (forall i, cur <= i < cur + N.of_nat k ->
        is_Some value_init /\ peek m' i = value_init) /\
     (forall i, ~ (cur <= i < cur + N.of_nat k) -> peek m' i = peek m i))).
Proof.
  induction k as [|k IH]; intros cur m; cbn [value_construct_loop].
  - wp. split; [apply same_shape_refl|]. intros _. split; [lia|auto].
  - wp. eapply post_mono; [apply placement_new_spec|].
    intros [[]|e|] m1 (Hs & Ht & Hn).
    + destruct Hn as (x & Hx & Hb & ->); [reflexivity|].
      eapply post_mono; [apply IH|]. intros r m2 (Hs2 & Hn2).
      split; [eapply same_shape_trans; eauto|].
      intros ->. destruct Hn2 as [Hin Hout]; [reflexivity|]. split.
      * intros i Hi. split; [rewrite Hx; eauto|].
        destruct (N.eq_dec i cur) as [->|Hne].
        -- rewrite Hout by lia. rewrite peek_poke_eq by assumption. now rewrite Hx.
        -- apply Hin. lia.
      * intros i Hi. rewrite Hout by lia. apply peek_poke_ne. lia.
    + eapply post_mono; [apply destroy_n_spec|].
      intros r' m2 (Hs2 & _ & _).
      destruct r'; (split; [eapply same_shape_trans; eauto|discriminate]).
    + split; [assumption|discriminate].
Qed.

Lemma uninitialized_value_construct_n_spec first n m :
  post (uninitialized_value_construct_n first n) m (fun r m' =>
    same_shape m m' /\
    (r = Normal tt ->
     (forall i, first <= i < first + n ->
        is_Some value_init /\ peek m' i = value_init) /\
     (forall i, ~ (first <= i < first + n) -> peek m' i = peek m i))).
Proof.
  unfold uninitialized_value_construct_n.
  eapply post_mono; [apply value_construct_loop_spec|].
  cbn. intros r m'. rewrite N2Nat.id. auto.
Qed.

Lemma copy_loop_spec src d_first k : forall first cur m,
  post (copy_loop src d_first k first cur) m (fun r m' =>
    same_shape m m' /\
    (r = Normal tt ->
     (forall j, j < N.of_nat k ->
        exists x y, peek src (first + j) = Some x /\ copy_construct x = Some y /\
                    peek m' (cur + j) = Some y) /\
     (forall i, ~ (cur <= i < cur + N.of_nat k) -> peek m' i = peek m i))).
Proof.
  induction k as [|k IH]; intros first cur m; cbn [copy_loop].
  - wp. split; [apply same_shape_refl|]. intros _. split; [lia|auto].
  - destruct (peek src first) as [x|] eqn:Ex; wp;
      [|split; [apply same_shape_refl|discriminate]].
    eapply post_mono; [apply placement_new_spec|].
    intros [[]|e|] m1 (Hs & Ht & Hn).
    + destruct Hn as (y & Hy & Hb & ->); [reflexivity|].
      eapply post_mono; [apply IH|]. intros r m2 (Hs2 & Hn2).
      split; [eapply same_shape_trans; eauto|].
      intros ->. destruct Hn2 as [Hin Hout]; [reflexivity|]. split.
      * intros j Hj. destruct (N.eq_dec j 0) as [->|Hne].
        -- exists x, y. rewrite !N.add_0_r. repeat split; try assumption.
           rewrite Hout by lia. now apply peek_poke_eq.
        -- destruct (Hin (j - 1)) as (x' & y' & H1 & H2 & H3); [lia|].
           exists x', y'.
           replace (first + j) with (first + 1 + (j - 1)) by lia.
           replace (cur + j) with (cur + 1 + (j - 1)) by lia. auto.
      * intros i Hi. rewrite Hout by lia. apply peek_poke_ne. lia.
    + eapply post_mono; [apply destroy_n_spec|].
      intros r' m2 (Hs2 & _ & _).
      destruct r'; (split; [eapply same_shape_trans; eauto|discriminate]).
    + split; [assumption|discriminate].
Qed.

Lemma uninitialized_copy_n_spec src first n d_first m :
  post (uninitialized_copy_n src first n d_first) m (fun r m' =>
    same_shape m m' /\
    (r = Normal tt ->
     (forall j, j < n ->
        exists x y, peek src (first + j) = Some x /\ copy_construct x = Some y /\
                    peek m' (d_first + j) = Some y) /\
     (forall i, ~ (d_first <= i < d_first + n) -> peek m' i = peek m i))).
Proof.
  unfold uninitialized_copy_n.
  eapply post_mono; [apply copy_loop_spec|].
  cbn. intros r m'. rewrite N2Nat.id. auto.
Qed.

Lemma move_loop_spec d_first k : forall first cur src dst,
  post (move_loop d_first k first cur) (src, dst) (fun r s' =>
    same_shape src (fst s') /\ same_shape dst (snd s') /\
    (r = Normal tt ->
     (forall j, j < N.of_nat k ->
        exists x y, peek src (first + j) = Some x /\
                    fst (move_construct x) = Some y /\
                    peek (snd s') (cur + j) = Some y /\
                    peek (fst s') (first + j) = Some (snd (move_construct x))) /\
     (forall i, ~ (cur <= i < cur + N.of_nat k) -> peek (snd s') i = peek dst i) /\
     (forall i, ~ (first <= i < first + N.of_nat k) -> peek (fst s') i = peek src i))).
Proof.
  induction k as [|k IH]; intros first cur src dst; cbn [move_loop].
  - wp. cbn. repeat split; try reflexivity. lia.
  - wp. cbn. eapply post_mono; [apply load_spec|].
    intros [x|e|] m1 (-> & Ht & Hn); cbn;
      [|exfalso; eapply Ht; reflexivity
       |repeat split; try reflexivity; discriminate].
    specialize (Hn x eq_refl).
    wp. cbn. eapply post_mono; [apply store_spec|].
    intros [[]|e|] src1 (Hs1 & Ht1 & Hn1); cbn;
      [|exfalso; eapply Ht1; reflexivity
       |repeat split; try apply Hs1; try reflexivity; discriminate].
    destruct Hn1 as [_ ->]; [reflexivity|].
    wp. cbn. eapply post_mono; [apply placement_new_spec|].
    intros [[]|e|] dst1 (Hd1 & Htd & Hnd); cbn.
    + destruct Hnd as (y & Hy & Hb & ->); [reflexivity|].
      eapply post_mono; [apply IH|]. cbn.
      intros r [src2 dst2] (Hs2 & Hd2 & Hn2); cbn in *.
      split; [eapply same_shape_trans; eauto|].
      split; [eapply same_shape_trans; eauto|].
      intros ->. destruct Hn2 as (Hin & Houtd & Houts); [reflexivity|].
      assert (Hbs : in_block src first = true) by (apply peek_in_block; eauto).
      repeat split.
      * intros j Hj. destruct (N.eq_dec j 0) as [->|Hne].
        -- exists x, y. rewrite !N.add_0_r. repeat split; try assumption.
           ++ rewrite Houtd by lia. now apply peek_poke_eq.
           ++ rewrite Houts by lia. now apply peek_poke_eq.
        -- destruct (Hin (j - 1)) as (x' & y' & H1 & H2 & H3 & H4); [lia|].
           exists x', y'.
           replace (first + j) with (first + 1 + (j - 1)) by lia.
           replace (cur + j) with (cur + 1 + (j - 1)) by lia.
           rewrite peek_poke_ne in H1 by lia. auto.
      * intros i Hi. rewrite Houtd by lia. apply peek_poke_ne. lia.
      * intros i Hi. rewrite Houts by lia. apply peek_poke_ne. lia.
    + eapply post_mono; [apply destroy_n_spec|].
      intros r' dst2 (Hd2 & _ & _).
      destruct r'; cbn; (split; [assumption|]);
        (split; [eapply same_shape_trans; eauto|discriminate]).
    + split; [apply same_shape_poke|]. split; [assumption|discriminate].
Qed.

Lemma uninitialized_move_n_spec first n d_first src dst :
  post (uninitialized_move_n first n d_first) (src, dst) (fun r s' =>
    same_shape src (fst s') /\ same_shape dst (snd s') /\
    (r = Normal tt ->
     (forall j, j < n ->
        exists x y, peek src (first + j) = Some x /\
                    fst (move_construct x) = Some y /\
                    peek (snd s') (d_first + j) = Some y /\
                    peek (fst s') (first + j) = Some (snd (move_construct x))) /\
     (forall i, ~ (d_first <= i < d_first + n) -> peek (snd s') i = peek dst i) /\
     (forall i, ~ (first <= i < first + n) -> peek (fst s') i = peek src i))).
Proof.
  unfold uninitialized_move_n.
  eapply post_mono; [apply move_loop_spec|].
  cbn. intros r m'. rewrite N2Nat.id. auto.
Qed.

End Algorithms.

Section Shifts.

Context {T : Type} `{Element T}.
Implicit Types (m : RawMemory T) (p q i j : N).

Lemma move_assign_at_spec d s m :
  post (move_assign_at d s) m (fun r m' =>
    same_shape m m' /\
    (r = Normal tt ->
     exists x y y' x', peek m s = Some x /\ peek m d = Some y /\
       move_assign y x = (true, y', x') /\
       m' = poke d (Some y') (poke s (Some x') m))).
Proof.
  unfold move_assign_at. wp. eapply post_mono; [apply load_spec|].
  intros [x|e|] m1 (-> & Ht & Hn);
    [|exfalso; eapply Ht; reflexivity|split; [apply same_shape_refl|discriminate]].
  specialize (Hn x eq_refl). wp. eapply post_mono; [apply load_spec|].
  intros [y|e|] m1 (-> & Ht' & Hn');
    [|exfalso; eapply Ht'; reflexivity|split; [apply same_shape_refl|discriminate]].
  specialize (Hn' y eq_refl).
  destruct (move_assign y x) as [[ok y'] x'] eqn:E.
  wp. eapply post_mono; [apply store_spec|].
  intros [[]|e|] m1 (Hs1 & Ht1 & Hn1);
    [|exfalso; eapply Ht1; reflexivity|split; [assumption|discriminate]].
  destruct Hn1 as [_ ->]; [reflexivity|].
  wp. eapply post_mono; [apply store_spec|].
  intros [[]|e|] m2 (Hs2 & Ht2 & Hn2);
    [|exfalso; eapply Ht2; reflexivity
     |split; [eapply same_shape_trans; eauto|discriminate]].
  destruct Hn2 as [_ ->]; [reflexivity|].
  assert (Hsh : same_shape m (poke d (Some y') (poke s (Some x') m)))
    by (eapply same_shape_trans; eauto).
  destruct ok; wp; (split; [assumption|]); [|discriminate].
  intros _. exists x, y, y', x'. auto.
Qed.

(** Shifting down by one slot, as [Erase] does. *)
Lemma move_forward_loop_spec k : forall first d m,
  first = d + 1 ->
  post (move_forward_loop k first d) m (fun r m' =>
    same_shape m m' /\
    (r = Normal tt ->
     (forall i, d <= i < d + N.of_nat k ->
        exists x y, peek m (i + 1) = Some x /\ move_assigned x y /\
                    peek m' i = Some y) /\
     (forall i, i = d + N.of_nat k -> is_Some (peek m i) -> is_Some (peek m' i)) /\
     (forall i, i < d \/ d + N.of_nat k < i -> peek m' i = peek m i))).
Proof.
  induction k as [|k IH]; intros first d m ->; cbn [move_forward_loop].
  - wp. split; [apply same_shape_refl|]. intros _.
    split; [lia|]. split; [|auto]. intros i -> Hi. exact Hi.
  - wp. eapply post_mono; [apply move_assign_at_spec|].
    intros [[]|e|] m1 (Hs1 & Hn1); [|split; [assumption|discriminate]..].
    destruct Hn1 as (x & y & y' & x' & Hx & Hy & Hm & ->); [reflexivity|].
    eapply post_mono; [apply (IH (d + 1 + 1) (d + 1)); reflexivity|].
    intros r m2 (Hs2 & Hn2). split; [eapply same_shape_trans; eauto|].
    intros ->. destruct Hn2 as (Hin & Hres & Hout); [reflexivity|].
    assert (Hbd : in_block m d = true) by (apply peek_in_block; eauto).
    assert (Hbs : in_block m (d + 1) = true) by (apply peek_in_block; eauto).
    assert (Hbd' : in_block (poke (d + 1) (Some x') m) d = true)
      by (rewrite (in_block_shape m); [assumption|apply same_shape_poke]).
    split; [|split].
    + intros i Hi. destruct (N.eq_dec i d) as [->|Hne].
      * exists x, y'. split; [assumption|]. split; [exists y, x'; assumption|].
        rewrite Hout by lia. now apply peek_poke_eq.
      * destruct (Hin i) as (x0 & y0 & H1 & H2 & H3); [lia|].
        exists x0, y0. rewrite !peek_poke_ne in H1 by lia. auto.
    + intros i -> Hi. apply Hres; [lia|]. rewrite peek_poke_ne by lia.
      destruct k as [|k].
      * replace (d + 1 + N.of_nat 0) with (d + 1) by lia.
        rewrite peek_poke_eq by assumption. eauto.
      * rewrite peek_poke_ne by lia.
        replace (d + 1 + N.of_nat (S k)) with (d + N.of_nat (S (S k))) by lia.
        assumption.
    + intros i Hi. rewrite Hout by lia. rewrite !peek_poke_ne by lia. reflexivity.
Qed.

(** Shifting up by one slot, as [Emplace] does. *)
Lemma move_backward_loop_spec k : forall last d_last m,
  d_last = last + 1 -> N.of_nat k <= last ->
  post (move_backward_loop k last d_last) m (fun r m' =>
    same_shape m m' /\
    (r = Normal tt ->
     (forall i, last - N.of_nat k < i <= last ->
        exists x y, peek m (i - 1) = Some x /\ move_assigned x y /\
                    peek m' i = Some y) /\
     (forall i, i = last - N.of_nat k -> is_Some (peek m i) -> is_Some (peek m' i)) /\
     (forall i, i < last - N.of_nat k \/ last < i -> peek m' i = peek m i))).
Proof.
  induction k as [|k IH]; intros last d_last m -> Hk; cbn [move_backward_loop].
  - wp. split; [apply same_shape_refl|]. intros _.
    split; [lia|]. split; [|auto]. intros i -> Hi. exact Hi.
  - wp. replace (last + 1 - 1) with last by lia.
    eapply post_mono; [apply move_assign_at_spec|].
    intros [[]|e|] m1 (Hs1 & Hn1); [|split; [assumption|discriminate]..].
    destruct Hn1 as (x & y & y' & x' & Hx & Hy & Hm & ->); [reflexivity|].
    eapply post_mono; [apply (IH (last - 1) last); lia|].
    intros r m2 (Hs2 & Hn2). split; [eapply same_shape_trans; eauto|].
    intros ->. destruct Hn2 as (Hin & Hres & Hout); [reflexivity|].
    assert (Hbd : in_block m last = true) by (apply peek_in_block; eauto).
    assert (Hbs : in_block m (last - 1) = true) by (apply peek_in_block; eauto).
    assert (Hbd' : in_block (poke (last - 1) (Some x') m) last = true)
      by (rewrite (in_block_shape m); [assumption|apply same_shape_poke]).
    split; [|split].
    + intros i Hi. destruct (N.eq_dec i last) as [->|Hne].
      * exists x, y'. split; [assumption|]. split; [exists y, x'; assumption|].
        rewrite Hout by lia. now apply peek_poke_eq.
      * destruct (Hin i) as (x0 & y0 & H1 & H2 & H3); [lia|].
        exists x0, y0. rewrite !peek_poke_ne in H1 by lia. auto.
    + intros i -> Hi. apply Hres; [lia|]. rewrite peek_poke_ne by lia.
      destruct k as [|k].
      * replace (last - 1 - N.of_nat 0) with (last - 1) by lia.
        rewrite peek_poke_eq by assumption. eauto.
      * rewrite peek_poke_ne by lia.
        replace (last - 1 - N.of_nat (S k)) with (last - N.of_nat (S (S k))) by lia.
        assumption.
    + intros i Hi. rewrite Hout by lia. rewrite !peek_poke_ne by lia. reflexivity.
Qed.

Lemma move_construct_at_spec d s m :
  d <> s ->
  post (move_construct_at d s) m (fun r m' =>
    same_shape m m' /\
    (r = Normal tt ->
     exists x y, peek m s = Some x /\ fst (move_construct x) = Some y /\
       in_block m d = true /\
       m' = poke d (Some y) (poke s (Some (snd (move_construct x))) m))).
Proof.
  intros Hds. unfold move_construct_at. wp. eapply post_mono; [apply load_spec|].
  intros [x|e|] m1 (-> & Ht & Hn);
    [|exfalso; eapply Ht; reflexivity|split; [apply same_shape_refl|discriminate]].
  specialize (Hn x eq_refl). wp. eapply post_mono; [apply store_spec|].
  intros [[]|e|] m1 (Hs1 & Ht1 & Hn1);
    [|exfalso; eapply Ht1; reflexivity|split; [assumption|discriminate]].
  destruct Hn1 as [_ ->]; [reflexivity|].
  eapply post_mono; [apply placement_new_spec|].
  intros r m2 (Hs2 & _ & Hn2). split; [eapply same_shape_trans; eauto|].
  intros ->. destruct Hn2 as (y & Hy & Hb & ->); [reflexivity|].
  exists x, y. repeat split; try assumption.
  rewrite <- (in_block_shape m (poke s (Some (snd (move_construct x))) m));
    [assumption|apply same_shape_poke].
Qed.

Lemma move_assign_from_spec d tmp m :
  post (move_assign_from d tmp) m (fun r m' =>
    same_shape m m' /\
    (r = Normal tt ->
     exists y, is_Some (peek m d) /\ move_assigned tmp y /\
       m' = poke d (Some y) m)).
Proof.
  unfold move_assign_from. wp. eapply post_mono; [apply load_spec|].
  intros [y|e|] m1 (-> & Ht & Hn);
    [|exfalso; eapply Ht; reflexivity|split; [apply same_shape_refl|discriminate]].
  specialize (Hn y eq_refl).
  destruct (move_assign y tmp) as [[ok y'] x'] eqn:E.
  wp. eapply post_mono; [apply store_spec|].
  intros [[]|e|] m1 (Hs1 & Ht1 & Hn1);
    [|exfalso; eapply Ht1; reflexivity|split; [assumption|discriminate]].
  destruct Hn1 as [_ ->]; [reflexivity|].
  destruct ok; wp; (split; [assumption|]); [|discriminate].
  intros _. exists y'. split; [eauto|]. split; [exists y, x'; assumption|reflexivity].
Qed.

End Shifts.

(** ** Storage management *)

Ltac lens :=
  cbn [view update fst snd _heap _this _data _size _this_data _this_size
       _outer _new_data _old_data _old_new _copy_this compose_lens pair_lens
       fst_lens snd_lens heap this data_ size_] in *.

Section Storage.

Context {T : Type} `{Element T}.
Implicit Types (m : RawMemory T) (v : Vector T) (f : Frame T) (p q i j : N).

Lemma wrap_small n : n < SIZE_MOD -> wrap n = n.
Proof. intros. unfold wrap. now apply N.mod_small. Qed.

Lemma wrap_le n : wrap n <= n.
Proof. unfold wrap. apply N.Div0.mod_le. Qed.

Lemma wrap_lt n : wrap n < SIZE_MOD.
Proof. unfold wrap. apply N.mod_lt. discriminate. Qed.

Lemma PTRDIFF_MAX_lt : 2 * PTRDIFF_MAX < SIZE_MOD.
Proof. reflexivity. Qed.

Lemma wf_memory_capacity m : wf_memory m -> capacity_ m <= PTRDIFF_MAX.
Proof. intros [_ Hb]. nia. Qed.

Lemma peek_replicate_None (n : nat) (k : nat) :
  mjoin (replicate n (@None T) !! k) = None.
Proof.
  destruct (replicate n None !! k) as [o|] eqn:E; [|reflexivity].
  apply lookup_replicate in E as [-> _]. reflexivity.
Qed.

Lemma RawMemory_ctor_spec n (h : Heap) :
  post (RawMemory_ctor (T := T) n) h (fun r _ =>
    forall m, r = Normal m -> fresh n m).
Proof.
  unfold RawMemory_ctor, Allocate. destruct (n =? 0) eqn:En.
  - wp. intros m [= <-]. apply N.eqb_eq in En as ->.
    split; cbn; try reflexivity. congruence.
  - wp. unfold post, operator_new.
    destruct (PTRDIFF_MAX <? wrap (n * N.pos sizeof)) eqn:Eb; cbn;
      [discriminate|].
    apply N.ltb_ge in Eb.
    assert (Hfresh : fresh n
      (MkRawMemory (Some (replicate (N.to_nat (wrap (n * N.pos sizeof) / N.pos sizeof)) None)) n)).
    { split; cbn.
      - reflexivity.
      - intros i. unfold peek. cbn. apply peek_replicate_None.
      - rewrite En, length_replicate. lia.
      - intros _. exact Eb. }
    destruct (oracle h) as [|[] o]; cbn; try discriminate;
      intros m [= <-]; exact Hfresh.
Qed.

Lemma new_RawMemory_spec n f :
  post (new_RawMemory n) f (fun r f' =>
    this f' = this f /\ forall m, r = Normal m -> fresh n m).
Proof.
  unfold new_RawMemory. wp. lens.
  eapply post_mono; [apply RawMemory_ctor_spec|]. cbn. auto.
Qed.

(** Allocation either succeeds or throws [bad_alloc]. *)
Lemma new_RawMemory_outcome n f :
  post (new_RawMemory n) f (fun r f' =>
    this f' = this f /\
    match r with
    | Normal m => fresh n m
    | Throw e => e = bad_alloc
    | Undefined => False
    end).
Proof.
  pose proof (new_RawMemory_spec n f) as Hspec. unfold post in *.
  destruct Hspec as [Hthis Hfresh]. split; [assumption|].
  destruct (fst (new_RawMemory n f)) as [m|e|] eqn:E; [auto|..];
    revert E; unfold new_RawMemory, zoom, RawMemory_ctor, Allocate; lens;
    destruct (n =? 0); cbn; [discriminate| |discriminate|];
    unfold bind, operator_new;
    destruct (PTRDIFF_MAX <? _); cbn;
    try (destruct (oracle (heap f)) as [|[] o]; cbn); congruence.
Qed.

Lemma delete_RawMemory_spec m f :
  post (delete_RawMemory m) f (fun r f' => this f' = this f /\ r = Normal tt).
Proof.
  unfold delete_RawMemory, RawMemory_dtor, Deallocate, operator_delete.
  wp. lens. destruct (buffer_ m); wp; auto.
Qed.

(** A fresh block that reaches its nominal capacity is well formed. *)
Lemma fresh_full n m :
  fresh n m -> n <= N.of_nat (length (cells m)) -> wf_memory m.
Proof.
  intros [Hc _ He Hb] Hn. rewrite He in Hn.
  destruct (n =? 0) eqn:En.
  - apply N.eqb_eq in En. rewrite En in Hc. split; [rewrite He, Hc; reflexivity|].
    rewrite Hc. cbn. unfold PTRDIFF_MAX. lia.
  - apply N.eqb_neq in En. specialize (Hb En).
    assert (Hw : n * N.pos sizeof <= wrap (n * N.pos sizeof)).
    { pose proof (N.Div0.mul_div_le (wrap (n * N.pos sizeof)) (N.pos sizeof)).
      nia. }
    pose proof (wrap_le (n * N.pos sizeof)).
    assert (Heq : wrap (n * N.pos sizeof) = n * N.pos sizeof) by lia.
    split; [|rewrite Hc; lia].
    rewrite He, Heq, Hc. apply N.div_mul. discriminate.
Qed.

Lemma fresh_no_wrap n m :
  fresh n m -> n * Npos sizeof < SIZE_MOD -> wf_memory m.
Proof.
  intros Hf Hn. apply (fresh_full n); [assumption|].
  destruct Hf as [_ _ He _]. rewrite He.
  destruct (n =? 0) eqn:En; [apply N.eqb_eq in En; lia|].
  rewrite wrap_small by assumption. rewrite N.div_mul; [lia|discriminate].
Qed.

Lemma grown_capacity_wf v :
  wf v -> grown_capacity (size_ v) = N.max 1 (2 * size_ v).
Proof.
  intros [Hm Hs _]. unfold grown_capacity.
  apply wf_memory_capacity in Hm. unfold Capacity in Hs.
  destruct (size_ v =? 0) eqn:E.
  - apply N.eqb_eq in E. rewrite E. reflexivity.
  - apply N.eqb_neq in E. rewrite wrap_small; [lia|].
    pose proof PTRDIFF_MAX_lt. lia.
Qed.

(** The block obtained for a doubled capacity is well formed as soon as one
    slot of it can be used. *)
Lemma fresh_grown v m p :
  wf v -> size_ v = Capacity v ->
  fresh (grown_capacity (size_ v)) m -> in_block m p = true ->
  wf_memory m.
Proof.
  intros Hwf Hfull Hf Hp. pose proof (grown_capacity_wf v Hwf) as Hg.
  destruct (N.eq_dec (size_ v) 0) as [E|E].
  - apply (fresh_full _ _ Hf). rewrite Hg, E.
    unfold in_block in Hp. apply N.ltb_lt in Hp. lia.
  - apply (fresh_no_wrap _ _ Hf). rewrite Hg.
    destruct Hwf as [[_ Hb] Hs _]. unfold Capacity in *.
    pose proof PTRDIFF_MAX_lt. nia.
Qed.

End Storage.

(** ** Growth *)

Section Growth.

Context {T : Type} `{Element T}.
Implicit Types (m nd : RawMemory T) (v : Vector T) (f : Frame T) (p q i j : N).

Lemma relocate_spec first n d_first f nd :
  post (relocate first n d_first) (f, nd)
       (transfer_post first n d_first f nd).
Proof.
  unfold relocate. wp. lens. eapply post_mono; [apply uninitialized_move_n_spec|].
  intros r [old' nd'] (Hs & Hd & Hn). unfold transfer_post. lens.
  repeat (split; [first [reflexivity|assumption]|]).
  intros ->. destruct Hn as (Hin & Houtd & Houts); [reflexivity|].
  repeat split; try assumption.
  intros j Hj. destruct (Hin j Hj) as (x & y & H1 & H2 & H3 & H4).
  exists x, y. repeat split; try assumption; eauto using transported.
Qed.

Lemma duplicate_spec first n d_first f nd :
  post (duplicate first n d_first) (f, nd)
       (transfer_post first n d_first f nd).
Proof.
  unfold duplicate. wp. lens. eapply post_mono; [apply uninitialized_copy_n_spec|].
  intros r nd' (Hd & Hn). unfold transfer_post. lens.
  repeat (split; [first [reflexivity|assumption|apply same_shape_refl]|]).
  intros ->. destruct Hn as (Hin & Hout); [reflexivity|].
  repeat split; try assumption; auto.
  intros j Hj. destruct (Hin j Hj) as (x & y & H1 & H2 & H3).
  exists x, y. repeat split; try assumption; eauto using transported.
Qed.

Lemma transfer_spec first n d_first f nd :
  post (transfer first n d_first) (f, nd) (transfer_post first n d_first f nd).
Proof.
  unfold transfer. destruct relocates.
  - apply relocate_spec.
  - apply duplicate_spec.
Qed.

End Growth.

Section Append.

Context {T : Type} `{Element T}.
Implicit Types (m nd : RawMemory T) (v : Vector T) (f : Frame T) (p q i j : N).

Lemma RawMemory_eta m : MkRawMemory (buffer_ m) (capacity_ m) = m.
Proof. destruct m; reflexivity. Qed.

Lemma stable_refl f : stable f f.
Proof. split; [reflexivity|apply same_shape_refl]. Qed.

Lemma wf_memory_shape m m' : same_shape m m' -> wf_memory m -> wf_memory m'.
Proof. intros [Hc Hl] [He Hb]. split; rewrite ?Hc, ?Hl; assumption. Qed.

Lemma delete_post m f (Q : outcome unit -> Frame T -> Prop) :
  (forall h, Q (Normal tt) (MkFrame h (this f))) ->
  post (delete_RawMemory m) f Q.
Proof.
  intros HQ. eapply post_mono; [apply delete_RawMemory_spec|].
  intros r [h v] [Hv ->]. cbn in Hv. subst v. apply HQ.
Qed.

Lemma append_grow_spec made f nd :
  wf (this f) -> size_ (this f) = Capacity (this f) ->
  fresh (grown_capacity (size_ (this f))) nd ->
  post (scoped delete_RawMemory nd (
          p <- zoom _new_data (RawMemory_plus (size_ (this f))) ;;
          zoom _new_data (placement_new p made) ;;
          transfer 0 (size_ (this f)) 0 ;;
          zoom _old_data (destroy_n 0 (size_ (this f))) ;;
          zoom _old_new RawMemory_Swap)) f
    (fun r f' =>
       size_ (this f') = size_ (this f) /\
       match r with
       | Normal _ =>
           appended made (size_ (this f)) (data_ (this f)) (data_ (this f'))
       | _ => same_shape (data_ (this f)) (data_ (this f'))
       end).
Proof.
  intros Hwf Hfull Hfresh.
  wp_step. wp_step. wp_step. lens.
  eapply post_mono; [apply RawMemory_plus_spec|].
  intros [p|e|] nd0 (-> & Ht & Hn); lens;
    [|exfalso; eapply Ht; reflexivity|split; [reflexivity|apply same_shape_refl]].
  destruct (Hn p eq_refl) as [-> Hle]. clear Hn Ht.
  wp_step. wp_step. lens.
  eapply post_mono; [apply placement_new_spec|].
  intros [[]|e|] nd1 (Hs1 & Ht1 & Hn1);
    [|apply delete_post; intros h; lens; split; [reflexivity|apply same_shape_refl]
     |split; [reflexivity|apply same_shape_refl]].
  destruct Hn1 as (x & -> & Hb & ->); [reflexivity|].
  wp_step. eapply post_mono; [apply transfer_spec|].
  intros [[]|e|] [f1 nd2] (Hsz & Hso & Hsn & Htr); lens;
    [|apply delete_post; intros h; lens; split; assumption
     |split; assumption].
  destruct Htr as (Hin & Hnew & Hold); [reflexivity|].
  wp_step. wp_step. lens. eapply post_mono; [apply destroy_n_spec|].
  intros [[]|e|] old2 (Hs2 & Ht2 & Hn2); lens;
    [|exfalso; eapply Ht2; reflexivity
     |split; [assumption|eapply same_shape_trans; eauto]].
  unfold RawMemory_Swap. wp. lens. apply delete_post. intros h. lens.
  rewrite RawMemory_eta. split; [assumption|].
  pose proof (grown_capacity_wf _ Hwf) as Hg.
  assert (Hwn : wf_memory nd) by (eapply fresh_grown; eauto).
  assert (Hsh : same_shape nd nd2) by (eapply same_shape_trans; eauto).
  split.
  - eapply wf_memory_shape; eauto.
  - destruct Hsh as [-> _]. rewrite <- Hg. apply Hfresh.
  - split; [eauto|]. rewrite Hnew by lia. now apply peek_poke_eq.
  - intros i Hi. destruct (Hin i Hi) as (a & b & H1 & H2 & H3 & _).
    rewrite N.add_0_l in *. eauto.
  - intros i Hi. rewrite Hnew by lia. rewrite peek_poke_ne by lia.
    apply Hfresh.
Qed.

Lemma incr_small n : n < PTRDIFF_MAX -> incr n = n + 1.
Proof.
  intros Hn. unfold incr. apply wrap_small.
  pose proof PTRDIFF_MAX_lt. lia.
Qed.

Lemma wf_size_bound v : wf v -> size_ v <= PTRDIFF_MAX.
Proof.
  intros [Hm Hs _]. apply wf_memory_capacity in Hm. unfold Capacity in Hs. lia.
Qed.

(** The two branches of an append, up to the increment of [size_]. *)
Lemma append_step_spec made f :
  wf (this f) ->
  post (if size_ (this f) =? Capacity (this f) then
          new_data <- new_RawMemory (grown_capacity (size_ (this f))) ;;
          scoped delete_RawMemory new_data (
            p <- zoom _new_data (RawMemory_plus (size_ (this f))) ;;
            zoom _new_data (placement_new p made) ;;
            transfer 0 (size_ (this f)) 0 ;;
            zoom _old_data (destroy_n 0 (size_ (this f))) ;;
            zoom _old_new RawMemory_Swap)
        else
          p <- zoom _this_data (RawMemory_plus (size_ (this f))) ;;
          zoom _this_data (placement_new p made)) f
    (fun r f' =>
       size_ (this f') = size_ (this f) /\
       match r with
       | Normal _ =>
           pushed made (this f)
             (MkVector (data_ (this f')) (size_ (this f) + 1))
       | _ => same_shape (data_ (this f)) (data_ (this f'))
       end).
Proof.
  intros Hwf. destruct (size_ (this f) =? Capacity (this f)) eqn:Efull.
  - apply N.eqb_eq in Efull. wp_step.
    eapply post_mono; [apply new_RawMemory_spec|].
    intros [nd|e|] f1 [Hthis Hfresh];
      [|rewrite Hthis; split; [reflexivity|apply same_shape_refl]..].
    specialize (Hfresh nd eq_refl). destruct f1 as [h1 v1]. cbn in Hthis.
    subst v1. eapply post_mono.
    { apply (append_grow_spec made (MkFrame h1 (this f)) nd); assumption. }
    lens. intros [[]|e|] f' [Hsz Hpost]; (split; [assumption|]); try assumption.
    destruct Hpost as [Hw Hc Hnew Hold Hraw].
    split; lens; unfold Capacity; lens; try assumption.
    + split; lens; unfold Capacity; lens; [assumption|rewrite Hc; lia|].
      intros i. split.
      * intros Hi. destruct (N.lt_ge_cases (size_ (this f)) i) as [Hlt|Hge]; [|lia].
        rewrite Hraw in Hi by assumption. now destruct Hi.
      * intros Hi. destruct (N.eq_dec i (size_ (this f))) as [->|Hne].
        -- destruct Hnew as [Hm ->]. exact Hm.
        -- destruct (Hold i) as (a & b & _ & _ & ->); [lia|]. eauto.
    + reflexivity.
    + unfold Capacity in Efull. rewrite <- Efull, N.eqb_refl. assumption.
  - apply N.eqb_neq in Efull. wp_step. wp_step. lens.
    eapply post_mono; [apply RawMemory_plus_spec|].
    intros [p|e|] nd0 (-> & Ht & Hn); lens;
      [|exfalso; eapply Ht; reflexivity|split; [reflexivity|apply same_shape_refl]].
    destruct (Hn p eq_refl) as [-> Hle]. clear Hn Ht.
    wp_step. lens. eapply post_mono; [apply placement_new_spec|].
    intros [[]|e|] m1 (Hs1 & Ht1 & Hn1); lens; (split; [reflexivity|]);
      try assumption.
    destruct Hn1 as (x & -> & Hb & ->); [reflexivity|].
    destruct Hwf as [Hwm Hws Hwl].
    split; lens; unfold Capacity in *; lens; rewrite ?capacity_poke.
    + split; lens; unfold Capacity; lens; rewrite ?capacity_poke.
      * eapply wf_memory_shape; [apply same_shape_poke|assumption].
      * lia.
      * intros i. destruct (N.eq_dec i (size_ (this f))) as [->|Hne].
        -- rewrite peek_poke_eq by assumption. split; [lia|eauto].
        -- rewrite peek_poke_ne by congruence. rewrite (Hwl i). lia.
    + reflexivity.
    + apply N.eqb_neq in Efull. rewrite Efull. reflexivity.
    + split; [eauto|]. now apply peek_poke_eq.
    + intros i Hi. rewrite peek_poke_ne by lia.
      destruct (proj2 (Hwl i) Hi) as [a Ha]. exists a, a.
      repeat split; try assumption. constructor.
Qed.

Lemma pushed_capacity_le made v v' :
  wf v -> pushed made v v' -> Capacity v <= Capacity v'.
Proof.
  intros [_ Hs _] [_ _ Hc _ _]. rewrite Hc.
  destruct (size_ v =? Capacity v) eqn:E; [|lia].
  apply N.eqb_eq in E. lia.
Qed.

Lemma pushed_incr made v m n :
  n = size_ v -> pushed made v (MkVector m (n + 1)) ->
  pushed made v (MkVector m (incr n)).
Proof.
  intros -> Hp. rewrite incr_small; [assumption|].
  pose proof (wf_size_bound _ (pushed_wf _ _ _ Hp)) as Hb. cbn in Hb. lia.
Qed.

Lemma PushBack_spec value f :
  wf (this f) ->
  post (PushBack value) f (fun r f' =>
    Capacity (this f) <= Capacity (this f') /\
    (r = Normal tt -> pushed (forward value) (this f) (this f'))).
Proof.
  intros Hwf. unfold PushBack. wp_step. wp_step. cbv beta iota.
  wp_step. eapply post_mono; [apply (append_step_spec _ _ Hwf)|].
  intros [[]|e|] f1 [Hsz Hpost].
  - wp. lens. assert (Hp : pushed (forward value) (this f)
      (MkVector (data_ (this f1)) (incr (size_ (this f1))))).
    { apply pushed_incr; [assumption|]. rewrite Hsz. assumption. }
    split; [|intros _; exact Hp].
    eapply pushed_capacity_le; eassumption.
  - destruct Hpost as [Hc _]. unfold Capacity. rewrite Hc.
    split; [reflexivity|discriminate].
  - destruct Hpost as [Hc _]. unfold Capacity. rewrite Hc.
    split; [reflexivity|discriminate].
Qed.

Lemma EmplaceBack_spec made f :
  wf (this f) ->
  post (EmplaceBack made) f (fun r f' =>
    Capacity (this f) <= Capacity (this f') /\
    (forall p, r = Normal p ->
       p = size_ (this f) /\ pushed made (this f) (this f'))).
Proof.
  intros Hwf. unfold EmplaceBack. wp_step. wp_step. cbv beta iota.
  wp_step. eapply post_mono; [apply (append_step_spec _ _ Hwf)|].
  intros [[]|e|] f1 [Hsz Hpost].
  - wp_step. wp_step. wp_step. lens. wp_step. lens.
    assert (Hp : pushed made (this f)
      (MkVector (data_ (this f1)) (incr (size_ (this f1))))).
    { apply pushed_incr; [assumption|]. rewrite Hsz. assumption. }
    pose proof (pushed_capacity_le _ _ _ Hwf Hp) as Hle.
    eapply post_mono; [apply RawMemory_index_spec|].
    intros r m' (-> & _ & Hn). lens. split; [exact Hle|].
    intros p ->. destruct (Hn p eq_refl) as [-> _]. auto.
  - destruct Hpost as [Hc _]. unfold Capacity. rewrite Hc.
    split; [reflexivity|discriminate].
  - destruct Hpost as [Hc _]. unfold Capacity. rewrite Hc.
    split; [reflexivity|discriminate].
Qed.

End Append.

(** ** [Reserve] and [Resize] *)

Section Reserve.

Context {T : Type} `{Element T}.
Implicit Types (m nd : RawMemory T) (v : Vector T) (f : Frame T) (p q i j : N).

Lemma reserved_refl n v : wf v -> n <= size_ v -> reserved n v v.
Proof.
  intros Hwf Hn. split.
  - reflexivity.
  - apply N.leb_le in Hn. now rewrite Hn.
  - intros i Hi. destruct (proj2 (wf_live _ Hwf i) Hi) as [a Ha].
    exists a, a. repeat split; try assumption. constructor.
  - intros i Hi. destruct (peek (data_ v) i) eqn:E; [|reflexivity].
    assert (i < size_ v) by (apply (wf_live _ Hwf); eauto). lia.
  - intros _. assumption.
Qed.

Lemma Reserve_spec n f :
  wf (this f) ->
  post (Reserve n) f (fun r f' =>
    match r with
    | Normal _ => reserved n (this f) (this f')
    | _ => stable f f'
    end).
Proof.
  intros Hwf. unfold Reserve. wp_step. wp_step. cbv beta iota.
  destruct (n <=? size_ (this f)) eqn:En.
  - wp. apply N.leb_le in En. now apply reserved_refl.
  - apply N.leb_gt in En. wp_step.
    eapply post_mono; [apply new_RawMemory_spec|].
    intros [nd|e|] f1 [Hthis Hfresh];
      [|split; rewrite Hthis; [reflexivity|apply same_shape_refl]..].
    specialize (Hfresh nd eq_refl). destruct f1 as [h1 v1]. cbn in Hthis.
    subst v1. wp_step. wp_step.
    eapply post_mono; [apply transfer_spec|].
    intros [[]|e|] [f1 nd2] (Hsz & Hso & Hsn & Htr); lens;
      [|apply delete_post; intros h; lens; split; assumption
       |split; assumption].
    destruct Htr as (Hin & Hnew & Hold); [reflexivity|].
    wp_step. wp_step. lens. eapply post_mono; [apply destroy_n_spec|].
    intros [[]|e|] old2 (Hs2 & Ht2 & Hn2); lens;
      [|exfalso; eapply Ht2; reflexivity
       |split; [assumption|eapply same_shape_trans; eauto]].
    unfold RawMemory_Swap. wp. lens. apply delete_post. intros h. lens.
    rewrite RawMemory_eta.
    assert (Hcap : capacity_ nd2 = n).
    { destruct Hsn as [-> _]. apply Hfresh. }
    split; lens; unfold Capacity; lens.
    + assumption.
    + apply N.leb_gt in En. now rewrite En.
    + intros i Hi. destruct (Hin i Hi) as (a & b & H1 & H2 & H3 & _).
      rewrite N.add_0_l in *. eauto.
    + intros i Hi. rewrite Hnew by lia. apply Hfresh.
    + intros Hext.
      assert (Hwm : wf_memory nd).
      { destruct Hext as [Hext|Hext].
        - apply (fresh_full n); [assumption|].
          destruct Hsn as [_ <-]. assumption.
        - now apply (fresh_no_wrap n). }
      split; lens; unfold Capacity; lens.
      * eapply wf_memory_shape; eauto.
      * lia.
      * intros i. split.
        -- intros Hi. destruct (N.lt_ge_cases i (size_ (this f1))) as [Hlt|Hge];
             [lia|].
           rewrite Hnew in Hi by lia.
           rewrite (fresh_raw _ _ Hfresh) in Hi. now destruct Hi.
        -- intros Hi. destruct (Hin i) as (a & b & _ & _ & H3 & _); [lia|].
           rewrite N.add_0_l in H3. eauto.
Qed.

Lemma Resize_spec n f :
  wf (this f) ->
  post (Resize n) f (fun r f' =>
    r = Normal tt -> resized n (this f) (this f')).
Proof.
  intros Hwf. unfold Resize. wp_step. wp_step. cbv beta iota.
  wp_step. destruct (size_ (this f) <? n) eqn:En.
  - apply N.ltb_lt in En. wp_step.
    eapply post_mono; [apply (Reserve_spec _ _ Hwf)|].
    intros [[]|e|] f1 Hres; [|discriminate..].
    destruct Hres as [Hsz Hcap Hold Hraw Hwf1].
    wp_step. wp_step. lens. eapply post_mono; [apply RawMemory_plus_spec|].
    intros [p|e|] m0 (-> & Ht & Hn); lens; [|discriminate..].
    destruct (Hn p eq_refl) as [-> Hle]. clear Hn Ht.
    wp_step. lens.
    eapply post_mono; [apply uninitialized_value_construct_n_spec|].
    intros [[]|e|] m2 (Hs2 & Hn2); lens; [|discriminate..].
    destruct Hn2 as [Hin Hout]; [reflexivity|].
    wp. lens. intros _.
    replace (size_ (this f) + (n - size_ (this f))) with n in * by lia.
    assert (En' : (n <=? size_ (this f)) = false) by (apply N.leb_gt; lia).
    rewrite En' in Hcap.
    assert (Hext : n <= N.of_nat (length (cells (data_ (this f1))))).
    { destruct (Hin (n - 1)) as [[x Hx] Hp]; [lia|].
      assert (Hb : in_block m2 (n - 1) = true)
        by (apply peek_in_block; rewrite Hp, Hx; eauto).
      rewrite (in_block_shape _ _ _ Hs2) in Hb.
      unfold in_block in Hb. apply N.ltb_lt in Hb. lia. }
    specialize (Hwf1 (or_introl Hext)). destruct Hwf1 as [Hwm Hws Hwl].
    split; lens; unfold Capacity in *; lens.
    + split; lens; unfold Capacity; lens.
      * eapply wf_memory_shape; eauto.
      * destruct Hs2 as [-> _]. lia.
      * intros i. destruct (N.lt_ge_cases i (size_ (this f))) as [Hlt|Hge].
        -- rewrite Hout by lia. rewrite (Hwl i). lia.
        -- destruct (N.lt_ge_cases i n) as [Hlt'|Hge'].
           ++ destruct (Hin i) as [Hv ->]; [lia|]. split; [lia|auto].
           ++ rewrite Hout by lia. rewrite (Hwl i). lia.
    + reflexivity.
    + apply N.ltb_lt in En. rewrite En. destruct Hs2 as [-> _]. assumption.
    + intros i Hi. destruct (Hold i) as (a & b & H1 & H2 & H3); [lia|].
      exists a, b. rewrite Hout by lia. auto.
    + intros i Hi. apply Hin. lia.
  - apply N.ltb_ge in En. wp_step. wp_step. lens.
    eapply post_mono; [apply RawMemory_plus_spec|].
    intros [p|e|] m0 (-> & Ht & Hn); lens; [|discriminate..].
    destruct (Hn p eq_refl) as [-> Hle]. clear Hn Ht.
    wp_step. lens. eapply post_mono; [apply destroy_n_spec|].
    intros [[]|e|] m2 (Hs2 & Ht2 & Hn2); lens; [|discriminate..].
    destruct Hn2 as [Hin Hout]; [reflexivity|].
    wp. lens. intros _.
    replace (n + (size_ (this f) - n)) with (size_ (this f)) in * by lia.
    destruct Hwf as [Hwm Hws Hwl].
    split; lens; unfold Capacity in *; lens.
    + split; lens; unfold Capacity; lens.
      * eapply wf_memory_shape; eauto.
      * destruct Hs2 as [-> _]. lia.
      * intros i. destruct (N.lt_ge_cases i n) as [Hlt|Hge].
        -- rewrite Hout by lia. rewrite (Hwl i). lia.
        -- destruct (N.lt_ge_cases i (size_ (this f))) as [Hlt'|Hge'].
           ++ destruct (Hin i) as [_ ->]; [lia|]. split; [|lia].
              intros [? ?]; discriminate.
           ++ rewrite Hout by lia. rewrite (Hwl i). lia.
    + reflexivity.
    + apply N.ltb_ge in En. rewrite En. destruct Hs2 as [-> _]. reflexivity.
    + intros i Hi. rewrite Hout by lia.
      destruct (proj2 (Hwl i)) as [a Ha]; [lia|].
      exists a, a. repeat split; try assumption. constructor.
    + intros i Hi. lia.
Qed.

End Reserve.

(** ** [Emplace] and [Erase] *)

Section Positions.

Context {T : Type} `{Element T}.
Implicit Types (m nd : RawMemory T) (v : Vector T) (f : Frame T) (p q i j : N).

Lemma Frame_eta f : MkFrame (heap f) (this f) = f.
Proof. destruct f; reflexivity. Qed.

Lemma Vector_eta v : MkVector (data_ v) (size_ v) = v.
Proof. destruct v; reflexivity. Qed.

Lemma begin_spec v :
  post begin_ v (fun r v' => v' = v /\ r = Normal 0).
Proof. unfold begin_, GetAddress. wp. lens. destruct v; auto. Qed.

Lemma end_spec v :
  post end_ v (fun r v' =>
    v' = v /\ (forall e, r <> Throw e) /\
    (forall p, r = Normal p -> p = size_ v /\ size_ v <= Capacity v)).
Proof.
  unfold end_. wp. lens. eapply post_mono; [apply RawMemory_plus_spec|].
  intros r m' (-> & Ht & Hn). lens. split; [destruct v; reflexivity|].
  split; assumption.
Qed.

Lemma decr_pos n : 0 < n -> n < SIZE_MOD -> decr n = n - 1.
Proof.
  intros Hn Hb. unfold decr, wrap.
  replace (n + (SIZE_MOD - 1)) with (n - 1 + 1 * SIZE_MOD) by lia.
  rewrite N.Div0.mod_add. apply N.mod_small. lia.
Qed.

Lemma wf_size_mod v : wf v -> size_ v < SIZE_MOD.
Proof.
  intros Hwf. apply wf_size_bound in Hwf. pose proof PTRDIFF_MAX_lt. lia.
Qed.

(** The two transfers around the new element in the reallocating branch of
    [Emplace]. *)
Lemma insert_transfer_spec (move_it : bool) idx f nd :
  post ((if move_it then relocate else duplicate) 0 idx 0 ;;
        q <- zoom _old_data (RawMemory_plus idx) ;;
        d <- zoom _new_data (RawMemory_plus idx) ;;
        (if move_it then relocate else duplicate)
          q (size_ (this f) - idx) (d + 1))
       (f, nd)
    (fun r s' =>
       size_ (this (fst s')) = size_ (this f) /\
       same_shape (data_ (this f)) (data_ (this (fst s'))) /\
       same_shape nd (snd s') /\
       (r = Normal tt -> idx <= size_ (this f) ->
        (forall i, i < idx ->
           exists a b, peek (data_ (this f)) i = Some a /\ transported a b /\
                       peek (snd s') i = Some b) /\
        (forall i, idx <= i < size_ (this f) ->
           exists a b, peek (data_ (this f)) i = Some a /\ transported a b /\
                       peek (snd s') (i + 1) = Some b) /\
        (forall i, i = idx \/ size_ (this f) < i ->
           peek (snd s') i = peek nd i))).
Proof.
  assert (Hstep : forall first n d_first f0 nd0,
    post ((if move_it then relocate else duplicate) first n d_first) (f0, nd0)
         (transfer_post first n d_first f0 nd0)).
  { intros. destruct move_it; [apply relocate_spec|apply duplicate_spec]. }
  wp_step. eapply post_mono; [apply Hstep|].
  intros [[]|e|] [f1 nd1] (Hsz1 & Hso1 & Hsn1 & Htr1); lens;
    [|repeat (split; [assumption|]); discriminate..].
  destruct Htr1 as (Hin1 & Hnew1 & Hold1); [reflexivity|].
  wp_step. wp_step. lens. eapply post_mono; [apply RawMemory_plus_spec|].
  intros [q|e|] m0 (-> & Ht & Hn); lens; rewrite ?Vector_eta, ?Frame_eta;
    [|exfalso; eapply Ht; reflexivity
     |repeat (split; [assumption|]); discriminate].
  destruct (Hn q eq_refl) as [-> _]. clear Hn Ht.
  wp_step. wp_step. lens. eapply post_mono; [apply RawMemory_plus_spec|].
  intros [d|e|] m0 (-> & Ht & Hn); lens;
    [|exfalso; eapply Ht; reflexivity
     |repeat (split; [assumption|]); discriminate].
  destruct (Hn d eq_refl) as [-> _]. clear Hn Ht.
  rewrite <- Hsz1.
  eapply post_mono; [apply Hstep|].
  intros r [f2 nd2] (Hsz2 & Hso2 & Hsn2 & Htr2); lens.
  split; [congruence|]. split; [eapply same_shape_trans; eauto|].
  split; [eapply same_shape_trans; eauto|].
  intros -> Hidx. destruct Htr2 as (Hin2 & Hnew2 & Hold2); [reflexivity|].
  rewrite Hsz1 in *. split; [|split].
  - intros i Hi. destruct (Hin1 i Hi) as (a & b & H1 & H2 & H3 & _).
    rewrite N.add_0_l in *. exists a, b. rewrite Hnew2 by lia. auto.
  - intros i Hi. destruct (Hin2 (i - idx)) as (a & b & H1 & H2 & H3 & _); [lia|].
    exists a, b. replace (idx + (i - idx)) with i in H1 by lia.
    rewrite Hold1 in H1 by lia.
    replace (i + 1) with (idx + 1 + (i - idx)) by lia. auto.
  - intros i Hi. rewrite Hnew2 by lia. apply Hnew1. lia.
Qed.

Lemma insert_grow_spec made idx f nd :
  wf (this f) -> size_ (this f) = Capacity (this f) ->
  idx < size_ (this f) ->
  fresh (grown_capacity (size_ (this f))) nd ->
  post (scoped delete_RawMemory nd (
          p <- zoom _new_data (RawMemory_plus idx) ;;
          zoom _new_data (placement_new p made) ;;
          (if relocates then
             relocate 0 idx 0 ;;
             q <- zoom _old_data (RawMemory_plus idx) ;;
             d <- zoom _new_data (RawMemory_plus idx) ;;
             relocate q (size_ (this f) - idx) (d + 1)
           else
             duplicate 0 idx 0 ;;
             q <- zoom _old_data (RawMemory_plus idx) ;;
             d <- zoom _new_data (RawMemory_plus idx) ;;
             duplicate q (size_ (this f) - idx) (d + 1)) ;;
          zoom _old_data (destroy_n 0 (size_ (this f))) ;;
          zoom _old_new RawMemory_Swap)) f
    (fun r f' =>
       r = Normal tt ->
       size_ (this f') = size_ (this f) /\
       inserted made idx (this f)
         (MkVector (data_ (this f')) (size_ (this f) + 1))).
Proof.
  intros Hwf Hfull Hidx Hfresh.
  wp_step. wp_step. wp_step. lens.
  eapply post_mono; [apply RawMemory_plus_spec|].
  intros [p|e|] nd0 (-> & Ht & Hn); lens;
    [|exfalso; eapply Ht; reflexivity|discriminate].
  destruct (Hn p eq_refl) as [-> Hle]. clear Hn Ht.
  wp_step. wp_step. lens.
  eapply post_mono; [apply placement_new_spec|].
  intros [[]|e|] nd1 (Hs1 & Ht1 & Hn1);
    [|apply delete_post; intros h; discriminate|discriminate].
  destruct Hn1 as (x & -> & Hb & ->); [reflexivity|].
  wp_step. eapply post_mono.
  { destruct relocates;
      [apply (insert_transfer_spec true)|apply (insert_transfer_spec false)]. }
  intros [[]|e|] [f1 nd2] (Hsz & Hso & Hsn & Htr); lens;
    [|apply delete_post; intros h; discriminate|discriminate].
  destruct Htr as (Hbefore & Hafter' & Hout); [reflexivity|lia|].
  wp_step. wp_step. lens. eapply post_mono; [apply destroy_n_spec|].
  intros [[]|e|] old2 (Hs2 & Ht2 & Hn2); lens;
    [|exfalso; eapply Ht2; reflexivity|discriminate].
  unfold RawMemory_Swap. wp. lens. apply delete_post. intros h _. lens.
  rewrite RawMemory_eta. split; [assumption|].
  pose proof (grown_capacity_wf _ Hwf) as Hg.
  assert (Hwn : wf_memory nd) by (eapply fresh_grown; eauto).
  assert (Hsh : same_shape nd nd2) by (eapply same_shape_trans; eauto).
  assert (Hcap : capacity_ nd2 = N.max 1 (2 * size_ (this f))).
  { destruct Hsh as [-> _]. rewrite <- Hg. apply Hfresh. }
  assert (Hnew : peek nd2 idx = Some x).
  { rewrite Hout by lia. now apply peek_poke_eq. }
  split; lens; unfold Capacity; lens.
  - split; lens; unfold Capacity; lens.
    + eapply wf_memory_shape; eauto.
    + rewrite Hcap. lia.
    + intros i. split.
      * intros Hi. destruct (N.lt_ge_cases (size_ (this f)) i) as [Hlt|Hge]; [|lia].
        rewrite Hout in Hi by lia. rewrite peek_poke_ne in Hi by lia.
        rewrite (fresh_raw _ _ Hfresh) in Hi. now destruct Hi.
      * intros Hi. destruct (N.lt_ge_cases i idx) as [Hlt|Hge].
        -- destruct (Hbefore i Hlt) as (a & b & _ & _ & ->). eauto.
        -- destruct (N.eq_dec i idx) as [->|Hne]; [rewrite Hnew; eauto|].
           destruct (Hafter' (i - 1)) as (a & b & _ & _ & H3); [lia|].
           replace (i - 1 + 1) with i in H3 by lia. rewrite H3. eauto.
  - reflexivity.
  - unfold Capacity in Hfull. rewrite <- Hfull, N.eqb_refl. assumption.
  - assumption.
  - exists x, x. repeat split; [constructor|assumption].
  - assumption.
Qed.

Lemma insert_shift_spec tmp idx f :
  wf (this f) -> size_ (this f) <> Capacity (this f) ->
  idx < size_ (this f) ->
  post (last <- zoom _this_data (RawMemory_index (decr (size_ (this f)))) ;;
        zoom _this_data (move_construct_at (size_ (this f)) last) ;;
        first <- zoom _this_data (RawMemory_plus idx) ;;
        zoom _this_data
          (std_move_backward first (size_ (this f) - 1) (size_ (this f))) ;;
        d <- zoom _this_data (RawMemory_index idx) ;;
        zoom _this_data (move_assign_from d tmp)) f
    (fun r f' =>
       r = Normal tt ->
       size_ (this f') = size_ (this f) /\
       inserted (Some tmp) idx (this f)
         (MkVector (data_ (this f')) (size_ (this f) + 1))).
Proof.
  intros Hwf Hfull Hidx. pose proof (wf_size_mod _ Hwf) as Hmod.
  rewrite decr_pos by lia.
  wp_step. wp_step. lens. eapply post_mono; [apply RawMemory_index_spec|].
  intros [p|e|] m0 (-> & Ht & Hn); lens; [|discriminate..].
  destruct (Hn p eq_refl) as [-> Hlast]. clear Hn Ht.
  wp_step. wp_step. lens.
  eapply post_mono; [apply move_construct_at_spec; lia|].
  intros [[]|e|] m1 (Hs1 & Hn1); lens; [|discriminate..].
  destruct Hn1 as (xl & yl & Hxl & Hyl & Hbl & ->); [reflexivity|].
  wp_step. wp_step. lens. eapply post_mono; [apply RawMemory_plus_spec|].
  intros [p|e|] m0 (-> & Ht & Hn); lens; [|discriminate..].
  destruct (Hn p eq_refl) as [-> _]. clear Hn Ht.
  wp_step. wp_step. lens. unfold std_move_backward.
  assert (Elt : (size_ (this f) - 1 <? idx) = false) by (apply N.ltb_ge; lia).
  rewrite Elt.
  eapply post_mono.
  { apply move_backward_loop_spec; [lia|]. rewrite N2Nat.id. lia. }
  rewrite N2Nat.id.
  intros [[]|e|] m2 (Hs2 & Hn2); lens; [|discriminate..].
  destruct Hn2 as (Hin & Hres & Hout); [reflexivity|].
  replace (size_ (this f) - 1 - (size_ (this f) - 1 - idx)) with idx in * by lia.
  wp_step. wp_step. lens. eapply post_mono; [apply RawMemory_index_spec|].
  intros [p|e|] m0 (-> & Ht & Hn); lens; [|discriminate..].
  destruct (Hn p eq_refl) as [-> _]. clear Hn Ht.
  wp_step. lens. eapply post_mono; [apply move_assign_from_spec|].
  intros [[]|e|] m3 (Hs3 & Hn3); lens; [|discriminate..].
  destruct Hn3 as (y & Hlive & Hy & ->); [reflexivity|].
  intros _. split; [reflexivity|].
  destruct Hwf as [Hwm Hws Hwl].
  remember (poke (size_ (this f)) (Some yl)
    (poke (size_ (this f) - 1) (Some (snd (move_construct xl))) (data_ (this f))))
    as m1 eqn:Em1.
  assert (Hsh : same_shape (data_ (this f)) m2) by (eapply same_shape_trans; eauto).
  assert (Hb2 : in_block m2 idx = true) by (now apply peek_in_block).
  assert (Hm1_lt : forall i, i < (size_ (this f)) - 1 -> peek m1 i = peek (data_ (this f)) i).
  { intros i Hi. rewrite Em1. rewrite !peek_poke_ne by lia. reflexivity. }
  assert (Hm1_sz : peek m1 (size_ (this f)) = Some yl).
  { rewrite Em1. apply peek_poke_eq.
    rewrite (in_block_shape (data_ (this f))); [assumption|apply same_shape_poke]. }
  assert (Hm1_gt : forall i, (size_ (this f)) < i -> peek m1 i = peek (data_ (this f)) i).
  { intros i Hi. rewrite Em1. rewrite !peek_poke_ne by lia. reflexivity. }
  assert (Hafter : forall i, idx <= i < (size_ (this f)) ->
    exists a b, peek (data_ (this f)) i = Some a /\ transported a b /\
                peek (poke idx (Some y) m2) (i + 1) = Some b).
  { intros i Hi. rewrite peek_poke_ne by lia.
    destruct (N.eq_dec i ((size_ (this f)) - 1)) as [->|Hne].
    - exists xl, yl. split; [assumption|]. split; [now apply transported_move|].
      replace ((size_ (this f)) - 1 + 1) with (size_ (this f)) by lia. rewrite Hout by lia. assumption.
    - destruct (Hin (i + 1)) as (a & b & H1 & H2 & H3); [lia|].
      replace (i + 1 - 1) with i in H1 by lia. rewrite Hm1_lt in H1 by lia.
      exists a, b. split; [assumption|]. split; [now apply transported_move_assign|].
      assumption. }
  split; lens; unfold Capacity in *; lens; rewrite ?capacity_poke.
  - assert (Hcap : (size_ (this f)) + 1 <= capacity_ (data_ (this f))).
    { destruct Hwm as [He _]. unfold in_block in Hbl. apply N.ltb_lt in Hbl. lia. }
    split; lens; unfold Capacity; lens; rewrite ?capacity_poke.
    + eapply wf_memory_shape; [|exact Hwm].
      eapply same_shape_trans; [exact Hsh|apply same_shape_poke].
    + destruct Hsh as [-> _]. assumption.
    + intros i. destruct (N.eq_dec i idx) as [->|Hne].
      * rewrite peek_poke_eq by assumption. split; [lia|eauto].
      * rewrite peek_poke_ne by congruence.
        destruct (N.lt_ge_cases i idx) as [Hlt|Hge].
        -- rewrite Hout by lia. rewrite Hm1_lt by lia. rewrite (Hwl i). lia.
        -- destruct (N.lt_ge_cases (size_ (this f)) i) as [Hlt'|Hge'].
           ++ rewrite Hout by lia. rewrite Hm1_gt by lia. rewrite (Hwl i). lia.
           ++ destruct (Hafter (i - 1)) as (a & b & _ & _ & H3); [lia|].
              rewrite peek_poke_ne in H3 by lia.
              replace (i - 1 + 1) with i in H3 by lia. rewrite H3.
              split; [lia|eauto].
  - reflexivity.
  - apply N.eqb_neq in Hfull. rewrite Hfull. destruct Hsh as [-> _]. reflexivity.
  - intros i Hi. rewrite peek_poke_ne by lia. rewrite Hout by lia.
    rewrite Hm1_lt by lia. destruct (proj2 (Hwl i)) as [a Ha]; [lia|].
    exists a, a. repeat split; try assumption. constructor.
  - exists tmp, y. repeat split.
    + now apply transported_move_assign.
    + now apply peek_poke_eq.
  - assumption.
Qed.

Lemma pushed_inserted made v v' :
  pushed made v v' -> inserted made (size_ v) v v'.
Proof.
  intros [Hwf Hsz Hcap [[x Hx] Hnew] Hold]. split; try assumption.
  - exists x, x. rewrite Hnew. repeat split; [assumption|constructor|assumption].
  - intros i Hi. lia.
Qed.

Lemma inserted_incr made idx v m n :
  n = size_ v -> inserted made idx v (MkVector m (n + 1)) ->
  inserted made idx v (MkVector m (incr n)).
Proof.
  intros -> Hp. rewrite incr_small; [assumption|].
  pose proof (wf_size_bound _ (inserted_wf _ _ _ _ Hp)) as Hb. cbn in Hb. lia.
Qed.

Lemma Emplace_spec pos made f :
  wf (this f) ->
  post (Emplace pos made) f (fun r f' =>
    forall p, r = Normal p ->
      p = pos /\ pos <= size_ (this f) /\ inserted made pos (this f) (this f')).
Proof.
  intros Hwf. unfold Emplace.
  wp_step. wp_step. lens. eapply post_mono; [apply begin_spec|].
  intros r v' [-> ->]. rewrite Frame_eta.
  wp_step. wp_step. lens. eapply post_mono; [apply end_spec|].
  intros [e|x|] v' (-> & Ht & Hn); rewrite ?Frame_eta; [|discriminate..].
  destruct (Hn e eq_refl) as [-> Hse]. clear Hn Ht.
  wp_step. apply post_cassert; intros Hc; [|discriminate].
  apply andb_true_iff in Hc as [_ Hpos]. apply N.leb_le in Hpos.
  rewrite N.sub_0_r.
  destruct (pos =? size_ (this f)) eqn:Eend.
  - apply N.eqb_eq in Eend. subst pos.
    eapply post_mono; [apply (EmplaceBack_spec _ _ Hwf)|].
    intros r f' [_ Hn] p ->. destruct (Hn p eq_refl) as [-> Hp].
    split; [reflexivity|]. split; [lia|]. now apply pushed_inserted.
  - apply N.eqb_neq in Eend. assert (Hidx : pos < size_ (this f)) by lia.
    wp_step. wp_step. cbv beta iota. wp_step.
    assert (Hblock : post
      (if size_ (this f) =? Capacity (this f)
       then
        new_data <- new_RawMemory (grown_capacity (size_ (this f)));;
        scoped delete_RawMemory new_data
          (p <- zoom _new_data (RawMemory_plus pos);;
           zoom _new_data (placement_new p made);;
           (if relocates
            then
             relocate 0 pos 0;;
             q <- zoom _old_data (RawMemory_plus pos);;
             d <- zoom _new_data (RawMemory_plus pos);;
             relocate q (size_ (this f) - pos) (d + 1)
            else
             duplicate 0 pos 0;;
             q <- zoom _old_data (RawMemory_plus pos);;
             d <- zoom _new_data (RawMemory_plus pos);;
             duplicate q (size_ (this f) - pos) (d + 1));;
           zoom _old_data (destroy_n 0 (size_ (this f)));;
           zoom _old_new RawMemory_Swap)
       else
        match made with
        | Some tmp =>
            last <- zoom _this_data (RawMemory_index (decr (size_ (this f))));;
            zoom _this_data (move_construct_at (size_ (this f)) last);;
            first <- zoom _this_data (RawMemory_plus pos);;
            zoom _this_data
              (std_move_backward first (size_ (this f) - 1) (size_ (this f)));;
            d <- zoom _this_data (RawMemory_index pos);;
            zoom _this_data (move_assign_from d tmp)
        | None => throw element_error
        end) f
      (fun r f' =>
         r = Normal tt ->
         size_ (this f') = size_ (this f) /\
         inserted made pos (this f)
           (MkVector (data_ (this f')) (size_ (this f) + 1)))).
    { destruct (size_ (this f) =? Capacity (this f)) eqn:Efull.
      - apply N.eqb_eq in Efull. wp_step.
        eapply post_mono; [apply new_RawMemory_spec|].
        intros [nd|e|] f1 [Hthis Hfresh]; [|discriminate..].
        specialize (Hfresh nd eq_refl). destruct f1 as [h1 v1]. cbn in Hthis.
        subst v1.
        apply (insert_grow_spec made pos (MkFrame h1 (this f)) nd); assumption.
      - apply N.eqb_neq in Efull. destruct made as [tmp|].
        + now apply insert_shift_spec.
        + wp. discriminate. }
    eapply post_mono; [exact Hblock|]. clear Hblock.
    intros [[]|e|] f1 Hpost; [|discriminate..].
    destruct Hpost as [Hsz Hins]; [reflexivity|].
    wp_step. wp_step. lens. wp_step. wp_step. wp_step. lens.
    eapply post_mono; [apply begin_spec|].
    intros r v' [-> ->]. wp. lens. intros p [= <-].
    split; [apply N.add_0_l|]. split; [assumption|].
    apply inserted_incr; [assumption|]. rewrite Hsz. assumption.
Qed.

Lemma Erase_spec pos v :
  wf v ->
  post (Erase pos) v (fun r v' =>
    forall p, r = Normal p -> p = pos /\ pos < size_ v /\ erased pos v v').
Proof.
  intros Hwf. pose proof (wf_size_mod _ Hwf) as Hmod. unfold Erase.
  wp_step. eapply post_mono; [apply begin_spec|].
  intros r v' [-> ->].
  wp_step. eapply post_mono; [apply end_spec|].
  intros [e|x|] v' (-> & Ht & Hn); [|discriminate..].
  destruct (Hn e eq_refl) as [-> Hse]. clear Hn Ht.
  wp_step. apply post_cassert; intros Hc; [|discriminate].
  apply andb_true_iff in Hc as [_ Hpos]. apply N.leb_le in Hpos.
  wp_step. wp_step. wp_step. apply post_cassert; intros Hz; [|discriminate].
  apply negb_true_iff, N.eqb_neq in Hz.
  rewrite N.sub_0_r, !N.add_0_l.
  wp_step. wp_step. lens. unfold std_move.
  destruct (size_ v <? pos + 1) eqn:Elt; [wp; discriminate|].
  apply N.ltb_ge in Elt.
  eapply post_mono; [apply move_forward_loop_spec; reflexivity|].
  rewrite N2Nat.id.
  intros [[]|e|] m1 (Hs1 & Hn1); lens; [|discriminate..].
  destruct Hn1 as (Hin & Hres & Hout); [reflexivity|].
  replace (pos + (size_ v - (pos + 1))) with (size_ v - 1) in * by lia.
  wp_step. wp_step. lens. eapply post_mono; [apply RawMemory_plus_spec|].
  intros [p|e|] m0 (-> & Ht & Hn); lens; [|discriminate..].
  destruct (Hn p eq_refl) as [-> _]. clear Hn Ht.
  wp_step. wp_step. lens. eapply post_mono; [apply destroy_at_spec|].
  intros [[]|e|] m2 (Hs2 & Ht2 & Hn2); lens; [|discriminate..].
  destruct Hn2 as [Hlive ->]; [reflexivity|].
  wp. lens. intros p [= <-]. split; [reflexivity|]. split; [lia|].
  rewrite decr_pos by lia.
  destruct Hwf as [Hwm Hws Hwl].
  assert (Hb : in_block m1 (size_ v - 1) = true) by (now apply peek_in_block).
  assert (Hafter : forall i, pos <= i < size_ v - 1 ->
    exists a b, peek (data_ v) (i + 1) = Some a /\ transported a b /\
                peek (poke (size_ v - 1) None m1) i = Some b).
  { intros i Hi. rewrite peek_poke_ne by lia.
    destruct (Hin i Hi) as (a & b & H1 & H2 & H3).
    exists a, b. split; [assumption|].
    split; [now apply transported_move_assign|assumption]. }
  split; lens; unfold Capacity in *; lens; rewrite ?capacity_poke.
  - split; lens; unfold Capacity; lens; rewrite ?capacity_poke.
    + eapply wf_memory_shape; [|exact Hwm].
      eapply same_shape_trans; [exact Hs1|apply same_shape_poke].
    + destruct Hs1 as [-> _]. lia.
    + intros i. destruct (N.eq_dec i (size_ v - 1)) as [->|Hne].
      * rewrite peek_poke_eq by assumption. split; [|lia].
        intros [? ?]; discriminate.
      * destruct (N.lt_ge_cases i pos) as [Hlt|Hge].
        -- rewrite peek_poke_ne by congruence.
           rewrite Hout by lia. rewrite (Hwl i). lia.
        -- destruct (N.lt_ge_cases i (size_ v - 1)) as [Hlt'|Hge'].
           ++ destruct (Hafter i) as (a & b & _ & _ & ->); [lia|].
              split; [lia|eauto].
           ++ rewrite peek_poke_ne by congruence.
              rewrite Hout by lia. rewrite (Hwl i). lia.
  - lia.
  - destruct Hs1 as [-> _]. reflexivity.
  - intros i Hi. rewrite peek_poke_ne by lia. apply Hout. lia.
  - assumption.
Qed.

End Positions.

(** ** Element sequences *)

Section Elements.

Context {T : Type} `{Element T}.
Implicit Types (m : RawMemory T) (v : Vector T) (f : Frame T) (p q i j : N).

Lemma transported_eq `{!Regular T} (x y : T) : transported x y -> y = x.
Proof.
  intros [x'|x' y' Hm|x' y' Hc|x' y' (d & r & Hm)|x' y' (d & Hc)].
  - reflexivity.
  - destruct (move_construct x') as [o r] eqn:E. cbn in Hm. subst o.
    eapply move_construct_value; eauto.
  - eapply copy_construct_value; eauto.
  - eapply move_assign_value; eauto.
  - eapply copy_assign_value; eauto.
Qed.

Lemma live_prefix_spec (k : nat) : forall (b : list (option T)),
  (forall n : nat, (n < k)%nat -> is_Some (mjoin (b !! n))) ->
  length (live_prefix k b) = k /\
  forall n : nat, (n < k)%nat -> live_prefix k b !! n = mjoin (b !! n).
Proof.
  induction k as [|k IH]; intros b Hlive.
  - split; [reflexivity|]. intros n Hn. lia.
  - destruct b as [|[x|] b].
    + destruct (Hlive 0%nat) as [? ?]; [lia|discriminate].
    + destruct (IH b) as [Hlen Hlook].
      { intros n Hn. apply (Hlive (S n)). lia. }
      cbn [live_prefix]. split; [cbn; now rewrite Hlen|].
      intros [|n] Hn; [reflexivity|]. cbn. apply Hlook. lia.
    + destruct (Hlive 0%nat) as [? ?]; [lia|discriminate].
Qed.

Lemma wf_live_nat v (n : nat) :
  wf v -> (n < N.to_nat (size_ v))%nat ->
  is_Some (mjoin (cells (data_ v) !! n)).
Proof.
  intros Hwf Hi. pose proof (proj2 (wf_live _ Hwf (N.of_nat n))) as Hl.
  unfold peek in Hl. rewrite Nat2N.id in Hl. apply Hl. lia.
Qed.

Lemma elements_length v : wf v -> length (elements v) = N.to_nat (size_ v).
Proof.
  intros Hwf. unfold elements.
  apply live_prefix_spec. intros n Hn. now apply wf_live_nat.
Qed.

Lemma elements_lookup v i :
  wf v -> i < size_ v -> elements v !! N.to_nat i = peek (data_ v) i.
Proof.
  intros Hwf Hi. unfold elements, peek.
  apply live_prefix_spec; [|lia]. intros k Hk. now apply wf_live_nat.
Qed.

Lemma elements_lookup_ge v i :
  wf v -> size_ v <= i -> elements v !! N.to_nat i = None.
Proof.
  intros Hwf Hi. apply lookup_ge_None. rewrite elements_length by assumption. lia.
Qed.

(** Two vectors with the same live slots hold the same sequence. *)
Lemma elements_ext v v' :
  wf v -> wf v' -> size_ v' = size_ v ->
  (forall i, i < size_ v -> peek (data_ v') i = peek (data_ v) i) ->
  elements v' = elements v.
Proof.
  intros Hwf Hwf' Hsz Hpeek. apply list_eq. intros k.
  destruct (decide (k < N.to_nat (size_ v))%nat) as [Hk|Hk].
  - rewrite <- (Nat2N.id k).
    rewrite !elements_lookup by (assumption || lia). apply Hpeek. lia.
  - rewrite !(proj2 (lookup_ge_None _ _)); [reflexivity|..];
      rewrite elements_length by assumption; lia.
Qed.

(** *** Checking the invariant of a concrete vector *)

Lemma is_live_Some (o : option T) : is_live o = true <-> is_Some o.
Proof.
  destruct o; cbn; split; eauto; try discriminate.
  intros [? ?]; discriminate.
Qed.

Lemma wf_check_sound v : wf_check v = true -> wf v.
Proof.
  unfold wf_check. rewrite !andb_true_iff.
  intros ((((Hlen & Hbytes) & Hsize) & Hlive) & Hraw).
  apply N.eqb_eq in Hlen. apply N.leb_le in Hbytes, Hsize.
  rewrite forallb_forall in Hlive, Hraw.
  split.
  - split; assumption.
  - assumption.
  - intros i. unfold peek. split.
    + intros Hi. destruct (N.lt_ge_cases i (size_ v)) as [Hlt|Hge]; [assumption|].
      exfalso. destruct (cells (data_ v) !! N.to_nat i) as [o|] eqn:E;
        [|destruct Hi; discriminate].
      assert (Hin : In o (drop (N.to_nat (size_ v)) (cells (data_ v)))).
      { apply list_elem_of_In, list_elem_of_lookup.
        exists (N.to_nat i - N.to_nat (size_ v))%nat.
        rewrite lookup_drop. rewrite <- E. f_equal. lia. }
      apply Hraw in Hin. apply is_live_Some in Hi. cbn in Hi.
      rewrite Hi in Hin. discriminate.
    + intros Hi.
      assert (Hlt : (N.to_nat i < length (cells (data_ v)))%nat)
        by (unfold Capacity in *; lia).
      destruct (lookup_lt_is_Some_2 _ _ Hlt) as [o E]. rewrite E. cbn.
      apply is_live_Some. apply Hlive.
      apply list_elem_of_In, list_elem_of_lookup. exists (N.to_nat i).
      rewrite lookup_take_lt by lia. assumption.
Qed.

End Elements.

(** ** Runs that return *)

Section Runs.

Context {S : Type}.

Lemma bind_run {A B} (m : M S A) (k : A -> M S B) s a s' :
  m s = (Normal a, s') -> bind m k s = k a s'.
Proof. intros E. unfold bind. now rewrite E. Qed.

(** A specification joined with the fact that the computation returns. *)
Lemma post_total {A} (m : M S A) s a (Q : outcome A -> S -> Prop) :
  (exists s', m s = (Normal a, s')) -> post m s Q ->
  post m s (fun r s' => r = Normal a /\ Q r s').
Proof.
  intros (s' & E) HQ. unfold post in *. rewrite E in *. cbn. eauto.
Qed.

Lemma post_eq {A} (m : M S A) s r s' (Q : outcome A -> S -> Prop) :
  m s = (r, s') -> Q r s' -> post m s Q.
Proof. intros E HQ. unfold post. now rewrite E. Qed.

Lemma post_conj {A} (m : M S A) s (Q Q' : outcome A -> S -> Prop) :
  post m s Q -> post m s Q' -> post m s (fun r s' => Q r s' /\ Q' r s').
Proof. unfold post. auto. Qed.

Lemma post_returns {A} (m : M S A) s a :
  post m s (fun r _ => r = Normal a) -> exists s', m s = (Normal a, s').
Proof.
  unfold post. destruct (m s) as [r s']. cbn. intros ->. eauto.
Qed.

End Runs.

Section Returns.

Context {T : Type} `{Element T}.
Implicit Types (m src dst : RawMemory T) (p q i j : N).

Lemma load_run p m x : peek m p = Some x -> load p m = (Normal x, m).
Proof. intros E. unfold load, bind, get. now rewrite E. Qed.

Lemma store_run p x m :
  is_Some (peek m p) -> store p x m = (Normal tt, poke p (Some x) m).
Proof. intros [y E]. unfold store, bind, get. now rewrite E. Qed.

Lemma placement_new_run p x m :
  in_block m p = true ->
  placement_new p (Some x) m = (Normal tt, poke p (Some x) m).
Proof. intros E. unfold placement_new, bind, get. now rewrite E. Qed.

Lemma destroy_at_run p m :
  is_Some (peek m p) -> destroy_at p m = (Normal tt, poke p None m).
Proof. intros [y E]. unfold destroy_at, bind, get. now rewrite E. Qed.

Lemma RawMemory_plus_run offset m :
  offset <= capacity_ m -> RawMemory_plus offset m = (Normal offset, m).
Proof.
  intros Hle. apply N.leb_le in Hle.
  unfold RawMemory_plus, bind, get, cassert. now rewrite Hle.
Qed.

Lemma RawMemory_index_run index m :
  index < capacity_ m -> RawMemory_index index m = (Normal index, m).
Proof.
  intros Hlt. apply N.ltb_lt in Hlt.
  unfold RawMemory_index, bind, get, cassert. now rewrite Hlt.
Qed.

Lemma is_Some_peek_poke p q x m :
  is_Some (peek m q) -> is_Some (peek (poke p (Some x) m) q).
Proof.
  intros Hq. destruct (N.eq_dec p q) as [->|Hne].
  - rewrite peek_poke_eq by (now apply peek_in_block). eauto.
  - now rewrite peek_poke_ne.
Qed.

Lemma in_block_poke p q o m : in_block (poke p o m) q = in_block m q.
Proof. apply in_block_shape, same_shape_poke. Qed.

Lemma destroy_loop_returns k : forall p m,
  (forall i, p <= i < p + N.of_nat k -> is_Some (peek m i)) ->
  exists m', destroy_loop k p m = (Normal tt, m').
Proof.
  induction k as [|k IH]; intros p m Hlive; cbn [destroy_loop].
  - eexists. reflexivity.
  - rewrite (bind_run _ _ _ _ _ (destroy_at_run p m (Hlive p ltac:(lia)))).
    apply IH. intros i Hi. rewrite peek_poke_ne by lia. apply Hlive. lia.
Qed.

Lemma destroy_n_returns first n m :
  (forall i, first <= i < first + n -> is_Some (peek m i)) ->
  exists m', destroy_n first n m = (Normal tt, m').
Proof.
  intros Hlive. apply destroy_loop_returns. now rewrite N2Nat.id.
Qed.

Lemma on_throw_run {A} (c : M (RawMemory T) A) h m a m' :
  c m = (Normal a, m') -> on_throw c h m = (Normal a, m').
Proof. intros E. unfold on_throw. now rewrite E. Qed.

Lemma value_construct_loop_returns first k : forall cur m,
  is_Some value_init ->
  (forall i, cur <= i < cur + N.of_nat k -> in_block m i = true) ->
  exists m', value_construct_loop first k cur m = (Normal tt, m').
Proof.
  induction k as [|k IH]; intros cur m [x Hx] Hin; cbn [value_construct_loop].
  - eexists. reflexivity.
  - rewrite (bind_run _ _ _ tt (poke cur (Some x) m)).
    + apply IH; [eauto|]. intros i Hi. rewrite in_block_poke. apply Hin. lia.
    + apply on_throw_run. rewrite Hx. apply placement_new_run. apply Hin. lia.
Qed.

Lemma uninitialized_value_construct_n_returns first n m :
  is_Some value_init ->
  (forall i, first <= i < first + n -> in_block m i = true) ->
  exists m', uninitialized_value_construct_n first n m = (Normal tt, m').
Proof.
  intros Hv Hin. apply value_construct_loop_returns; [assumption|].
  now rewrite N2Nat.id.
Qed.

Lemma copy_loop_returns `{!Reliable T} src d_first k : forall first cur m,
  (forall j, j < N.of_nat k -> is_Some (peek src (first + j))) ->
  (forall j, j < N.of_nat k -> in_block m (cur + j) = true) ->
  exists m', copy_loop src d_first k first cur m = (Normal tt, m').
Proof.
  induction k as [|k IH]; intros first cur m Hsrc Hin; cbn [copy_loop].
  - eexists. reflexivity.
  - destruct (Hsrc 0) as [x Hx]; [lia|]. rewrite N.add_0_r in Hx. rewrite Hx.
    destruct (copy_construct_returns x) as [y Hy].
    rewrite (bind_run _ _ _ tt (poke cur (Some y) m)).
    + apply IH.
      * intros j Hj. replace (first + 1 + j) with (first + (j + 1)) by lia.
        apply Hsrc. lia.
      * intros j Hj. rewrite in_block_poke.
        replace (cur + 1 + j) with (cur + (j + 1)) by lia. apply Hin. lia.
    + apply on_throw_run. rewrite Hy. apply placement_new_run.
      specialize (Hin 0). rewrite N.add_0_r in Hin. apply Hin. lia.
Qed.

Lemma uninitialized_copy_n_returns `{!Reliable T} src first n d_first m :
  (forall j, j < n -> is_Some (peek src (first + j))) ->
  (forall j, j < n -> in_block m (d_first + j) = true) ->
  exists m', uninitialized_copy_n src first n d_first m = (Normal tt, m').
Proof.
  intros Hsrc Hin. apply copy_loop_returns; now rewrite N2Nat.id.
Qed.

Lemma zoom_run {S S' A} (l : Lens S S') (c : M S' A) s r s' :
  c (view l s) = (r, s') -> zoom l c s = (r, update l s' s).
Proof. intros E. unfold zoom. now rewrite E. Qed.

Lemma move_loop_returns `{!Reliable T} d_first k : forall first cur src dst,
  (forall j, j < N.of_nat k -> is_Some (peek src (first + j))) ->
  (forall j, j < N.of_nat k -> in_block dst (cur + j) = true) ->
  exists s', move_loop d_first k first cur (src, dst) = (Normal tt, s').
Proof.
  induction k as [|k IH]; intros first cur src dst Hsrc Hin; cbn [move_loop].
  - eexists. reflexivity.
  - destruct (Hsrc 0) as [x Hx]; [lia|]. rewrite N.add_0_r in Hx.
    destruct (move_construct_returns x) as [y Hy].
    rewrite (bind_run _ _ _ x (src, dst));
      [|apply (zoom_run fst_lens); cbn; now apply load_run].
    rewrite (bind_run _ _ _ tt (poke first (Some (snd (move_construct x))) src, dst));
      [|apply (zoom_run fst_lens (store first _) (src, dst)); cbn;
        apply store_run; eauto].
    rewrite (bind_run _ _ _ tt
               (poke first (Some (snd (move_construct x))) src,
                poke cur (Some y) dst)).
    + apply IH.
      * intros j Hj. rewrite peek_poke_ne by lia.
        replace (first + 1 + j) with (first + (j + 1)) by lia.
        apply Hsrc. lia.
      * intros j Hj. rewrite in_block_poke.
        replace (cur + 1 + j) with (cur + (j + 1)) by lia. apply Hin. lia.
    + apply (zoom_run snd_lens _ (poke first _ src, dst)). cbn.
      apply on_throw_run. rewrite Hy. apply placement_new_run.
      specialize (Hin 0). rewrite N.add_0_r in Hin. apply Hin. lia.
Qed.

Lemma uninitialized_move_n_returns `{!Reliable T} first n d_first src dst :
  (forall j, j < n -> is_Some (peek src (first + j))) ->
  (forall j, j < n -> in_block dst (d_first + j) = true) ->
  exists s', uninitialized_move_n first n d_first (src, dst) = (Normal tt, s').
Proof.
  intros Hsrc Hin. apply move_loop_returns; now rewrite N2Nat.id.
Qed.

Lemma move_assign_at_returns `{!Reliable T} d s m :
  is_Some (peek m s) -> is_Some (peek m d) ->
  exists x y, move_assign_at d s m
              = (Normal tt, poke d (Some y) (poke s (Some x) m)).
Proof.
  intros [x Hx] [y Hy]. unfold move_assign_at.
  rewrite (bind_run _ _ _ _ _ (load_run s m x Hx)).
  rewrite (bind_run _ _ _ _ _ (load_run d m y Hy)).
  pose proof (move_assign_returns y x) as Hok.
  destruct (move_assign y x) as [[ok y'] x']. cbn in Hok. subst ok.
  rewrite (bind_run _ _ _ _ _ (store_run s x' m ltac:(eauto))).
  rewrite (bind_run _ _ _ tt (poke d (Some y') (poke s (Some x') m))).
  - eauto.
  - apply store_run. apply is_Some_peek_poke. eauto.
Qed.

Lemma move_forward_loop_returns `{!Reliable T} k : forall first d m,
  first = d + 1 ->
  (forall i, d <= i <= d + N.of_nat k -> is_Some (peek m i)) ->
  exists m', move_forward_loop k first d m = (Normal tt, m').
Proof.
  induction k as [|k IH]; intros first d m -> Hlive; cbn [move_forward_loop].
  - eexists. reflexivity.
  - destruct (move_assign_at_returns d (d + 1) m) as (x & y & E);
      [apply Hlive; lia..|].
    rewrite (bind_run _ _ _ _ _ E). apply IH; [reflexivity|].
    intros i Hi. do 2 apply is_Some_peek_poke. apply Hlive. lia.
Qed.

Lemma move_backward_loop_returns `{!Reliable T} k : forall last d_last m,
  d_last = last + 1 -> N.of_nat k <= last ->
  (forall i, last - N.of_nat k <= i <= last -> is_Some (peek m i)) ->
  exists m', move_backward_loop k last d_last m = (Normal tt, m').
Proof.
  induction k as [|k IH]; intros last d_last m -> Hk Hlive;
    cbn [move_backward_loop].
  - eexists. reflexivity.
  - replace (last + 1 - 1) with last by lia.
    destruct (move_assign_at_returns last (last - 1) m) as (x & y & E);
      [apply Hlive; lia..|].
    rewrite (bind_run _ _ _ _ _ E). apply IH; [lia|lia|].
    intros i Hi. do 2 apply is_Some_peek_poke. apply Hlive. lia.
Qed.

End Returns.

Section MethodsReturn.

Context {T : Type} `{Element T} `{!Reliable T}.
Implicit Types (m nd : RawMemory T) (v : Vector T) (f : Frame T) (p q i j : N).

Lemma end_run v : size_ v <= Capacity v -> end_ v = (Normal (size_ v), v).
Proof.
  intros Hle. unfold end_. rewrite (bind_run _ _ _ (size_ v) v) by reflexivity.
  rewrite (zoom_run _data _ v _ _ (RawMemory_plus_run _ _ Hle)).
  cbn. now rewrite Vector_eta.
Qed.

Lemma begin_run v : begin_ v = (Normal 0, v).
Proof. unfold begin_, GetAddress, zoom, ret. cbn. now rewrite Vector_eta. Qed.

(** [Erase] at a position of an element returns, for an element type whose
    operations do not throw. *)
Lemma Erase_returns pos v :
  wf v -> pos < size_ v -> exists v', Erase pos v = (Normal pos, v').
Proof.
  intros Hwf Hpos. pose proof (wf_size _ Hwf) as Hs.
  unfold Erase.
  rewrite (bind_run _ _ _ _ _ (begin_run v)).
  rewrite (bind_run _ _ _ _ _ (end_run v Hs)).
  assert (Ha : ((0 <=? pos) && (pos <=? size_ v)) = true).
  { apply andb_true_iff. split; apply N.leb_le; lia. }
  rewrite Ha. rewrite (bind_run _ _ _ tt v) by reflexivity.
  rewrite (bind_run _ _ _ (size_ v) v) by reflexivity.
  assert (Hz : negb (size_ v =? 0) = true).
  { apply negb_true_iff, N.eqb_neq. lia. }
  rewrite Hz. rewrite (bind_run _ _ _ tt v) by reflexivity.
  rewrite N.sub_0_r, !N.add_0_l.
  assert (Hmove : post (std_move (pos + 1) (size_ v) pos) (data_ v)
    (fun r m' => r = Normal tt /\ same_shape (data_ v) m' /\
                 is_Some (peek m' (size_ v - 1)))).
  { unfold std_move.
    assert (Elt : (size_ v <? pos + 1) = false) by (apply N.ltb_ge; lia).
    rewrite Elt. eapply post_mono.
    - apply (post_total _ _ tt).
      + apply move_forward_loop_returns; [reflexivity|].
        rewrite N2Nat.id. intros i Hi. apply (wf_live _ Hwf). lia.
      + apply move_forward_loop_spec. reflexivity.
    - rewrite N2Nat.id. intros r m' [-> [Hsh Hn]].
      destruct Hn as (_ & Hres & _); [reflexivity|].
      split; [reflexivity|]. split; [assumption|].
      replace (size_ v - 1) with (pos + (size_ v - (pos + 1))) by lia.
      apply Hres; [reflexivity|]. apply (wf_live _ Hwf). lia. }
  unfold post in Hmove.
  destruct (std_move (pos + 1) (size_ v) pos (data_ v)) as [r m1] eqn:Em.
  cbn in Hmove. destruct Hmove as (-> & Hsh & Hlast).
  rewrite (bind_run _ _ _ tt (MkVector m1 (size_ v)))
    by (apply (zoom_run _data _ v); exact Em).
  assert (Hcap : size_ v <= capacity_ m1) by (destruct Hsh as [-> _]; exact Hs).
  rewrite (bind_run _ _ _ (size_ v) (MkVector m1 (size_ v)))
    by (apply (zoom_run _data _ (MkVector m1 (size_ v)));
        apply RawMemory_plus_run; exact Hcap).
  rewrite (bind_run _ _ _ tt (MkVector (poke (size_ v - 1) None m1) (size_ v)))
    by (apply (zoom_run _data _ (MkVector m1 (size_ v)));
        apply destroy_at_run; exact Hlast).
  eexists. reflexivity.
Qed.

(** *** Allocation from a generous free store *)

Lemma new_RawMemory_returns n f :
  generous (heap f) -> n * Npos sizeof <= PTRDIFF_MAX ->
  exists nd h',
    new_RawMemory n f = (Normal nd, MkFrame h' (this f)) /\
    generous h' /\ fresh n nd /\ wf_memory nd.
Proof.
  intros Hgen Hbytes. unfold generous in *.
  assert (Hrun : exists nd h',
    new_RawMemory n f = (Normal nd, MkFrame h' (this f)) /\ oracle h' = []).
  { unfold new_RawMemory, zoom, RawMemory_ctor, Allocate. lens.
    destruct (n =? 0) eqn:E0; [cbn; eauto|].
    unfold bind, operator_new. rewrite wrap_small
      by (pose proof PTRDIFF_MAX_lt; lia).
    assert (Eb : (PTRDIFF_MAX <? n * N.pos sizeof) = false)
      by (apply N.ltb_ge; assumption).
    rewrite Eb, Hgen. cbn. eauto. }
  destruct Hrun as (nd & h' & Hrun & Hgen').
  pose proof (new_RawMemory_spec n f) as Hspec.
  pose proof (post_run _ _ _ _ _ Hspec Hrun) as [_ Hfresh].
  specialize (Hfresh nd eq_refl).
  exists nd, h'. split; [assumption|]. split; [assumption|].
  split; [assumption|]. apply (fresh_no_wrap n); [assumption|]. pose proof PTRDIFF_MAX_lt. lia.
Qed.

Lemma delete_RawMemory_returns m f :
  exists h', delete_RawMemory m f = (Normal tt, MkFrame h' (this f)) /\
             (generous (heap f) -> generous h').
Proof.
  unfold delete_RawMemory, RawMemory_dtor, Deallocate, operator_delete, zoom.
  lens. destruct (buffer_ m); cbn; eauto.
Qed.

Lemma delete_total m f (Q : outcome unit -> Frame T -> Prop) :
  (forall h, (generous (heap f) -> generous h) ->
             Q (Normal tt) (MkFrame h (this f))) ->
  post (delete_RawMemory m) f Q.
Proof.
  intros HQ. destruct (delete_RawMemory_returns m f) as (h' & E & Hg).
  unfold post. rewrite E. cbn. now apply HQ.
Qed.

(** *** Transfers *)

Lemma transfer_returns (move_it : bool) first n d_first f nd :
  (forall j, j < n -> is_Some (peek (data_ (this f)) (first + j))) ->
  (forall j, j < n -> in_block nd (d_first + j) = true) ->
  post ((if move_it then relocate else duplicate) first n d_first) (f, nd)
    (fun r s' =>
       (r = Normal tt /\ heap (fst s') = heap f) /\
       transfer_post first n d_first f nd r s').
Proof.
  intros Hsrc Hdst. apply post_conj;
    [|destruct move_it; [apply relocate_spec|apply duplicate_spec]].
  destruct move_it.
  - unfold relocate. wp. lens.
    destruct (uninitialized_move_n_returns first n d_first
                (data_ (this f)) nd Hsrc Hdst) as [[old' nd'] E].
    unfold post. rewrite E. cbn. auto.
  - unfold duplicate. wp. lens.
    destruct (uninitialized_copy_n_returns (data_ (this f)) first n d_first
                nd Hsrc Hdst) as [nd' E].
    unfold post. rewrite E. cbn. auto.
Qed.

Lemma transfer_returns' first n d_first f nd :
  (forall j, j < n -> is_Some (peek (data_ (this f)) (first + j))) ->
  (forall j, j < n -> in_block nd (d_first + j) = true) ->
  post (transfer first n d_first) (f, nd)
    (fun r s' =>
       (r = Normal tt /\ heap (fst s') = heap f) /\
       transfer_post first n d_first f nd r s').
Proof.
  intros Hsrc Hdst. unfold transfer.
  destruct relocates;
    [apply (transfer_returns true)|apply (transfer_returns false)]; assumption.
Qed.

(** The end of every growth step: the old elements are destroyed, the
    storages exchanged, the old block released. *)
Lemma commit_returns n f nd (Q : outcome unit -> Frame T -> Prop) :
  (forall i, i < n -> is_Some (peek (data_ (this f)) i)) ->
  (forall h, (generous (heap f) -> generous h) ->
             Q (Normal tt) (MkFrame h (MkVector nd (size_ (this f))))) ->
  post (zoom _old_data (destroy_n 0 n) ;; zoom _old_new RawMemory_Swap) (f, nd)
    (fun r sl =>
       match r with
       | Normal a =>
           post (delete_RawMemory (snd sl)) (fst sl) (fun r' s'' =>
             match r' with
             | Normal _ => Q (Normal a) s''
             | Throw e => Q (Throw e) s''
             | Undefined => Q Undefined s''
             end)
       | Throw e =>
           post (delete_RawMemory (snd sl)) (fst sl) (fun r' s'' =>
             match r' with
             | Normal _ => Q (Throw e) s''
             | Throw e' => Q (Throw e') s''
             | Undefined => Q Undefined s''
             end)
       | Undefined => Q Undefined (fst sl)
       end).
Proof.
  intros Hlive HQ. wp_step. wp_step. lens.
  eapply post_mono.
  { apply (post_total _ _ tt); [|apply destroy_n_spec].
    apply destroy_n_returns. intros i Hi. apply Hlive. lia. }
  intros r old2 [-> _]. unfold RawMemory_Swap. wp. lens.
  apply delete_total. lens. intros h Hg. rewrite RawMemory_eta. now apply HQ.
Qed.

(** *** Appends *)

Lemma wf_in_block v i : wf v -> i < Capacity v -> in_block (data_ v) i = true.
Proof.
  intros [[He _] _ _] Hi. unfold in_block, Capacity in *.
  apply N.ltb_lt. lia.
Qed.

Lemma wf_memory_in_block m i : wf_memory m -> i < capacity_ m -> in_block m i = true.
Proof. intros [He _] Hi. unfold in_block. apply N.ltb_lt. lia. Qed.

Lemma append_step_returns x f :
  wf (this f) -> generous (heap f) ->
  (size_ (this f) = Capacity (this f) ->
   N.max 1 (2 * size_ (this f)) * Npos sizeof <= PTRDIFF_MAX) ->
  post (if size_ (this f) =? Capacity (this f) then
          new_data <- new_RawMemory (grown_capacity (size_ (this f))) ;;
          scoped delete_RawMemory new_data (
            p <- zoom _new_data (RawMemory_plus (size_ (this f))) ;;
            zoom _new_data (placement_new p (Some x)) ;;
            transfer 0 (size_ (this f)) 0 ;;
            zoom _old_data (destroy_n 0 (size_ (this f))) ;;
            zoom _old_new RawMemory_Swap)
        else
          p <- zoom _this_data (RawMemory_plus (size_ (this f))) ;;
          zoom _this_data (placement_new p (Some x))) f
    (fun r f' => r = Normal tt /\ generous (heap f')).
Proof.
  intros Hwf Hgen Hroom. pose proof (wf_size _ Hwf) as Hs.
  pose proof (grown_capacity_wf _ Hwf) as Hg.
  destruct (size_ (this f) =? Capacity (this f)) eqn:Efull.
  - apply N.eqb_eq in Efull. specialize (Hroom Efull). rewrite <- Hg in Hroom.
    destruct (new_RawMemory_returns _ f Hgen Hroom)
      as (nd & h1 & Enew & Hgen1 & Hfresh & Hwm).
    wp_step. eapply post_eq; [exact Enew|]. cbv beta iota.
    pose proof (fresh_capacity _ _ Hfresh) as Hcap. rewrite Hg in Hcap.
    wp_step. wp_step. wp_step. lens.
    eapply post_eq; [apply RawMemory_plus_run; lia|]. cbv beta iota.
    wp_step. wp_step. lens.
    eapply post_eq;
      [apply placement_new_run, wf_memory_in_block; [assumption|lia]|].
    cbv beta iota. lens. wp_step.
    eapply post_mono.
    { apply transfer_returns'; lens.
      - intros j Hj. apply (wf_live _ Hwf). lia.
      - intros j Hj. rewrite in_block_poke.
        apply wf_memory_in_block; [assumption|lia]. }
    intros r [f1 nd2] [[-> Hheap] (Hsz & Hso & Hsn & Htr)]. lens.
    destruct Htr as (Hin & _ & _); [reflexivity|].
    apply (commit_returns _ _ _
             (fun r f' => r = Normal tt /\ generous (heap f'))).
    + intros i Hi. destruct (Hin i Hi) as (a & b & _ & _ & _ & Hl).
      now rewrite N.add_0_l in Hl.
    + intros h Hgh. split; [reflexivity|]. apply Hgh. now rewrite Hheap.
  - apply N.eqb_neq in Efull. wp_step. wp_step. lens.
    eapply post_eq; [apply RawMemory_plus_run; exact Hs|]. cbv beta iota.
    wp_step. lens.
    eapply post_eq;
      [apply placement_new_run, wf_in_block; [assumption|unfold Capacity in *; lia]|].
    lens. auto.
Qed.

(** [PushBack] returns when the element can be constructed and the free
    store can provide the doubled block. *)
Lemma PushBack_returns value x f :
  wf (this f) -> generous (heap f) -> forward value = Some x ->
  (size_ (this f) = Capacity (this f) ->
   N.max 1 (2 * size_ (this f)) * Npos sizeof <= PTRDIFF_MAX) ->
  exists f', PushBack value f = (Normal tt, f') /\ generous (heap f').
Proof.
  intros Hwf Hgen Hx Hroom.
  assert (Hpost : post (PushBack value) f
            (fun r f' => r = Normal tt /\ generous (heap f'))).
  { unfold PushBack. rewrite Hx. wp_step. wp_step. cbv beta iota. wp_step.
    eapply post_mono; [apply (append_step_returns x f); assumption|].
    intros r f1 [-> Hg1]. wp. lens. auto. }
  unfold post in Hpost. destruct (PushBack value f) as [r f'].
  cbn in Hpost. destruct Hpost as [-> Hg]. eauto.
Qed.

Lemma EmplaceBack_returns x f :
  wf (this f) -> generous (heap f) ->
  (size_ (this f) = Capacity (this f) ->
   N.max 1 (2 * size_ (this f)) * Npos sizeof <= PTRDIFF_MAX) ->
  exists f',
    EmplaceBack (Some x) f = (Normal (size_ (this f)), f') /\
    generous (heap f').
Proof.
  intros Hwf Hgen Hroom.
  assert (Hpost : post (EmplaceBack (Some x)) f
            (fun r f' => r = Normal (size_ (this f)) /\ generous (heap f'))).
  { unfold EmplaceBack. wp_step. wp_step. cbv beta iota. wp_step.
    eapply post_mono.
    { apply post_conj;
        [apply (append_step_returns x f); assumption
        |apply (append_step_spec (Some x) f Hwf)]. }
    intros r f1 [[-> Hg1] [Hsz Hp]].
    wp_step. wp_step. wp_step. lens. wp_step. lens.
    pose proof (pushed_capacity_le _ _ _ Hwf Hp) as Hle.
    pose proof (wf_size _ (pushed_wf _ _ _ Hp)) as Hs'.
    unfold Capacity in Hle, Hs'. lens.
    eapply post_eq; [apply RawMemory_index_run; lia|]. auto. }
  unfold post in Hpost. destruct (EmplaceBack (Some x) f) as [r f'].
  cbn in Hpost. destruct Hpost as [-> Hg]. eauto.
Qed.

(** *** [Emplace] *)

Lemma move_construct_at_returns d s m :
  is_Some (peek m s) -> in_block m d = true ->
  exists x y, move_construct_at d s m
              = (Normal tt, poke d (Some y) (poke s (Some x) m)).
Proof.
  intros [x Hx] Hd. unfold move_construct_at.
  rewrite (bind_run _ _ _ _ _ (load_run s m x Hx)).
  rewrite (bind_run _ _ _ _ _ (store_run s _ m ltac:(eauto))).
  destruct (move_construct_returns x) as [y Hy]. rewrite Hy.
  rewrite placement_new_run by (now rewrite in_block_poke). eauto.
Qed.

Lemma move_assign_from_returns d tmp m :
  is_Some (peek m d) ->
  exists y, move_assign_from d tmp m = (Normal tt, poke d (Some y) m).
Proof.
  intros [y Hy]. unfold move_assign_from.
  rewrite (bind_run _ _ _ _ _ (load_run d m y Hy)).
  pose proof (move_assign_returns y tmp) as Hok.
  destruct (move_assign y tmp) as [[ok y'] x']. cbn in Hok. subst ok.
  rewrite (bind_run _ _ _ _ _ (store_run d y' m ltac:(eauto))). eauto.
Qed.

Lemma insert_transfer_returns (move_it : bool) idx f nd :
  wf (this f) -> idx <= size_ (this f) ->
  idx <= capacity_ nd ->
  (forall i, i <= size_ (this f) -> in_block nd i = true) ->
  post ((if move_it then relocate else duplicate) 0 idx 0 ;;
        q <- zoom _old_data (RawMemory_plus idx) ;;
        d <- zoom _new_data (RawMemory_plus idx) ;;
        (if move_it then relocate else duplicate)
          q (size_ (this f) - idx) (d + 1))
       (f, nd)
    (fun r s' =>
       r = Normal tt /\ heap (fst s') = heap f /\
       forall i, i < size_ (this f) ->
         is_Some (peek (data_ (this (fst s'))) i)).
Proof.
  intros Hwf Hidx Hcap Hblk. pose proof (wf_size _ Hwf) as Hs.
  unfold Capacity in Hs.
  wp_step. eapply post_mono.
  { apply (transfer_returns move_it).
    - intros j Hj. apply (wf_live _ Hwf). lia.
    - intros j Hj. apply Hblk. lia. }
  intros r [f1 nd1] [[-> Hheap1] (Hsz1 & Hso1 & Hsn1 & Htr1)]. lens.
  destruct Htr1 as (Hin1 & _ & Hold1); [reflexivity|].
  wp_step. wp_step. lens.
  eapply post_eq;
    [apply RawMemory_plus_run; destruct Hso1 as [-> _]; lia|].
  cbv beta iota. lens. rewrite Vector_eta, Frame_eta.
  wp_step. wp_step. lens.
  eapply post_eq;
    [apply RawMemory_plus_run; destruct Hsn1 as [-> _]; lia|].
  cbv beta iota. lens. rewrite <- Hsz1.
  eapply post_mono.
  { apply (transfer_returns move_it).
    - intros j Hj. rewrite Hold1 by lia. apply (wf_live _ Hwf). lia.
    - intros j Hj. rewrite (in_block_shape _ _ _ Hsn1). apply Hblk. lia. }
  intros r [f2 nd2] [[-> Hheap2] (Hsz2 & Hso2 & Hsn2 & Htr2)]. lens.
  destruct Htr2 as (Hin2 & _ & Hold2); [reflexivity|].
  split; [reflexivity|]. split; [congruence|].
  intros i Hi. rewrite Hsz1 in *.
  destruct (N.lt_ge_cases i idx) as [Hlt|Hge].
  - rewrite Hold2 by lia.
    destruct (Hin1 i Hlt) as (a & b & _ & _ & _ & Hl).
    now rewrite N.add_0_l in Hl.
  - destruct (Hin2 (i - idx)) as (a & b & _ & _ & _ & Hl); [lia|].
    replace (idx + (i - idx)) with i in Hl by lia. assumption.
Qed.

Lemma Emplace_returns pos x f :
  wf (this f) -> generous (heap f) -> pos <= size_ (this f) ->
  (size_ (this f) = Capacity (this f) ->
   N.max 1 (2 * size_ (this f)) * Npos sizeof <= PTRDIFF_MAX) ->
  exists f', Emplace pos (Some x) f = (Normal pos, f') /\ generous (heap f').
Proof.
  intros Hwf Hgen Hpos Hroom. pose proof (wf_size _ Hwf) as Hs.
  pose proof (wf_size_mod _ Hwf) as Hmod.
  assert (Hpost : post (Emplace pos (Some x)) f
            (fun r f' => r = Normal pos /\ generous (heap f'))).
  { unfold Emplace.
    wp_step. wp_step. lens. eapply post_eq; [apply begin_run|].
    cbv beta iota. lens. rewrite Frame_eta.
    wp_step. wp_step. lens. eapply post_eq; [apply (end_run _ Hs)|].
    cbv beta iota. lens. rewrite Frame_eta.
    wp_step. apply post_cassert; intros Hc;
      [|apply andb_false_iff in Hc as [Hc|Hc]; apply N.leb_gt in Hc; lia].
    rewrite N.sub_0_r.
    destruct (pos =? size_ (this f)) eqn:Eend.
    - apply N.eqb_eq in Eend. subst pos.
      destruct (EmplaceBack_returns x f Hwf Hgen Hroom) as (f' & E & Hg).
      eapply post_eq; [exact E|]. auto.
    - apply N.eqb_neq in Eend. assert (Hidx : pos < size_ (this f)) by lia.
      wp_step. wp_step. cbv beta iota. wp_step.
      destruct (size_ (this f) =? Capacity (this f)) eqn:Efull.
      + apply N.eqb_eq in Efull. specialize (Hroom Efull).
        pose proof (grown_capacity_wf _ Hwf) as Hg. rewrite <- Hg in Hroom.
        destruct (new_RawMemory_returns _ f Hgen Hroom)
          as (nd & h1 & Enew & Hgen1 & Hfresh & Hwm).
        pose proof (fresh_capacity _ _ Hfresh) as Hcap. rewrite Hg in Hcap.
        wp_step. eapply post_eq; [exact Enew|]. cbv beta iota.
        wp_step. wp_step. wp_step. lens.
        eapply post_eq; [apply RawMemory_plus_run; lia|]. cbv beta iota.
        wp_step. wp_step. lens.
        eapply post_eq;
          [apply placement_new_run, wf_memory_in_block; [assumption|lia]|].
        cbv beta iota. lens. wp_step.
        eapply post_mono.
        { destruct relocates;
            [apply (insert_transfer_returns true pos (MkFrame h1 (this f))
                      (poke pos (Some x) nd))
            |apply (insert_transfer_returns false pos (MkFrame h1 (this f))
                      (poke pos (Some x) nd))]; lens;
            try assumption; try lia; try (rewrite capacity_poke; lia);
            intros i Hi; rewrite in_block_poke;
            (apply wf_memory_in_block; [assumption|lia]). }
        intros r [f1 nd2] (-> & Hheap & Hlive). lens.
        apply (commit_returns _ _ _
                 (fun r f' =>
                    match r with
                    | Normal _ =>
                        post (zoom _this_size (modify incr) ;;
                              b' <- zoom _this begin_ ;; ret (b' + pos)) f'
                          (fun r f' => r = Normal pos /\ generous (heap f'))
                    | Throw e => Throw e = Normal pos /\ generous (heap f')
                    | Undefined => Undefined = Normal pos /\ generous (heap f')
                    end)).
        * assumption.
        * intros h Hgh. wp_step. wp_step. lens. wp_step. wp_step. wp_step.
          lens. eapply post_eq; [apply begin_run|]. cbv beta iota. lens.
          wp. lens. rewrite N.add_0_l. split; [reflexivity|].
          apply Hgh. now rewrite Hheap.
      + apply N.eqb_neq in Efull. rewrite decr_pos by lia.
        assert (Hlt : size_ (this f) < capacity_ (data_ (this f)))
          by (unfold Capacity in *; lia).
        wp_step. wp_step. lens.
        eapply post_eq; [apply RawMemory_index_run; lia|]. cbv beta iota. lens.
        destruct (move_construct_at_returns (size_ (this f)) (size_ (this f) - 1)
                    (data_ (this f))) as (xl & yl & Emc).
        { apply (wf_live _ Hwf). lia. }
        { now apply wf_in_block. }
        wp_step. wp_step. lens. eapply post_eq; [exact Emc|]. cbv beta iota. lens.
        wp_step. wp_step. lens.
        eapply post_eq; [apply RawMemory_plus_run; rewrite !capacity_poke; lia|].
        cbv beta iota. lens.
        assert (Hlive1 : forall i, i <= size_ (this f) ->
          is_Some (peek (poke (size_ (this f)) (Some yl)
                     (poke (size_ (this f) - 1) (Some xl) (data_ (this f)))) i)).
        { intros i Hi. destruct (N.eq_dec i (size_ (this f))) as [->|Hne].
          - rewrite peek_poke_eq; [eauto|]. rewrite in_block_poke.
            now apply wf_in_block.
          - do 2 apply is_Some_peek_poke. apply (wf_live _ Hwf). lia. }
        wp_step. wp_step. lens.
        eapply post_mono.
        { apply (post_total _ _ tt).
          - unfold std_move_backward.
            assert (Elt : (size_ (this f) - 1 <? pos) = false)
              by (apply N.ltb_ge; lia).
            rewrite Elt. apply move_backward_loop_returns; [lia| |].
            + rewrite N2Nat.id. lia.
            + intros i Hi. apply Hlive1. lia.
          - unfold std_move_backward.
            assert (Elt : (size_ (this f) - 1 <? pos) = false)
              by (apply N.ltb_ge; lia).
            rewrite Elt. apply move_backward_loop_spec; [lia|].
            rewrite N2Nat.id. lia. }
        rewrite N2Nat.id. intros r m2 [-> [Hsh2 Hn2]]. lens.
        destruct Hn2 as (_ & Hres & _); [reflexivity|].
        wp_step. wp_step. lens.
        eapply post_eq;
          [apply RawMemory_index_run; destruct Hsh2 as [-> _];
           rewrite !capacity_poke; lia|].
        cbv beta iota. lens.
        destruct (move_assign_from_returns pos x m2) as (y & Ema).
        { apply Hres; [lia|]. apply Hlive1. lia. }
        wp_step. lens. eapply post_eq; [exact Ema|]. cbv beta iota. lens.
        wp_step. wp_step. lens. wp_step. wp_step. wp_step. lens.
        eapply post_eq; [apply begin_run|]. cbv beta iota. lens.
        wp. lens. rewrite N.add_0_l. auto. }
  unfold post in Hpost. destruct (Emplace pos (Some x) f) as [r f'].
  cbn in Hpost. destruct Hpost as [-> Hg]. eauto.
Qed.

(** *** [Reserve] and [Resize] *)

Lemma Reserve_returns n f :
  wf (this f) -> generous (heap f) -> n * Npos sizeof <= PTRDIFF_MAX ->
  exists f', Reserve n f = (Normal tt, f') /\ generous (heap f').
Proof.
  intros Hwf Hgen Hroom.
  assert (Hpost : post (Reserve n) f
            (fun r f' => r = Normal tt /\ generous (heap f'))).
  { unfold Reserve. wp_step. wp_step. cbv beta iota.
    destruct (n <=? size_ (this f)) eqn:En; [wp; auto|].
    apply N.leb_gt in En.
    destruct (new_RawMemory_returns _ f Hgen Hroom)
      as (nd & h1 & Enew & Hgen1 & Hfresh & Hwm).
    pose proof (fresh_capacity _ _ Hfresh) as Hcap.
    wp_step. eapply post_eq; [exact Enew|]. cbv beta iota.
    wp_step. wp_step.
    eapply post_mono.
    { apply transfer_returns'; lens.
      - intros j Hj. apply (wf_live _ Hwf). lia.
      - intros j Hj. apply wf_memory_in_block; [assumption|lia]. }
    intros r [f1 nd2] [[-> Hheap] (Hsz & Hso & Hsn & Htr)]. lens.
    destruct Htr as (Hin & _ & _); [reflexivity|].
    apply (commit_returns _ _ _
             (fun r f' => r = Normal tt /\ generous (heap f'))).
    + intros i Hi. destruct (Hin i Hi) as (a & b & _ & _ & _ & Hl).
      now rewrite N.add_0_l in Hl.
    + intros h Hgh. split; [reflexivity|]. apply Hgh. now rewrite Hheap. }
  unfold post in Hpost. destruct (Reserve n f) as [r f'].
  cbn in Hpost. destruct Hpost as [-> Hg]. eauto.
Qed.

Lemma Resize_returns n f :
  wf (this f) -> generous (heap f) -> n * Npos sizeof <= PTRDIFF_MAX ->
  exists f', Resize n f = (Normal tt, f') /\ generous (heap f').
Proof.
  intros Hwf Hgen Hroom. pose proof (wf_size _ Hwf) as Hs.
  assert (Hpost : post (Resize n) f
            (fun r f' => r = Normal tt /\ generous (heap f'))).
  { unfold Resize. wp_step. wp_step. cbv beta iota. wp_step.
    destruct (size_ (this f) <? n) eqn:En.
    - apply N.ltb_lt in En.
      destruct (Reserve_returns n f Hwf Hgen Hroom) as (f1 & Eres & Hgen1).
      pose proof (post_run _ _ _ _ _ (Reserve_spec n f Hwf) Eres) as Hres.
      cbv beta iota in Hres. destruct Hres as [Hsz Hcap _ Hraw Hwf1].
      assert (Hwf1' : wf (this f1)).
      { apply Hwf1. right. pose proof PTRDIFF_MAX_lt. lia. }
      assert (En' : (n <=? size_ (this f)) = false) by (apply N.leb_gt; lia).
      rewrite En' in Hcap. unfold Capacity in Hcap.
      wp_step. eapply post_eq; [exact Eres|]. cbv beta iota.
      wp_step. wp_step. lens.
      eapply post_eq; [apply RawMemory_plus_run; lia|]. cbv beta iota. lens.
      destruct (uninitialized_value_construct_n_returns
                  (size_ (this f)) (n - size_ (this f)) (data_ (this f1)))
        as [m2 Evc].
      { apply value_init_returns. }
      { intros i Hi. apply wf_in_block; [assumption|]. unfold Capacity. lia. }
      wp_step. lens. eapply post_eq; [exact Evc|]. cbv beta iota. lens.
      wp. lens. auto.
    - apply N.ltb_ge in En. unfold Capacity in Hs.
      wp_step. wp_step. lens.
      eapply post_eq; [apply RawMemory_plus_run; lia|]. cbv beta iota. lens.
      destruct (destroy_n_returns n (size_ (this f) - n) (data_ (this f)))
        as [m2 Ed].
      { intros i Hi. apply (wf_live _ Hwf). lia. }
      wp_step. lens. eapply post_eq; [exact Ed|]. cbv beta iota. lens.
      wp. lens. auto. }
  unfold post in Hpost. destruct (Resize n f) as [r f'].
  cbn in Hpost. destruct Hpost as [-> Hg]. eauto.
Qed.

Lemma forward_returns (value : Arg T) : is_Some (forward value).
Proof.
  destruct value as [x|x]; cbn;
    [apply copy_construct_returns|apply move_construct_returns].
Qed.

End MethodsReturn.

(** ** The sample element types *)

#[export] Instance int_regular : Regular Z.
Proof.
  split; cbn.
  - intros x y [= <-]. reflexivity.
  - intros x y r [= <- _]. reflexivity.
  - intros d s d' [= <-]. reflexivity.
  - intros d s d' s' [= <- _]. reflexivity.
Qed.

#[export] Instance fussy_regular : Regular Fussy.
Proof.
  split; cbn.
  - intros x y [= <-]. reflexivity.
  - intros x y r [= <- _]. reflexivity.
  - intros d s d' [= <-]. reflexivity.
  - intros d s d' s'. destruct (payload s =? 13)%Z; [discriminate|].
    intros [= <- _]. reflexivity.
Qed.

(** * The claims *)

Section Claims.

Context {T : Type} `{Element T}.
Implicit Types (m : RawMemory T) (v : Vector T) (f : Frame T) (p q i j : N).

(** A failed construction of the new element in the reallocating branch of
    an append leaves the vector as it was. *)
Lemma append_failure f :
  wf (this f) -> size_ (this f) = Capacity (this f) ->
  post (if size_ (this f) =? Capacity (this f) then
          new_data <- new_RawMemory (grown_capacity (size_ (this f))) ;;
          scoped delete_RawMemory new_data (
            p <- zoom _new_data (RawMemory_plus (size_ (this f))) ;;
            zoom _new_data (placement_new p None) ;;
            transfer 0 (size_ (this f)) 0 ;;
            zoom _old_data (destroy_n 0 (size_ (this f))) ;;
            zoom _old_new RawMemory_Swap)
        else
          p <- zoom _this_data (RawMemory_plus (size_ (this f))) ;;
          zoom _this_data (placement_new p None)) f
    (fun r f' =>
       (r = Throw bad_alloc \/ r = Throw element_error) /\ this f' = this f).
Proof.
  intros Hwf Hfull. pose proof (grown_capacity_wf _ Hwf) as Hg.
  rewrite Hfull at 1. rewrite N.eqb_refl.
  wp_step. eapply post_mono; [apply new_RawMemory_outcome|].
  intros [nd|e|] [h1 v1] [Hthis Hr]; cbn in Hthis; subst v1;
    [|subst e; auto|contradiction].
  wp_step. wp_step. wp_step. lens. unfold RawMemory_plus. wp.
  apply post_cassert; intros Hc.
  - wp. lens. unfold placement_new. wp. lens.
    apply delete_post. intros h. auto.
  - apply N.leb_gt in Hc. rewrite (fresh_capacity _ _ Hr) in Hc. lia.
Qed.

(** C3.  When the vector is full, an append (PushBack or EmplaceBack) whose
    construction of the new element throws ends with an exception and
    leaves the vector exactly as before the call: same storage, same size
    (so same capacity and same elements). *)
Theorem C3_failed_append_changes_nothing f :
  wf (this f) ->
  size_ (this f) = Capacity (this f) ->
  (forall value : Arg T,
     forward value = None ->
     exists e h', PushBack value f = (Throw e, MkFrame h' (this f))) /\
  (exists e h', EmplaceBack None f = (Throw e, MkFrame h' (this f))).
Proof.
  intros Hwf Hfull.
  pose proof (append_failure f Hwf Hfull) as Hpost. unfold post in Hpost.
  split.
  - intros value Hmade.
    unfold PushBack. rewrite Hmade. unfold bind at 1. cbn [gets].
    unfold bind at 1.
    match type of Hpost with
    | context [fst ?run] => destruct run as [r [h' v']] eqn:Erun
    end.
    cbn in Hpost. destruct Hpost as [[-> | ->] ->]; eauto.
  - unfold EmplaceBack. unfold bind at 1. cbn [gets]. unfold bind at 1.
    match type of Hpost with
    | context [fst ?run] => destruct run as [r [h' v']] eqn:Erun
    end.
    cbn in Hpost. destruct Hpost as [[-> | ->] ->]; eauto.
Qed.

Lemma do_append_spec op f :
  wf (this f) ->
  post (do_append op) f (fun r f' =>
    Capacity (this f) <= Capacity (this f') /\
    (r = Normal tt -> exists made, pushed made (this f) (this f'))).
Proof.
  intros Hwf. destruct op as [value|made]; cbn [do_append].
  - eapply post_mono; [apply (PushBack_spec _ _ Hwf)|].
    intros r f' [Hle Hn]. split; [assumption|]. eauto.
  - wp_step. eapply post_mono; [apply (EmplaceBack_spec _ _ Hwf)|].
    intros [p|e|] f' [Hle Hn]; [|split; [assumption|discriminate]..].
    wp. split; [assumption|]. intros _. exists made. now apply (Hn p).
Qed.

Lemma wf_default : wf (T := T) Vector_default.
Proof.
  split; cbn.
  - split; cbn; [reflexivity|]. unfold PTRDIFF_MAX. lia.
  - reflexivity.
  - intros i. unfold peek. cbn. split; [intros [? ?]; discriminate|lia].
Qed.

Lemma doubling_full n : n = doubling n -> doubling (n + 1) = N.max 1 (2 * n).
Proof.
  unfold doubling. destruct (n =? 0) eqn:E0.
  - apply N.eqb_eq in E0. subst n. reflexivity.
  - apply N.eqb_neq in E0. intros Hn.
    assert (E1 : (n + 1 =? 0) = false) by (apply N.eqb_neq; lia).
    rewrite E1. rewrite Hn at 1. rewrite N.add_1_r.
    rewrite N.log2_up_succ_pow2 by lia. rewrite N.pow_succ_r by lia. lia.
Qed.

Lemma doubling_spare n :
  n <= doubling n -> n <> doubling n -> doubling (n + 1) = doubling n.
Proof.
  unfold doubling. destruct (n =? 0) eqn:E0; [lia|].
  apply N.eqb_neq in E0. intros Hle Hne.
  assert (E1 : (n + 1 =? 0) = false) by (apply N.eqb_neq; lia).
  rewrite E1. f_equal.
  assert (H1 : 1 < n).
  { destruct (N.eq_dec n 1) as [->|]; [|lia]. exfalso. apply Hne. reflexivity. }
  pose proof (N.log2_up_spec n H1) as [Hlo Hhi].
  pose proof (N.log2_up_pos n H1) as Hpos.
  apply N.log2_up_unique; [assumption|]. lia.
Qed.

Lemma pushed_doubling made v v' :
  wf v -> pushed made v v' ->
  Capacity v = doubling (size_ v) -> Capacity v' = doubling (size_ v + 1).
Proof.
  intros Hwf Hp Hcap. rewrite (pushed_capacity _ _ _ Hp).
  destruct (size_ v =? Capacity v) eqn:E.
  - apply N.eqb_eq in E. symmetry. apply doubling_full. congruence.
  - apply N.eqb_neq in E. rewrite Hcap. symmetry.
    pose proof (wf_size _ Hwf). apply doubling_spare; congruence || lia.
Qed.

Lemma appends_spec ops : forall f f',
  wf (this f) -> appends ops f = (Normal tt, f') ->
  wf (this f') /\
  size_ (this f') = size_ (this f) + N.of_nat (length ops) /\
  (Capacity (this f) = doubling (size_ (this f)) ->
   Capacity (this f') = doubling (size_ (this f'))).
Proof.
  induction ops as [|op ops IH]; intros f f' Hwf Hrun; cbn [appends] in Hrun.
  - injection Hrun as <-. split; [assumption|]. split; [cbn; lia|auto].
  - pose proof (do_append_spec op f Hwf) as Hstep. unfold post in Hstep.
    unfold bind in Hrun.
    destruct (do_append op f) as [[[]|e|] f1]; try discriminate.
    cbn in Hstep. destruct Hstep as [_ Hn].
    destruct Hn as [made Hp]; [reflexivity|].
    destruct (IH f1 f' (pushed_wf _ _ _ Hp) Hrun) as (Hwf' & Hsz & Hcap).
    rewrite (pushed_size _ _ _ Hp) in Hsz.
    split; [assumption|]. split; [cbn [length]; lia|].
    intros Hc. apply Hcap.
    rewrite (pushed_size _ _ _ Hp). now apply (pushed_doubling made).
Qed.

(** C4.  A vector grown from the default-constructed one (capacity 0) by
    single-element appends holds as many elements as there were appends and
    its capacity is the doubling sequence 0, 1, 2, 4, 8, ...; one more append
    never shrinks the capacity, whatever its outcome, and when it returns
    the capacity is [max(1, 2 * size)] if it found the vector full and is
    unchanged otherwise. *)
Theorem C4_append_doubles_capacity
    (ops : list append_op) (op : append_op) (h : Heap) f r f' :
  appends ops (MkFrame h Vector_default) = (Normal tt, f) ->
  do_append op f = (r, f') ->
  size_ (this f) = N.of_nat (length ops) /\
  Capacity (this f) = doubling (N.of_nat (length ops)) /\
  Capacity (this f) <= Capacity (this f') /\
  (r = Normal tt ->
   Capacity (this f') =
     (if size_ (this f) =? Capacity (this f)
      then N.max 1 (2 * size_ (this f)) else Capacity (this f)) /\
   Capacity (this f') = doubling (N.of_nat (length ops) + 1)).
Proof.
  intros Hrun Hstep.
  destruct (appends_spec ops (MkFrame h Vector_default) f wf_default Hrun)
    as (Hwf & Hsz & Hcap).
  cbn [this size_ Vector_default] in Hsz. rewrite N.add_0_l in Hsz.
  specialize (Hcap eq_refl). rewrite Hsz in Hcap.
  pose proof (do_append_spec op f Hwf) as Hpost.
  apply (post_run _ _ _ _ _ Hpost) in Hstep as [Hle Hn].
  repeat (split; [assumption|]).
  intros ->. destruct Hn as [made Hp]; [reflexivity|].
  split; [apply (pushed_capacity _ _ _ Hp)|].
  rewrite <- Hsz. apply (pushed_doubling made); [assumption..|].
  now rewrite Hsz.
Qed.

End Claims.

Section ClaimsAccess.

Context {T : Type} `{Element T}.
Implicit Types (m : RawMemory T) (v : Vector T) (f : Frame T) (p q i j : N).

(** C6.  For a vector of size n, [At(i)] throws [out_of_range] exactly when
    [i >= n]; otherwise it returns a reference to slot [i], which holds the
    element of index [i]; in both cases the vector is unchanged. *)
Theorem C6_At_checks_bounds v index :
  wf v ->
  At index v =
    (if size_ v <=? index
     then Throw (out_of_range "Invalid vector index")
     else Normal index, v) /\
  (index < size_ v ->
   is_Some (peek (data_ v) index) /\
   elements v !! N.to_nat index = peek (data_ v) index).
Proof.
  intros Hwf. split.
  - unfold At, bind, gets, zoom, RawMemory_index, bind, get, cassert. lens.
    destruct (size_ v <=? index) eqn:E; [reflexivity|].
    apply N.leb_gt in E. pose proof (wf_size _ Hwf) as Hs. unfold Capacity in Hs.
    assert (Hc : (index <? capacity_ (data_ v)) = true) by (apply N.ltb_lt; lia).
    rewrite Hc. cbn. now rewrite Vector_eta.
  - intros Hi. split; [now apply (wf_live _ Hwf)|now apply elements_lookup].
Qed.

Lemma PopBack_run v :
  wf v -> 0 < size_ v ->
  PopBack v =
    (Normal tt, MkVector (poke (size_ v - 1) None (data_ v)) (size_ v - 1)).
Proof.
  intros Hwf Hpos. pose proof (wf_size_mod _ Hwf) as Hmod.
  pose proof (wf_size _ Hwf) as Hs. unfold Capacity in Hs.
  destruct (proj2 (wf_live _ Hwf (size_ v - 1))) as [x Hx]; [lia|].
  unfold PopBack, bind, gets, zoom, modify, RawMemory_plus, destroy_at, bind,
    get, cassert, put. lens.
  assert (E0 : (size_ v =? 0) = false) by (apply N.eqb_neq; lia).
  rewrite E0. cbn [negb]. rewrite decr_pos by lia.
  assert (Hc : (size_ v - 1 <=? capacity_ (data_ v)) = true)
    by (apply N.leb_le; lia).
  rewrite Hc. cbn. rewrite Hx. reflexivity.
Qed.

(** C9.  [PopBack] on an empty vector does nothing; on a non-empty vector it
    destroys the last live element and nothing else: the size decreases by
    one, the capacity and the first [size - 1] elements are unchanged. *)
Theorem C9_PopBack_removes_last v :
  wf v ->
  (size_ v = 0 -> PopBack v = (Normal tt, v)) /\
  (0 < size_ v ->
   exists v',
     PopBack v = (Normal tt, v') /\
     wf v' /\
     size_ v' = size_ v - 1 /\
     Capacity v' = Capacity v /\
     peek (data_ v') (size_ v - 1) = None /\
     elements v' = take (N.to_nat (size_ v - 1)) (elements v)).
Proof.
  intros Hwf. split.
  - intros Hz. unfold PopBack, bind, gets. rewrite Hz. cbn. reflexivity.
  - intros Hpos. eexists. split; [now apply PopBack_run|].
    destruct Hwf as [Hwm Hws Hwl]. unfold Capacity in *. lens.
    assert (Hb : in_block (data_ v) (size_ v - 1) = true).
    { apply peek_in_block, Hwl. lia. }
    assert (Hwf' : wf (MkVector (poke (size_ v - 1) None (data_ v)) (size_ v - 1))).
    { split; lens; unfold Capacity; lens; rewrite ?capacity_poke.
      - eapply wf_memory_shape; [apply same_shape_poke|assumption].
      - lia.
      - intros i. destruct (N.eq_dec i (size_ v - 1)) as [->|Hne].
        + rewrite peek_poke_eq by assumption. split; [|lia].
          intros [? ?]; discriminate.
        + rewrite peek_poke_ne by congruence. rewrite (Hwl i). lia. }
    split; [assumption|]. split; [reflexivity|]. split; [reflexivity|].
    split; [now apply peek_poke_eq|].
    assert (Hwf0 : wf v) by (split; assumption).
    apply list_eq. intros k.
    destruct (decide (k < N.to_nat (size_ v - 1))%nat) as [Hk|Hk].
    + rewrite lookup_take_lt by assumption. rewrite <- (Nat2N.id k).
      rewrite !elements_lookup by (assumption || (lens; lia)). lens.
      apply peek_poke_ne. lia.
    + rewrite !(proj2 (lookup_ge_None _ _)); [reflexivity|..].
      * rewrite length_take, elements_length by assumption. lia.
      * rewrite elements_length by assumption. lens. lia.
Qed.

Implicit Types (w : World T).

Lemma exists_at_run w a x :
  objects w !! a = Some x -> exists_at a w = (Normal tt, w).
Proof. intros E. unfold exists_at, bind, get. cbn. now rewrite E. Qed.

(** C10.  Assigning a vector to itself, by copy or by move, returns
    normally and changes nothing: neither the vector, nor any other object,
    nor the free store. *)
Theorem C10_self_assignment_is_noop w a :
  is_Some (objects w !! a) ->
  copy_assignment a a w = (Normal tt, w) /\
  move_assignment a a w = (Normal tt, w).
Proof.
  intros [x Hx]. unfold copy_assignment, move_assignment.
  unfold bind. rewrite !(exists_at_run w a x Hx).
  rewrite Nat.eqb_refl. split; reflexivity.
Qed.

End ClaimsAccess.

Section ClaimsMove.

Context {T : Type} `{Element T}.
Implicit Types (v x y : Vector T) (w : World T) (a b self rhs : nat).

Lemma Vector_Swap_run x y : Vector_Swap (x, y) = (Normal tt, (y, x)).
Proof. destruct x as [[bx cx] sx], y as [[by' cy] sy]. reflexivity. Qed.

Lemma Swap_run w a b x y :
  objects w !! a = Some x -> objects w !! b = Some y ->
  Swap a b w =
    (Normal tt, MkWorld (free_store w) (<[b := x]> (<[a := y]> (objects w)))).
Proof.
  intros Ha Hb. unfold Swap, bind.
  rewrite (exists_at_run w a x Ha), (exists_at_run w b y Hb).
  unfold zoom, _objects, object. cbn [view update].
  rewrite Ha, Hb. cbn [default]. rewrite Vector_Swap_run. reflexivity.
Qed.

Lemma object_insert_eq (l : list (Vector T)) h a x :
  (a < length l)%nat -> object (MkWorld h (<[a := x]> l)) a = x.
Proof.
  intros Ha. unfold object. cbn. now rewrite list_lookup_insert_eq.
Qed.

Lemma object_insert_ne (l : list (Vector T)) h a b x :
  a <> b -> object (MkWorld h (<[a := x]> l)) b = object (MkWorld h l) b.
Proof.
  intros Hne. unfold object. cbn. now rewrite list_lookup_insert_ne.
Qed.

Lemma object_lookup w a x : objects w !! a = Some x -> object w a = x.
Proof. intros E. unfold object. now rewrite E. Qed.

(** C2, as the code has it.  A move never allocates and never fails, and it
    is an exchange.  Move construction from [rhs] leaves [rhs] as a
    default-constructed vector: size 0, capacity 0.  Move assignment
    [self = move(rhs)] between two distinct objects gives [rhs] the former
    storage and size of [self], so [rhs] is empty afterwards only if [self]
    was empty before.  In both cases the source satisfies the invariant of
    the class whenever the operands did. *)
Theorem C2_move_is_swap w rhs :
  is_Some (objects w !! rhs) ->
  (forall self,
     self <> rhs ->
     is_Some (objects w !! self) ->
     exists w',
       move_assignment self rhs w = (Normal tt, w') /\
       free_store w' = free_store w /\
       object w' self = object w rhs /\
       object w' rhs = object w self /\
       size_ (object w' rhs) = size_ (object w self) /\
       (wf (object w self) -> wf (object w' rhs))) /\
  (exists w',
     move_construction rhs w = (Normal (length (objects w)), w') /\
     free_store w' = free_store w /\
     object w' (length (objects w)) = object w rhs /\
     object w' rhs = Vector_default /\
     size_ (object w' rhs) = 0%N /\
     Capacity (object w' rhs) = 0%N /\
     wf (object w' rhs)).
Proof.
  intros [y Hy].
  pose proof (lookup_lt_Some _ _ _ Hy) as Hly.
  rewrite (object_lookup w rhs y Hy).
  split.
  - intros self Hne [x Hx].
    pose proof (lookup_lt_Some _ _ _ Hx) as Hlx.
    rewrite (object_lookup w self x Hx).
    eexists. split.
    { unfold move_assignment, bind.
      rewrite (exists_at_run w self x Hx), (exists_at_run w rhs y Hy).
      apply Nat.eqb_neq in Hne. rewrite Hne. cbn [negb].
      apply (Swap_run w self rhs x y Hx Hy). }
    assert (Hr : object (MkWorld (free_store w)
                   (<[rhs := x]> (<[self := y]> (objects w)))) rhs = x).
    { apply object_insert_eq. now rewrite length_insert. }
    split; [reflexivity|]. split; [|split; [exact Hr|]].
    + rewrite object_insert_ne by congruence. now apply object_insert_eq.
    + rewrite Hr. auto.
  - assert (Hn : (objects w ++ [Vector_default]) !! length (objects w)
                 = Some (@Vector_default T)).
    { rewrite lookup_app_r by lia. now rewrite Nat.sub_diag. }
    assert (Hy' : (objects w ++ [Vector_default]) !! rhs = Some y).
    { now rewrite lookup_app_l. }
    assert (Hrn : rhs <> length (objects w)) by lia.
    eexists. split.
    { unfold move_construction, bind.
      rewrite (exists_at_run w rhs y Hy).
      unfold declare, bind, get, put, ret. cbn [fst snd].
      rewrite (Swap_run (MkWorld (free_store w) (objects w ++ [Vector_default]))
                 (length (objects w)) rhs Vector_default y Hn Hy').
      reflexivity. }
    cbn [free_store objects].
    assert (Hr : object (MkWorld (free_store w)
              (<[rhs := Vector_default]>
                 (<[length (objects w) := y]> (objects w ++ [Vector_default]))))
              rhs = Vector_default).
    { apply object_insert_eq. rewrite length_insert, length_app. lia. }
    split; [reflexivity|]. split; [|split; [exact Hr|]].
    + rewrite object_insert_ne by congruence. apply object_insert_eq.
      rewrite length_app. cbn. lia.
    + rewrite Hr. split; [reflexivity|]. split; [reflexivity|apply wf_default].
Qed.

End ClaimsMove.

(** C2, as the specification states it, fails: after [b = move(a)] with a
    non-empty [b], the source [a] holds what [b] held and is not empty. *)
Lemma C2_move_assignment_source_not_empty :
  ~ (forall (w w' : World Z) (self rhs : nat),
       self <> rhs ->
       move_assignment self rhs w = (Normal tt, w') ->
       size_ (object w' rhs) = 0%N).
Proof.
  intros Hclaim.
  specialize (Hclaim two_vectors (final (move_assignment 1 0) two_vectors) 1%nat 0%nat).
  assert (Hne : 1%nat <> 0%nat) by discriminate.
  specialize (Hclaim Hne eq_refl). vm_compute in Hclaim. discriminate.
Qed.

Section ClaimsSequences.

Context {T : Type} `{Element T} `{!Regular T}.
Implicit Types (v : Vector T) (f : Frame T) (p q i j : N).

(** A slot that received a transported value holds the value itself. *)
Lemma transported_peek (o o' : option T) :
  (exists a b, o = Some a /\ transported a b /\ o' = Some b) -> o' = o.
Proof.
  intros (a & b & -> & Htr & ->). f_equal. now apply transported_eq.
Qed.

Lemma inserted_erased pos made v v1 v2 :
  wf v -> pos <= size_ v ->
  inserted made pos v v1 -> erased pos v1 v2 ->
  elements v2 = elements v.
Proof.
  intros Hwf Hpos Hins Hera.
  pose proof (inserted_size _ _ _ _ Hins) as Hs1.
  pose proof (erased_size _ _ _ Hera) as Hs2.
  apply elements_ext; [assumption|apply (erased_wf _ _ _ Hera)|lia|].
  intros i Hi. destruct (N.lt_ge_cases i pos) as [Hlt|Hge].
  - rewrite (erased_before _ _ _ Hera) by assumption.
    apply transported_peek. apply (inserted_before _ _ _ _ Hins). assumption.
  - transitivity (peek (data_ v1) (i + 1)).
    + apply transported_peek. apply (erased_after _ _ _ Hera). lia.
    + apply transported_peek. apply (inserted_after _ _ _ _ Hins). lia.
Qed.

(** C7.  Inserting a value at a position of the vector and then erasing at
    the position returned gives back the original element sequence; both
    calls return the position they were given. *)
Theorem C7_insert_then_erase f pos (value : Arg T) p f1 q v2 :
  wf (this f) ->
  Insert pos value f = (Normal p, f1) ->
  Erase p (this f1) = (Normal q, v2) ->
  elements v2 = elements (this f) /\
  size_ v2 = size_ (this f) /\
  p = pos /\ q = pos /\ pos <= size_ (this f).
Proof.
  intros Hwf Hins Hera. unfold Insert in Hins.
  pose proof (Emplace_spec pos (forward value) f Hwf) as Hpost.
  pose proof (post_run _ _ _ _ _ Hpost Hins) as Hq. cbv beta in Hq.
  destruct (Hq p eq_refl) as (-> & Hpos & Hi).
  pose proof (Erase_spec pos (this f1) (inserted_wf _ _ _ _ Hi)) as Hpost'.
  pose proof (post_run _ _ _ _ _ Hpost' Hera) as Hq'. cbv beta in Hq'.
  destruct (Hq' q eq_refl) as (-> & _ & He).
  split; [eapply inserted_erased; eauto|].
  pose proof (inserted_size _ _ _ _ Hi). pose proof (erased_size _ _ _ He).
  repeat split; try assumption; lia.
Qed.

(** C8.  [Resize(k)] followed by [Resize] to the original size restores the
    size; the elements below [min(k, size)] are unchanged; the elements a
    growing [Resize] creates, in the first call when [k] exceeds the size and
    in the second one when it is smaller, are value-initialized. *)
Theorem C8_resize_round_trip f k f1 f2 :
  wf (this f) ->
  Resize k f = (Normal tt, f1) ->
  Resize (size_ (this f)) f1 = (Normal tt, f2) ->
  size_ (this f1) = k /\
  size_ (this f2) = size_ (this f) /\
  (forall i, i < N.min k (size_ (this f)) ->
     elements (this f2) !! N.to_nat i = elements (this f) !! N.to_nat i) /\
  (forall i, size_ (this f) <= i < k ->
     is_Some value_init /\ elements (this f1) !! N.to_nat i = value_init) /\
  (forall i, k <= i < size_ (this f) ->
     is_Some value_init /\ elements (this f2) !! N.to_nat i = value_init).
Proof.
  intros Hwf Hr1 Hr2.
  pose proof (Resize_spec k f Hwf) as Hpost.
  pose proof (post_run _ _ _ _ _ Hpost Hr1 eq_refl) as Hq1.
  destruct Hq1 as [Hwf1 Hsz1 _ Hold1 Hnew1].
  pose proof (Resize_spec (size_ (this f)) f1 Hwf1) as Hpost'.
  pose proof (post_run _ _ _ _ _ Hpost' Hr2 eq_refl) as Hq2.
  destruct Hq2 as [Hwf2 Hsz2 _ Hold2 Hnew2].
  split; [assumption|]. split; [assumption|]. split; [|split].
  - intros i Hi. rewrite !elements_lookup by (assumption || lia).
    transitivity (peek (data_ (this f1)) i).
    + apply transported_peek, Hold2. lia.
    + apply transported_peek, Hold1. lia.
  - intros i Hi. rewrite elements_lookup by (assumption || lia).
    now apply Hnew1.
  - intros i Hi. rewrite elements_lookup by (assumption || lia).
    apply Hnew2. lia.
Qed.

(** For an element type whose operations do not throw and a free store
    that has room, an insertion at a valid position and the erasure that
    follows it do return, and give back the original sequence. *)
Lemma insert_then_erase_returns `{!Reliable T} f pos (value : Arg T) :
  wf (this f) -> generous (heap f) -> pos <= size_ (this f) ->
  (size_ (this f) = Capacity (this f) ->
   N.max 1 (2 * size_ (this f)) * Npos sizeof <= PTRDIFF_MAX) ->
  exists f1 v2,
    Insert pos value f = (Normal pos, f1) /\
    Erase pos (this f1) = (Normal pos, v2) /\
    elements v2 = elements (this f).
Proof.
  intros Hwf Hgen Hpos Hroom.
  destruct (forward_returns value) as [x Hx].
  destruct (Emplace_returns pos x f Hwf Hgen Hpos Hroom) as (f1 & Eins & _).
  rewrite <- Hx in Eins. fold (Insert pos value) in Eins.
  pose proof (post_run _ _ _ _ _ (Emplace_spec pos (forward value) f Hwf) Eins)
    as Hq. cbv beta in Hq. destruct (Hq pos eq_refl) as (_ & _ & Hi).
  destruct (Erase_returns pos (this f1) (inserted_wf _ _ _ _ Hi)) as [v2 Eera].
  { rewrite (inserted_size _ _ _ _ Hi). lia. }
  pose proof (post_run _ _ _ _ _
                (Erase_spec pos (this f1) (inserted_wf _ _ _ _ Hi)) Eera)
    as Hq'. cbv beta in Hq'. destruct (Hq' pos eq_refl) as (_ & _ & He).
  exists f1, v2. split; [assumption|]. split; [assumption|].
  eapply inserted_erased; eauto.
Qed.

(** Likewise two calls of [Resize], to [k] and back, do return. *)
Lemma resize_round_trip_returns `{!Reliable T} f k :
  wf (this f) -> generous (heap f) -> k * Npos sizeof <= PTRDIFF_MAX ->
  exists f1 f2,
    Resize k f = (Normal tt, f1) /\
    Resize (size_ (this f)) f1 = (Normal tt, f2).
Proof.
  intros Hwf Hgen Hroom.
  destruct (Resize_returns k f Hwf Hgen Hroom) as (f1 & E1 & Hgen1).
  pose proof (post_run _ _ _ _ _ (Resize_spec k f Hwf) E1 eq_refl) as Hr.
  destruct (Resize_returns (size_ (this f)) f1 (resized_wf _ _ _ Hr) Hgen1)
    as (f2 & E2 & _).
  { destruct Hwf as [[_ Hb] Hs _]. unfold Capacity in Hs. nia. }
  eauto.
Qed.

(** What [Reserve(n)] does guarantee when it returns: the capacity is at
    least [n], the size and the elements are unchanged. *)
Lemma Reserve_guarantee n f f' :
  wf (this f) -> Reserve n f = (Normal tt, f') ->
  n <= Capacity (this f') /\
  size_ (this f') = size_ (this f) /\
  forall i, i < size_ (this f) ->
    peek (data_ (this f')) i = peek (data_ (this f)) i.
Proof.
  intros Hwf Hrun. pose proof (Reserve_spec n f Hwf) as Hpost.
  pose proof (post_run _ _ _ _ _ Hpost Hrun) as Hq. cbv beta iota in Hq.
  destruct Hq as [Hsz Hcap Hold _ _]. split; [|split; [assumption|]].
  - rewrite Hcap. destruct (n <=? size_ (this f)) eqn:E; [|lia].
    apply N.leb_le in E. pose proof (wf_size _ Hwf). lia.
  - intros i Hi. apply transported_peek. now apply Hold.
Qed.

End ClaimsSequences.

(** The guard of [Reserve] compares the request with the size, not with the
    capacity: a request between the two reallocates and shrinks. *)
Lemma Reserve_can_shrink {T : Type} `{Element T} n (f f' : Frame T) :
  wf (this f) -> size_ (this f) < n < Capacity (this f) ->
  Reserve n f = (Normal tt, f') ->
  Capacity (this f') = n /\ Capacity (this f') < Capacity (this f).
Proof.
  intros Hwf Hn Hrun. pose proof (Reserve_spec n f Hwf) as Hpost.
  pose proof (post_run _ _ _ _ _ Hpost Hrun) as Hq. cbv beta iota in Hq.
  destruct Hq as [_ Hcap _ _ _].
  assert (E : (n <=? size_ (this f)) = false) by (apply N.leb_gt; lia).
  rewrite E in Hcap. lia.
Qed.

(** C1, on the code.  A vector of one [int] with capacity 4 is given
    [Reserve(2)]: the capacity is already sufficient, yet the call
    reallocates and leaves capacity 2.  [Reserve] is not a no-op there and
    it decreases the capacity. *)
Theorem C1_Reserve_shrinks_capacity :
  wf (this one_of_four) /\
  size_ (this one_of_four) = 1 /\
  Capacity (this one_of_four) = 4 /\
  exists f',
    Reserve 2 one_of_four = (Normal tt, f') /\
    Capacity (this f') = 2 /\
    news (heap f') = news (heap one_of_four) + 1 /\
    elements (this f') = elements (this one_of_four).
Proof.
  split; [apply wf_check_sound; reflexivity|].
  split; [reflexivity|]. split; [reflexivity|].
  eexists. split; [vm_compute; reflexivity|].
  split; [reflexivity|]. split; reflexivity.
Qed.

(** C5, on the code.  A vector of three [Fussy] elements with capacity 4 is
    given an insertion at the front.  The shift of the elements throws in
    the move assignment from the first one.  The exception leaves [size_]
    at 3 while slot 3 holds the live object that was move-constructed
    there: the live slots are no longer exactly those below [size_]. *)
Theorem C5_throwing_insert_breaks_invariant :
  wf (this fussy_three) /\
  exists f',
    Insert 0 (rvalue (MkFussy 0)) fussy_three = (Throw element_error, f') /\
    size_ (this f') = 3 /\
    Capacity (this f') = 4 /\
    peek (data_ (this f')) 3 = Some (MkFussy 3) /\
    ~ live_below (size_ (this f')) (data_ (this f')) /\
    ~ wf (this f').
Proof.
  split; [apply wf_check_sound; reflexivity|].
  eexists. split; [vm_compute; reflexivity|].
  split; [reflexivity|]. split; [reflexivity|]. split; [reflexivity|].
  assert (Hno : ~ live_below 3
    (MkRawMemory (Some [Some (MkFussy 13); Some (MkFussy 0);
                        Some (MkFussy 2); Some (MkFussy 3)]) 4)).
  { intros Hl. destruct (Hl 3) as [Hlt _].
    assert (Habs : 3 < 3) by (apply Hlt; cbn; eauto). lia. }
  split; [exact Hno|]. intros [_ _ Hl]. exact (Hno Hl).
Qed.

(** * The theorems at concrete inputs *)

Lemma C2_move_is_swap_witness :
  is_Some (objects two_vectors !! 0%nat) /\
  1%nat <> 0%nat /\
  is_Some (objects two_vectors !! 1%nat) /\
  (exists w',
     move_assignment 1 0 two_vectors = (Normal tt, w') /\
     free_store w' = free_store two_vectors /\
     object w' 1 = object two_vectors 0 /\
     object w' 0 = object two_vectors 1 /\
     size_ (object w' 0) = size_ (object two_vectors 1) /\
     (wf (object two_vectors 1) -> wf (object w' 0))) /\
  (exists w',
     move_construction 0 two_vectors
       = (Normal (length (objects two_vectors)), w') /\
     free_store w' = free_store two_vectors /\
     object w' (length (objects two_vectors)) = object two_vectors 0 /\
     object w' 0 = Vector_default /\
     size_ (object w' 0) = 0 /\
     Capacity (object w' 0) = 0 /\
     wf (object w' 0)).
Proof.
  split; [eexists; reflexivity|].
  split; [discriminate|].
  split; [eexists; reflexivity|].
  split.
  - apply (proj1 (C2_move_is_swap two_vectors 0
                    ltac:(eexists; reflexivity)) 1%nat);
      [discriminate|eexists; reflexivity].
  - apply (proj2 (C2_move_is_swap two_vectors 0
                    ltac:(eexists; reflexivity))).
Defined.

Lemma C3_failed_append_changes_nothing_witness :
  wf (this brittle_full) /\
  size_ (this brittle_full) = Capacity (this brittle_full) /\
  forward (lvalue (MkBrittle 13)) = None /\
  (exists e h',
     PushBack (lvalue (MkBrittle 13)) brittle_full
       = (Throw e, MkFrame h' (this brittle_full))) /\
  (exists e h',
     EmplaceBack None brittle_full = (Throw e, MkFrame h' (this brittle_full))).
Proof.
  split; [apply wf_check_sound; reflexivity|].
  split; [reflexivity|].
  split; [reflexivity|].
  split.
  - apply (proj1 (C3_failed_append_changes_nothing brittle_full
                    ltac:(apply wf_check_sound; reflexivity) eq_refl)
             (lvalue (MkBrittle 13))).
    reflexivity.
  - apply (proj2 (C3_failed_append_changes_nothing brittle_full
                    ltac:(apply wf_check_sound; reflexivity) eq_refl)).
Defined.

Lemma C4_append_doubles_capacity_witness :
  let f := final (appends five_appends) (MkFrame empty_heap Vector_default) in
  let f' := final (do_append (push_back (lvalue 6%Z))) f in
  appends five_appends (MkFrame empty_heap Vector_default) = (Normal tt, f) /\
  do_append (push_back (lvalue 6%Z)) f = (Normal tt, f') /\
  (size_ (this f) = N.of_nat (length five_appends) /\
   Capacity (this f) = doubling (N.of_nat (length five_appends)) /\
   Capacity (this f) <= Capacity (this f') /\
   (Normal tt = Normal tt ->
    Capacity (this f') =
      (if size_ (this f) =? Capacity (this f)
       then N.max 1 (2 * size_ (this f)) else Capacity (this f)) /\
    Capacity (this f') = doubling (N.of_nat (length five_appends) + 1))).
Proof.
  intros f f'.
  split; [vm_compute; reflexivity|]. split; [vm_compute; reflexivity|].
  apply (C4_append_doubles_capacity five_appends (push_back (lvalue 6%Z))
           empty_heap f (Normal tt) f');
    vm_compute; reflexivity.
Defined.

Lemma C6_At_checks_bounds_witness :
  wf (this one_two_three) /\
  (At 3 (this one_two_three) =
     (if size_ (this one_two_three) <=? 3
      then Throw (out_of_range "Invalid vector index")
      else Normal 3, this one_two_three) /\
   (3 < size_ (this one_two_three) ->
    is_Some (peek (data_ (this one_two_three)) 3) /\
    elements (this one_two_three) !! N.to_nat 3
      = peek (data_ (this one_two_three)) 3)).
Proof.
  split; [apply wf_check_sound; reflexivity|].
  apply (C6_At_checks_bounds (this one_two_three) 3).
  apply wf_check_sound; reflexivity.
Defined.

Lemma C7_insert_then_erase_witness :
  let f1 := final (Insert 1 (lvalue 9%Z)) one_two_three in
  let v2 := final (Erase 1) (this f1) in
  wf (this one_two_three) /\
  Insert 1 (lvalue 9%Z) one_two_three = (Normal 1, f1) /\
  Erase 1 (this f1) = (Normal 1, v2) /\
  (elements v2 = elements (this one_two_three) /\
   size_ v2 = size_ (this one_two_three) /\
   1 = 1 /\ 1 = 1 /\ 1 <= size_ (this one_two_three)).
Proof.
  intros f1 v2.
  split; [apply wf_check_sound; reflexivity|].
  split; [vm_compute; reflexivity|]. split; [vm_compute; reflexivity|].
  apply (C7_insert_then_erase one_two_three 1 (lvalue 9%Z) 1 f1 1 v2);
    [apply wf_check_sound; reflexivity|vm_compute; reflexivity..].
Defined.

Lemma C8_resize_round_trip_witness :
  let f1 := final (Resize 5) one_two_three in
  let f2 := final (Resize (size_ (this one_two_three))) f1 in
  wf (this one_two_three) /\
  Resize 5 one_two_three = (Normal tt, f1) /\
  Resize (size_ (this one_two_three)) f1 = (Normal tt, f2) /\
  (size_ (this f1) = 5 /\
   size_ (this f2) = size_ (this one_two_three) /\
   (forall i, i < N.min 5 (size_ (this one_two_three)) ->
      elements (this f2) !! N.to_nat i
        = elements (this one_two_three) !! N.to_nat i) /\
   (forall i, size_ (this one_two_three) <= i < 5 ->
      is_Some (value_init (T := Z)) /\
      elements (this f1) !! N.to_nat i = value_init) /\
   (forall i, 5 <= i < size_ (this one_two_three) ->
      is_Some (value_init (T := Z)) /\
      elements (this f2) !! N.to_nat i = value_init)).
Proof.
  intros f1 f2.
  split; [apply wf_check_sound; reflexivity|].
  split; [vm_compute; reflexivity|]. split; [vm_compute; reflexivity|].
  apply (C8_resize_round_trip one_two_three 5 f1 f2);
    [apply wf_check_sound; reflexivity|vm_compute; reflexivity..].
Defined.

Lemma C9_PopBack_removes_last_witness :
  wf (this one_two_three) /\
  ((size_ (this one_two_three) = 0 ->
    PopBack (this one_two_three) = (Normal tt, this one_two_three)) /\
   (0 < size_ (this one_two_three) ->
    exists v',
      PopBack (this one_two_three) = (Normal tt, v') /\
      wf v' /\
      size_ v' = size_ (this one_two_three) - 1 /\
      Capacity v' = Capacity (this one_two_three) /\
      peek (data_ v') (size_ (this one_two_three) - 1) = None /\
      elements v'
        = take (N.to_nat (size_ (this one_two_three) - 1))
               (elements (this one_two_three)))).
Proof.
  split; [apply wf_check_sound; reflexivity|].
  apply (C9_PopBack_removes_last (this one_two_three)).
  apply wf_check_sound; reflexivity.
Defined.

Lemma C10_self_assignment_is_noop_witness :
  is_Some (objects two_vectors !! 0%nat) /\
  (copy_assignment 0 0 two_vectors = (Normal tt, two_vectors) /\
   move_assignment 0 0 two_vectors = (Normal tt, two_vectors)).
Proof.
  split; [eexists; reflexivity|].
  apply (C10_self_assignment_is_noop two_vectors 0). eexists; reflexivity.
Defined.

(** * Supplements *)

#[export] Instance int_reliable : Reliable Z.
Proof. split; cbn; eauto. Qed.

(** The first capacities of a vector filled by appends. *)
Example doubling_sequence :
  map doubling [0; 1; 2; 3; 4; 5; 6; 7; 8; 9] = [0; 1; 2; 4; 4; 8; 8; 8; 8; 16].
Proof. reflexivity. Qed.

Section InvariantOnReturn.

Context {T : Type} `{Element T}.
Implicit Types (v : Vector T) (f : Frame T).

Lemma Clear_spec v :
  wf v ->
  post Clear v (fun r v' =>
    r = Normal tt -> wf v' /\ size_ v' = 0 /\ Capacity v' = Capacity v).
Proof.
  intros Hwf. unfold Clear, GetAddress. wp_step. wp_step. cbv beta iota.
  wp_step. wp_step. wp_step. lens. wp_step. wp_step. lens.
  eapply post_mono; [apply destroy_n_spec|].
  intros [[]|e|] m' (Hs & _ & Hn); lens; [|discriminate..].
  wp. lens. intros _. destruct Hn as [Hin Hout]; [reflexivity|].
  destruct Hwf as [Hwm Hws Hwl]. unfold Capacity in *.
  split; [|split; [reflexivity|unfold Capacity; lens; apply Hs]].
  rewrite N.add_0_l in *. split; lens; unfold Capacity; lens.
  - eapply wf_memory_shape; eauto.
  - lia.
  - intros i. split; [|lia]. intros Hi.
    destruct (N.lt_ge_cases i (size_ v)) as [Hlt|Hge].
    + destruct (Hin i) as [_ E]; [lia|]. rewrite E in Hi. now destruct Hi.
    + rewrite Hout in Hi by lia. apply Hwl in Hi. lia.
Qed.

(** X30.  Every call of a mutator that returns keeps the invariant of the
    class. ([Reserve] needs a request whose byte count does not wrap.) *)
Lemma invariant_kept_on_return f :
  wf (this f) ->
  (forall value f', PushBack value f = (Normal tt, f') -> wf (this f')) /\
  (forall made p f', EmplaceBack made f = (Normal p, f') -> wf (this f')) /\
  (forall pos made p f', Emplace pos made f = (Normal p, f') -> wf (this f')) /\
  (forall pos value p f', Insert pos value f = (Normal p, f') -> wf (this f')) /\
  (forall pos p v', Erase pos (this f) = (Normal p, v') -> wf v') /\
  (forall v', PopBack (this f) = (Normal tt, v') -> wf v') /\
  (forall v', Clear (this f) = (Normal tt, v') -> wf v') /\
  (forall n f', Resize n f = (Normal tt, f') -> wf (this f')) /\
  (forall n f', n * Npos sizeof < SIZE_MOD ->
                Reserve n f = (Normal tt, f') -> wf (this f')).
Proof.
  intros Hwf.
  refine (conj _ (conj _ (conj _ (conj _ (conj _ (conj _ (conj _ (conj _ _)))))))).
  - intros value f' E.
    pose proof (post_run _ _ _ _ _ (PushBack_spec value f Hwf) E) as [_ Hp].
    apply (pushed_wf _ _ _ (Hp eq_refl)).
  - intros made p f' E.
    pose proof (post_run _ _ _ _ _ (EmplaceBack_spec made f Hwf) E) as [_ Hp].
    destruct (Hp p eq_refl) as [_ Hq]. apply (pushed_wf _ _ _ Hq).
  - intros pos made p f' E.
    pose proof (post_run _ _ _ _ _ (Emplace_spec pos made f Hwf) E) as Hp.
    cbv beta in Hp. destruct (Hp p eq_refl) as (_ & _ & Hq).
    apply (inserted_wf _ _ _ _ Hq).
  - intros pos value p f' E. unfold Insert in E.
    pose proof (post_run _ _ _ _ _ (Emplace_spec pos _ f Hwf) E) as Hp.
    cbv beta in Hp. destruct (Hp p eq_refl) as (_ & _ & Hq).
    apply (inserted_wf _ _ _ _ Hq).
  - intros pos p v' E.
    pose proof (post_run _ _ _ _ _ (Erase_spec pos (this f) Hwf) E) as Hp.
    cbv beta in Hp. destruct (Hp p eq_refl) as (_ & _ & Hq).
    apply (erased_wf _ _ _ Hq).
  - intros v' E. destruct (N.eq_dec (size_ (this f)) 0) as [Hz|Hz].
    + unfold PopBack, bind, gets in E. rewrite Hz in E. cbn in E.
      injection E as <-. assumption.
    + rewrite PopBack_run in E by (assumption || lia). injection E as <-.
      destruct Hwf as [Hwm Hws Hwl]. unfold Capacity in *.
      assert (Hb : in_block (data_ (this f)) (size_ (this f) - 1) = true).
      { apply peek_in_block, Hwl. lia. }
      split; lens; unfold Capacity; lens; rewrite ?capacity_poke.
      * eapply wf_memory_shape; [apply same_shape_poke|assumption].
      * lia.
      * intros i. destruct (N.eq_dec i (size_ (this f) - 1)) as [->|Hne].
        -- rewrite peek_poke_eq by assumption. split; [|lia].
           intros [? ?]; discriminate.
        -- rewrite peek_poke_ne by congruence. rewrite (Hwl i). lia.
  - intros v' E.
    pose proof (post_run _ _ _ _ _ (Clear_spec (this f) Hwf) E eq_refl) as Hp.
    apply Hp.
  - intros n f' E.
    pose proof (post_run _ _ _ _ _ (Resize_spec n f Hwf) E eq_refl) as Hp.
    apply (resized_wf _ _ _ Hp).
  - intros n f' Hn E.
    pose proof (post_run _ _ _ _ _ (Reserve_spec n f Hwf) E) as Hp.
    cbv beta iota in Hp. apply (reserved_wf _ _ _ Hp). now right.
Qed.

End InvariantOnReturn.

(** * Further properties of the member functions *)

(** ** The element sequence after an append, an insertion, an erasure *)

Section Sequences.

Context {T : Type} `{Element T} `{!Regular T}.
Implicit Types (v : Vector T) (f : Frame T) (p q i j : N).

Lemma forward_referent (value : Arg T) x :
  forward value = Some x -> x = referent value.
Proof.
  destruct value as [y|y]; cbn; intros E.
  - eapply copy_construct_value; eauto.
  - destruct (move_construct y) as [o r] eqn:Em. cbn in E. subst o.
    eapply move_construct_value; eauto.
Qed.

(** The sequence of a vector is the list that agrees with its live slots. *)
Lemma elements_is v (l : list T) :
  wf v -> length l = N.to_nat (size_ v) ->
  (forall i, i < size_ v -> peek (data_ v) i = l !! N.to_nat i) ->
  elements v = l.
Proof.
  intros Hwf Hlen Hl. apply list_eq. intros k.
  destruct (decide (k < N.to_nat (size_ v))%nat) as [Hk|Hk].
  - rewrite <- (Nat2N.id k). rewrite elements_lookup by (assumption || lia).
    apply Hl. lia.
  - rewrite !(proj2 (lookup_ge_None _ _)); [reflexivity|lia|].
    rewrite elements_length by assumption. lia.
Qed.

Lemma pushed_elements made v v' :
  wf v -> pushed made v v' ->
  exists x, made = Some x /\ elements v' = elements v ++ [x].
Proof.
  intros Hwf [Hwf' Hsz Hcap [[x Hx] Hnew] Hold]. exists x. split; [assumption|].
  pose proof (elements_length v Hwf) as Hlen.
  apply elements_is; [assumption|rewrite length_app; cbn; lia|].
  intros i Hi. destruct (N.lt_ge_cases i (size_ v)) as [Hlt|Hge].
  - rewrite lookup_app_l by lia. rewrite elements_lookup by assumption.
    apply transported_peek. now apply Hold.
  - assert (i = size_ v) as -> by lia.
    rewrite lookup_app_r by lia. rewrite Hlen, Nat.sub_diag. cbn. congruence.
Qed.

Lemma inserted_elements made pos v v' :
  wf v -> pos <= size_ v -> inserted made pos v v' ->
  exists x, made = Some x /\
    elements v' =
      take (N.to_nat pos) (elements v) ++ x :: drop (N.to_nat pos) (elements v).
Proof.
  intros Hwf Hpos [Hwf' Hsz Hcap Hbefore (x & y & Hx & Hxy & Hnew) Hafter].
  apply transported_eq in Hxy. subst y. exists x. split; [assumption|].
  pose proof (elements_length v Hwf) as Hlen.
  assert (Htake : length (take (N.to_nat pos) (elements v)) = N.to_nat pos).
  { rewrite length_take. lia. }
  apply elements_is; [assumption| |].
  { rewrite length_app, Htake. cbn. rewrite length_drop. lia. }
  intros i Hi. destruct (N.lt_ge_cases i pos) as [Hlt|Hge].
  - rewrite lookup_app_l by lia. rewrite lookup_take_lt by lia.
    rewrite elements_lookup by (assumption || lia).
    apply transported_peek. now apply Hbefore.
  - rewrite lookup_app_r by lia. rewrite Htake.
    destruct (N.eq_dec i pos) as [->|Hne].
    + rewrite Nat.sub_diag. cbn. assumption.
    + replace (N.to_nat i - N.to_nat pos)%nat
        with (S (N.to_nat (i - 1) - N.to_nat pos)) by lia.
      rewrite lookup_cons. cbv beta iota. rewrite lookup_drop.
      replace (N.to_nat pos + (N.to_nat (i - 1) - N.to_nat pos))%nat
        with (N.to_nat (i - 1)) by lia.
      rewrite elements_lookup by (assumption || lia).
      replace i with (i - 1 + 1) at 1 by lia.
      apply transported_peek. apply Hafter. lia.
Qed.

Lemma erased_elements pos v v' :
  wf v -> pos < size_ v -> erased pos v v' ->
  elements v' = delete (N.to_nat pos) (elements v).
Proof.
  intros Hwf Hpos [Hwf' Hsz Hcap Hbefore Hafter].
  pose proof (elements_length v Hwf) as Hlen.
  apply elements_is; [assumption| |].
  { rewrite length_delete; [lia|]. apply lookup_lt_is_Some. lia. }
  intros i Hi. destruct (N.lt_ge_cases i pos) as [Hlt|Hge].
  - rewrite list_lookup_delete_lt by lia.
    rewrite elements_lookup by (assumption || lia). now apply Hbefore.
  - rewrite list_lookup_delete_ge by lia.
    replace (S (N.to_nat i)) with (N.to_nat (i + 1)) by lia.
    rewrite elements_lookup by (assumption || lia).
    apply transported_peek. apply Hafter. lia.
Qed.

(** X1.  [PushBack] adds the object its argument refers to at the end of the
    sequence; [EmplaceBack] does the same with the object it constructs and
    returns a reference to the slot that holds it. *)
Theorem append_adds_at_end f :
  wf (this f) ->
  (forall (value : Arg T) f1,
     PushBack value f = (Normal tt, f1) ->
     elements (this f1) = elements (this f) ++ [referent value]) /\
  (forall made p f2,
     EmplaceBack made f = (Normal p, f2) ->
     p = size_ (this f) /\
     exists x, made = Some x /\
               elements (this f2) = elements (this f) ++ [x] /\
               elements (this f2) !! N.to_nat p = Some x).
Proof.
  intros Hwf. split.
  - intros value f1 E1.
    pose proof (post_run _ _ _ _ _ (PushBack_spec value f Hwf) E1) as [_ Hp1].
    specialize (Hp1 eq_refl).
    destruct (pushed_elements _ _ _ Hwf Hp1) as (x1 & Hx1 & Hel1).
    apply forward_referent in Hx1. now subst x1.
  - intros made p f2 E2.
    pose proof (post_run _ _ _ _ _ (EmplaceBack_spec made f Hwf) E2) as [_ Hp2].
    destruct (Hp2 p eq_refl) as [-> Hp2'].
    destruct (pushed_elements _ _ _ Hwf Hp2') as (x2 & Hx2 & Hel2).
    split; [reflexivity|].
    exists x2. split; [assumption|]. split; [assumption|].
    rewrite Hel2.
    rewrite lookup_app_r; rewrite elements_length by assumption; [|lia].
    now rewrite Nat.sub_diag.
Qed.

(** X2.  [Insert] puts the object its argument refers to before position
    [pos], keeps the order of the other elements and returns [pos]. *)
Theorem Insert_places_value f pos (value : Arg T) p f' :
  wf (this f) ->
  Insert pos value f = (Normal p, f') ->
  p = pos /\ pos <= size_ (this f) /\
  elements (this f') =
    take (N.to_nat pos) (elements (this f))
      ++ referent value :: drop (N.to_nat pos) (elements (this f)) /\
  elements (this f') !! N.to_nat p = Some (referent value).
Proof.
  intros Hwf E. unfold Insert in E.
  pose proof (post_run _ _ _ _ _ (Emplace_spec pos _ f Hwf) E) as Hq.
  cbv beta in Hq. destruct (Hq p eq_refl) as (-> & Hpos & Hi).
  destruct (inserted_elements _ _ _ _ Hwf Hpos Hi) as (x & Hx & Hel).
  apply forward_referent in Hx. subst x.
  split; [reflexivity|]. split; [assumption|]. split; [assumption|].
  rewrite Hel. rewrite lookup_app_r; rewrite length_take, elements_length
    by assumption; [|lia].
  replace (N.to_nat pos - N.to_nat pos `min` N.to_nat (size_ (this f)))%nat
    with 0%nat by lia. reflexivity.
Qed.

(** X3.  [Erase] removes the element at [pos] and nothing else, keeps the
    capacity and returns [pos], the position of the element that followed. *)
Theorem Erase_removes_one v pos p v' :
  wf v ->
  Erase pos v = (Normal p, v') ->
  p = pos /\ pos < size_ v /\
  elements v' = delete (N.to_nat pos) (elements v) /\
  size_ v' + 1 = size_ v /\
  Capacity v' = Capacity v.
Proof.
  intros Hwf E.
  pose proof (post_run _ _ _ _ _ (Erase_spec pos v Hwf) E) as Hq.
  cbv beta in Hq. destruct (Hq p eq_refl) as (-> & Hpos & He).
  split; [reflexivity|]. split; [assumption|].
  split; [now apply erased_elements|].
  split; [apply (erased_size _ _ _ He)|apply (erased_capacity _ _ _ He)].
Qed.

End Sequences.

(** ** [Reserve], [Resize], [Clear] on the element sequence *)

Section Capacities.

Context {T : Type} `{Element T}.
Implicit Types (v : Vector T) (f : Frame T) (p q i j : N).

(** The sequences of two vectors of one size agree when their live slots
    do; the invariant is needed of the first one only. *)
Lemma elements_agree v v' :
  wf v -> size_ v' = size_ v ->
  (forall i, i < size_ v -> peek (data_ v') i = peek (data_ v) i) ->
  elements v' = elements v.
Proof.
  intros Hwf Hsz Hpeek. unfold elements. rewrite Hsz.
  assert (Hl : forall n : nat, (n < N.to_nat (size_ v))%nat ->
            is_Some (mjoin (cells (data_ v) !! n))).
  { intros n Hn. now apply wf_live_nat. }
  assert (Hl' : forall n : nat, (n < N.to_nat (size_ v))%nat ->
            mjoin (cells (data_ v') !! n) = mjoin (cells (data_ v) !! n)).
  { intros n Hn. specialize (Hpeek (N.of_nat n)). unfold peek in Hpeek.
    rewrite Nat2N.id in Hpeek. apply Hpeek. lia. }
  destruct (live_prefix_spec _ _ Hl) as [Hlen Hlook].
  destruct (live_prefix_spec (N.to_nat (size_ v)) (cells (data_ v')))
    as [Hlen' Hlook'].
  { intros n Hn. rewrite Hl' by assumption. now apply Hl. }
  apply list_eq. intros k.
  destruct (decide (k < N.to_nat (size_ v))%nat) as [Hk|Hk].
  - rewrite Hlook, Hlook' by assumption. now apply Hl'.
  - rewrite !(proj2 (lookup_ge_None _ _)); [reflexivity|lia|lia].
Qed.

(** X4.  [Reserve(n)], when it returns, leaves the size and the elements as
    they were and a capacity of at least [n]: the capacity is unchanged for
    [n <= size] and exactly [n] otherwise. *)
Theorem Reserve_sets_capacity `{!Regular T} n f f' :
  wf (this f) ->
  Reserve n f = (Normal tt, f') ->
  Capacity (this f') =
    (if n <=? size_ (this f) then Capacity (this f) else n) /\
  n <= Capacity (this f') /\
  size_ (this f') = size_ (this f) /\
  elements (this f') = elements (this f).
Proof.
  intros Hwf Hrun. pose proof (Reserve_spec n f Hwf) as Hpost.
  pose proof (post_run _ _ _ _ _ Hpost Hrun) as Hq. cbv beta iota in Hq.
  destruct Hq as [Hsz Hcap Hold _ _]. split; [assumption|].
  split; [|split; [assumption|]].
  - rewrite Hcap. destruct (n <=? size_ (this f)) eqn:E; [|lia].
    apply N.leb_le in E. pose proof (wf_size _ Hwf). lia.
  - apply elements_agree; [assumption..|].
    intros i Hi. apply transported_peek. now apply Hold.
Qed.

(** X5.  [Resize(n)], when it returns, leaves [n] elements: the first [n] of
    the old ones when [n <= size], with the capacity unchanged; the old ones
    followed by value-initialized ones otherwise, with a capacity of exactly
    [n]. *)
Theorem Resize_sequence `{!Regular T} n f f' :
  wf (this f) ->
  Resize n f = (Normal tt, f') ->
  wf (this f') /\
  size_ (this f') = n /\
  Capacity (this f') = (if size_ (this f) <? n then n else Capacity (this f)) /\
  (n <= size_ (this f) ->
   elements (this f') = take (N.to_nat n) (elements (this f))) /\
  (size_ (this f) < n ->
   exists x0 : T, value_init = Some x0 /\
     elements (this f') =
       elements (this f) ++ replicate (N.to_nat (n - size_ (this f))) x0).
Proof.
  intros Hwf Hrun.
  pose proof (post_run _ _ _ _ _ (Resize_spec n f Hwf) Hrun eq_refl) as Hq.
  destruct Hq as [Hwf' Hsz Hcap Hold Hnew].
  pose proof (elements_length _ Hwf) as Hlen.
  split; [assumption|]. split; [assumption|]. split; [assumption|]. split.
  - intros Hn. apply elements_is; [assumption|rewrite length_take; lia|].
    intros i Hi. rewrite lookup_take_lt by lia.
    rewrite elements_lookup by (assumption || lia).
    apply transported_peek, Hold. lia.
  - intros Hn. destruct (Hnew (size_ (this f))) as [[x0 Hv0] _]; [lia|].
    exists x0. split; [assumption|].
    apply elements_is; [assumption|rewrite length_app, length_replicate; lia|].
    intros i Hi. destruct (N.lt_ge_cases i (size_ (this f))) as [Hlt|Hge].
    + rewrite lookup_app_l by lia. rewrite elements_lookup by assumption.
      apply transported_peek, Hold. lia.
    + rewrite lookup_app_r by lia.
      destruct (Hnew i) as [_ ->]; [lia|]. rewrite Hv0. symmetry.
      apply lookup_replicate_2. lia.
Qed.

(** X6.  [Clear] always returns on a vector that satisfies the invariant; it
    leaves no live element and keeps the storage and its capacity. *)
Theorem Clear_empties v :
  wf v ->
  exists v',
    Clear v = (Normal tt, v') /\
    wf v' /\
    size_ v' = 0 /\
    Capacity v' = Capacity v /\
    elements v' = [] /\
    forall i, peek (data_ v') i = None.
Proof.
  intros Hwf.
  destruct (destroy_n_returns 0 (size_ v) (data_ v)) as [m' Ed].
  { intros i Hi. apply (wf_live _ Hwf). lia. }
  assert (Erun : Clear v = (Normal tt, MkVector m' 0)).
  { unfold Clear, GetAddress.
    rewrite (bind_run _ _ _ (size_ v) v) by reflexivity.
    rewrite (bind_run _ _ _ 0 v)
      by (unfold zoom, ret; cbn; now rewrite Vector_eta).
    rewrite (bind_run _ _ _ tt (MkVector m' (size_ v)))
      by (apply (zoom_run _data _ v); exact Ed).
    reflexivity. }
  exists (MkVector m' 0). split; [assumption|].
  pose proof (post_run _ _ _ _ _ (Clear_spec v Hwf) Erun eq_refl)
    as (Hwf' & Hsz & Hcap).
  repeat (split; [assumption|]). split; [reflexivity|].
  intros i. cbn [data_]. destruct (peek m' i) eqn:E; [|reflexivity].
  assert (Hi : i < 0) by (apply (wf_live _ Hwf'); cbn; eauto). lia.
Qed.

(** X7.  [Erase] is defined on the positions of elements only. From [end()]
    on it leaves the language: beyond [end()] and on an empty vector by an
    assertion, at [end()] itself, which the assertion admits, by a move over
    a reversed range. *)
Theorem Erase_needs_element v pos :
  wf v -> size_ v <= pos -> Erase pos v = (Undefined, v).
Proof.
  intros Hwf Hpos. pose proof (wf_size _ Hwf) as Hs. unfold Erase.
  rewrite (bind_run _ _ _ _ _ (begin_run v)).
  rewrite (bind_run _ _ _ _ _ (end_run v Hs)).
  destruct (N.eq_dec pos (size_ v)) as [->|Hne].
  - assert (Ha : ((0 <=? size_ v) && (size_ v <=? size_ v)) = true).
    { apply andb_true_iff. split; apply N.leb_le; lia. }
    rewrite Ha. rewrite (bind_run _ _ _ tt v) by reflexivity.
    rewrite (bind_run _ _ _ (size_ v) v) by reflexivity.
    destruct (size_ v =? 0) eqn:Ez; [reflexivity|].
    cbn [negb]. rewrite (bind_run _ _ _ tt v) by reflexivity.
    rewrite N.sub_0_r, !N.add_0_l. unfold bind, zoom, std_move. lens.
    assert (Elt : (size_ v <? size_ v + 1) = true) by (apply N.ltb_lt; lia).
    rewrite Elt. cbn. now rewrite Vector_eta.
  - assert (Ha : ((0 <=? pos) && (pos <=? size_ v)) = false).
    { apply andb_false_iff. right. apply N.leb_gt. lia. }
    rewrite Ha. reflexivity.
Qed.

End Capacities.

(** ** The strong exception guarantee *)

Section Strong.

Context {T : Type} `{Element T}.
Implicit Types (m nd : RawMemory T) (v : Vector T) (f : Frame T) (p q i j : N).

Lemma duplicate_keeps_frame first n d_first f nd :
  post (duplicate first n d_first) (f, nd) (fun _ s' => fst s' = f).
Proof. unfold duplicate. wp. lens. unfold post. reflexivity. Qed.

Lemma move_loop_no_throw d_first k : forall first cur src dst,
  (forall x : T, is_Some (fst (move_construct x))) ->
  post (move_loop d_first k first cur) (src, dst)
       (fun r _ => forall e, r <> Throw e).
Proof.
  induction k as [|k IH]; intros first cur src dst Hmove; cbn [move_loop].
  - wp. discriminate.
  - wp. cbn. eapply post_mono; [apply load_spec|].
    intros [x|e|] m1 (-> & Ht & _); cbn;
      [|exfalso; eapply Ht; reflexivity|discriminate].
    wp. cbn. eapply post_mono; [apply store_spec|].
    intros [[]|e|] src1 (_ & Ht1 & _); cbn;
      [|exfalso; eapply Ht1; reflexivity|discriminate].
    wp. cbn. eapply post_mono; [apply placement_new_spec|].
    intros [[]|e|] dst1 (_ & Htd & _); cbn.
    + apply IH. assumption.
    + destruct (Htd e eq_refl) as [_ Hnone].
      destruct (Hmove x) as [y Hy]. congruence.
    + discriminate.
Qed.

Lemma transfer_unchanged_on_throw first n d_first f nd :
  safe_transfer ->
  post (transfer first n d_first) (f, nd) (unchanged_on_throw f).
Proof.
  intros Hsafe. unfold transfer. destruct relocates eqn:Er.
  - destruct Hsafe as [Hs|Hmove]; [congruence|].
    unfold relocate, uninitialized_move_n. wp. lens.
    eapply post_mono; [apply move_loop_no_throw; assumption|].
    intros r s' Hr e ->. exfalso. eapply Hr. reflexivity.
  - eapply post_mono; [apply duplicate_keeps_frame|].
    intros r s' Hf e _. now rewrite Hf.
Qed.

Lemma relocate_or_duplicate_unchanged (move_it : bool) first n d_first f f0 nd :
  (move_it = true -> forall x : T, is_Some (fst (move_construct x))) ->
  this f0 = this f ->
  post ((if move_it then relocate else duplicate) first n d_first) (f0, nd)
       (fun r s' =>
          (forall e, r = Throw e -> this (fst s') = this f) /\
          (move_it = false -> this (fst s') = this f)).
Proof.
  intros Hmove Hf. destruct move_it.
  - unfold relocate, uninitialized_move_n. wp. lens.
    eapply post_mono; [apply move_loop_no_throw; auto|].
    intros r s' Hr. split; [|discriminate].
    intros e ->. exfalso. eapply Hr. reflexivity.
  - eapply post_mono; [apply duplicate_keeps_frame|].
    intros r s' Hs. split; intros; now rewrite Hs.
Qed.

(** Destroying the old elements, exchanging the storages and releasing the
    old block never throws. *)
Lemma commit_no_throw n f nd (Q : outcome unit -> Frame T -> Prop) :
  (forall s, Q (Normal tt) s) -> (forall s, Q Undefined s) ->
  post (zoom _old_data (destroy_n 0 n) ;; zoom _old_new RawMemory_Swap) (f, nd)
    (fun r sl =>
       match r with
       | Normal a =>
           post (delete_RawMemory (snd sl)) (fst sl) (fun r' s'' =>
             match r' with
             | Normal _ => Q (Normal a) s''
             | Throw e => Q (Throw e) s''
             | Undefined => Q Undefined s''
             end)
       | Throw e =>
           post (delete_RawMemory (snd sl)) (fst sl) (fun r' s'' =>
             match r' with
             | Normal _ => Q (Throw e) s''
             | Throw e' => Q (Throw e') s''
             | Undefined => Q Undefined s''
             end)
       | Undefined => Q Undefined (fst sl)
       end).
Proof.
  intros Hn Hu. wp_step. wp_step. lens.
  eapply post_mono; [apply destroy_n_spec|].
  intros [[]|e|] old2 (_ & Ht & _); lens;
    [|exfalso; eapply Ht; reflexivity|apply Hu].
  unfold RawMemory_Swap. wp. lens. apply delete_post. intros h. destruct tt.
  apply Hn.
Qed.

Lemma append_step_unchanged_on_throw made f :
  safe_transfer ->
  post (if size_ (this f) =? Capacity (this f) then
          new_data <- new_RawMemory (grown_capacity (size_ (this f))) ;;
          scoped delete_RawMemory new_data (
            p <- zoom _new_data (RawMemory_plus (size_ (this f))) ;;
            zoom _new_data (placement_new p made) ;;
            transfer 0 (size_ (this f)) 0 ;;
            zoom _old_data (destroy_n 0 (size_ (this f))) ;;
            zoom _old_new RawMemory_Swap)
        else
          p <- zoom _this_data (RawMemory_plus (size_ (this f))) ;;
          zoom _this_data (placement_new p made)) f
    (fun r f' => forall e, r = Throw e -> this f' = this f).
Proof.
  intros Hsafe. destruct (size_ (this f) =? Capacity (this f)).
  - wp_step. eapply post_mono; [apply new_RawMemory_spec|].
    intros [nd|e|] [h1 v1] [Hthis _]; cbn in Hthis; subst v1;
      [|intros; reflexivity|discriminate].
    wp_step. wp_step. wp_step. lens.
    eapply post_mono; [apply RawMemory_plus_spec|].
    intros [p|e|] nd0 (-> & Ht & _); lens;
      [|exfalso; eapply Ht; reflexivity|discriminate].
    wp_step. wp_step. lens.
    eapply post_mono; [apply placement_new_spec|].
    intros [[]|e|] nd1 _; lens;
      [|apply delete_post; intros h e' _; reflexivity|discriminate].
    wp_step.
    eapply post_mono;
      [apply (transfer_unchanged_on_throw _ _ _ (MkFrame h1 (this f)) nd1 Hsafe)|].
    intros [[]|e|] [f1 nd2] Hun; lens;
      [|apply delete_post; intros h e' _; apply (Hun e eq_refl)|discriminate].
    apply (commit_no_throw _ _ _
             (fun r f' => forall e, r = Throw e -> this f' = this f));
      discriminate.
  - wp_step. wp_step. lens.
    eapply post_mono; [apply RawMemory_plus_spec|].
    intros [p|e|] nd0 (-> & Ht & _); lens;
      [|exfalso; eapply Ht; reflexivity|discriminate].
    wp_step. lens.
    eapply post_mono; [apply placement_new_spec|].
    intros [[]|e|] nd1 (_ & Ht1 & _); lens; [discriminate| |discriminate].
    intros e' _. destruct (Ht1 e eq_refl) as [-> _].
    now rewrite Vector_eta.
Qed.

Lemma PushBack_unchanged_on_throw value f :
  safe_transfer ->
  post (PushBack value) f
       (fun r f' => forall e, r = Throw e -> this f' = this f).
Proof.
  intros Hsafe. unfold PushBack. wp_step. wp_step. cbv beta iota. wp_step.
  eapply post_mono; [apply (append_step_unchanged_on_throw _ f Hsafe)|].
  intros [[]|e0|] f1 Hun; [wp; discriminate|exact Hun|discriminate].
Qed.

Lemma EmplaceBack_unchanged_on_throw made f :
  safe_transfer ->
  post (EmplaceBack made) f
       (fun r f' => forall e, r = Throw e -> this f' = this f).
Proof.
  intros Hsafe. unfold EmplaceBack. wp_step. wp_step. cbv beta iota. wp_step.
  eapply post_mono; [apply (append_step_unchanged_on_throw _ f Hsafe)|].
  intros [[]|e0|] f1 Hun;
    [|intros e' _; exact (Hun e0 eq_refl)|discriminate].
  wp_step. wp_step. wp_step. lens. wp_step. lens.
  eapply post_mono; [apply RawMemory_index_spec|].
  intros [p|e0|] m0 (_ & Ht & _); lens;
    [discriminate|exfalso; eapply Ht; reflexivity|discriminate].
Qed.

(** The two transfers of an insertion that reallocates: the elements before
    the position, then the elements from the position on. *)
Lemma insert_transfers_unchanged_on_throw idx n f f0 nd :
  safe_transfer ->
  this f0 = this f ->
  post (if relocates then
          relocate 0 idx 0 ;;
          q <- zoom _old_data (RawMemory_plus idx) ;;
          d <- zoom _new_data (RawMemory_plus idx) ;;
          relocate q n (d + 1)
        else
          duplicate 0 idx 0 ;;
          q <- zoom _old_data (RawMemory_plus idx) ;;
          d <- zoom _new_data (RawMemory_plus idx) ;;
          duplicate q n (d + 1)) (f0, nd)
       (fun r s' => forall e, r = Throw e -> this (fst s') = this f).
Proof.
  intros Hsafe Hf.
  assert (Hmove : relocates = true ->
            forall x : T, is_Some (fst (move_construct x))).
  { intros Er. destruct Hsafe as [Hs|Hm]; [congruence|assumption]. }
  assert (Hboth : forall move_it : bool,
    (move_it = true -> forall x : T, is_Some (fst (move_construct x))) ->
    post ((if move_it then relocate else duplicate) 0 idx 0 ;;
          q <- zoom _old_data (RawMemory_plus idx) ;;
          d <- zoom _new_data (RawMemory_plus idx) ;;
          (if move_it then relocate else duplicate) q n (d + 1)) (f0, nd)
       (fun r s' => forall e, r = Throw e -> this (fst s') = this f)).
  { intros move_it Hm. wp_step.
    eapply post_mono;
      [apply (relocate_or_duplicate_unchanged move_it _ _ _ f f0 nd Hm Hf)|].
    intros [[]|e1|] [f1 nd2] [Hthrow Hkeep]; cbv beta iota;
      [|exact Hthrow|discriminate].
    wp_step. wp_step. lens. eapply post_mono; [apply RawMemory_plus_spec|].
    intros [q|e1|] m0 (-> & Ht & _); lens; rewrite ?Vector_eta, ?Frame_eta;
      [|exfalso; eapply Ht; reflexivity|discriminate].
    wp_step. wp_step. lens. eapply post_mono; [apply RawMemory_plus_spec|].
    intros [d|e1|] m1 (-> & Ht' & _); lens;
      [|exfalso; eapply Ht'; reflexivity|discriminate].
    destruct move_it.
    - unfold relocate, uninitialized_move_n. wp. lens.
      eapply post_mono; [apply move_loop_no_throw; auto|].
      intros r s' Hr e ->. exfalso. eapply Hr. reflexivity.
    - eapply post_mono; [apply duplicate_keeps_frame|].
      intros r s' Hs e _. rewrite Hs. cbn. now apply Hkeep. }
  destruct relocates; [apply (Hboth true); auto|apply (Hboth false); discriminate].
Qed.

Lemma Emplace_unchanged_on_throw_when_full pos made f :
  safe_transfer ->
  size_ (this f) = Capacity (this f) ->
  post (Emplace pos made) f
       (fun r f' => forall e, r = Throw e -> this f' = this f).
Proof.
  intros Hsafe Hfull. unfold Emplace.
  wp_step. wp_step. lens. eapply post_eq; [apply begin_run|].
  cbv beta iota. lens. rewrite ?Frame_eta.
  wp_step. wp_step. lens. eapply post_mono; [apply end_spec|].
  intros [e0|x|] v' (-> & Ht & _); rewrite ?Frame_eta;
    [|exfalso; eapply Ht; reflexivity|discriminate].
  wp_step. apply post_cassert; intros Hc; [|discriminate].
  destruct (pos =? e0); [now apply EmplaceBack_unchanged_on_throw|].
  wp_step. wp_step. cbv beta iota zeta. wp_step.
  rewrite Hfull, N.eqb_refl.
  wp_step. eapply post_mono; [apply new_RawMemory_spec|].
  intros [nd|e1|] [h1 v1] [Hthis _]; cbn in Hthis; subst v1;
    [|intros; reflexivity|discriminate].
  wp_step. wp_step. wp_step. lens.
  eapply post_mono; [apply RawMemory_plus_spec|].
  intros [p|e1|] nd0 (-> & Ht' & _); lens;
    [|exfalso; eapply Ht'; reflexivity|discriminate].
  wp_step. wp_step. lens.
  eapply post_mono; [apply placement_new_spec|].
  intros [[]|e1|] nd1 _; lens;
    [|apply delete_post; intros h e' _; reflexivity|discriminate].
  wp_step.
  eapply post_mono;
    [apply (insert_transfers_unchanged_on_throw _ _ f (MkFrame h1 (this f)) nd1
              Hsafe eq_refl)|].
  intros [[]|e1|] [f1 nd2] Hun; lens;
    [|apply delete_post; intros h e' _; apply (Hun e1 eq_refl)|discriminate].
  eapply post_mono.
  - apply (commit_no_throw _ _ _
             (fun r f' => match r with Throw _ => False | _ => True end));
      intros; exact I.
  - intros [[]|e1|] [f2 nd3] Hq; lens.
    + eapply post_mono; [exact Hq|].
      intros [[]|e2|] f3 Hq'; cbv beta iota; try contradiction.
      * wp_step. wp_step. lens. wp_step. wp_step. unfold begin_. wp_step. lens.
        unfold GetAddress. wp. discriminate.
      * discriminate.
    + eapply post_mono; [exact Hq|].
      intros [[]|e2|] f3 Hq'; cbv beta iota; try contradiction. discriminate.
    + discriminate.
Qed.

(** X8.  An append that throws, whatever throws in it (the allocation, the
    construction of the new element, the copy of an old one), leaves the
    vector exactly as it was, provided the transfer is safe. *)
Theorem append_strong_guarantee (op : append_op) f e f' :
  safe_transfer ->
  do_append op f = (Throw e, f') ->
  this f' = this f.
Proof.
  intros Hsafe Hrun.
  assert (Hpost : post (do_append op) f
            (fun r f' => forall e, r = Throw e -> this f' = this f)).
  { destruct op as [value|made]; cbn [do_append].
    - now apply PushBack_unchanged_on_throw.
    - wp_step.
      eapply post_mono; [apply (EmplaceBack_unchanged_on_throw _ f Hsafe)|].
      intros [p|e0|] f1 Hun;
        [wp; discriminate|intros e' _; exact (Hun e0 eq_refl)|discriminate]. }
  exact (post_run _ _ _ _ _ Hpost Hrun e eq_refl).
Qed.

(** X9.  An insertion into a full vector reallocates, and then it gives the
    same guarantee as an append: if it throws, the vector is exactly as it
    was. (With spare capacity the insertion shifts in place and gives no
    such guarantee.) *)
Theorem Insert_strong_guarantee_when_full pos (value : Arg T) f e f' :
  safe_transfer ->
  size_ (this f) = Capacity (this f) ->
  Insert pos value f = (Throw e, f') ->
  this f' = this f.
Proof.
  intros Hsafe Hfull Hrun.
  exact (post_run _ _ _ _ _
           (Emplace_unchanged_on_throw_when_full pos (forward value) f Hsafe Hfull)
           Hrun e eq_refl).
Qed.

(** X10.  [Reserve] that throws leaves the vector exactly as it was,
    provided the transfer is safe. *)
Theorem Reserve_strong_guarantee n f e f' :
  safe_transfer ->
  Reserve n f = (Throw e, f') ->
  this f' = this f.
Proof.
  intros Hsafe Hrun.
  assert (Hpost : post (Reserve n) f
            (fun r f' => forall e, r = Throw e -> this f' = this f)).
  { unfold Reserve. wp_step. wp_step. cbv beta iota.
    destruct (n <=? size_ (this f)); [wp; discriminate|].
    wp_step. eapply post_mono; [apply new_RawMemory_spec|].
    intros [nd|e0|] [h1 v1] [Hthis _]; cbn in Hthis; subst v1;
      [|intros; reflexivity|discriminate].
    wp_step. wp_step.
    eapply post_mono;
      [apply (transfer_unchanged_on_throw _ _ _ (MkFrame h1 (this f)) nd Hsafe)|].
    intros [[]|e0|] [f1 nd2] Hun; lens;
      [|apply delete_post; intros h e' _; apply (Hun e0 eq_refl)|discriminate].
    apply (commit_no_throw _ _ _
             (fun r f' => forall e, r = Throw e -> this f' = this f));
      discriminate. }
  exact (post_run _ _ _ _ _ Hpost Hrun e eq_refl).
Qed.

End Strong.

(** ** Construction *)

Section Construction.

Context {T : Type} `{Element T}.
Implicit Types (m : RawMemory T) (v : Vector T) (h : Heap) (p q i j : N).

Lemma bind_returns {S A B} (c : M S A) (k : A -> M S B) s b s' :
  bind c k s = (Normal b, s') ->
  exists a s1, c s = (Normal a, s1) /\ k a s1 = (Normal b, s').
Proof.
  unfold bind. destruct (c s) as [[a|e|] s1]; try discriminate. eauto.
Qed.

(** What the constructor of [RawMemory] does to the free store. *)
Lemma RawMemory_ctor_run n h m h1 :
  RawMemory_ctor n h = (Normal m, h1) ->
  fresh n m /\
  news h1 = news h + (if n =? 0 then 0 else 1) /\
  deletes h1 = deletes h.
Proof.
  intros E. split.
  { exact (post_run _ _ _ _ _ (RawMemory_ctor_spec n h) E m eq_refl). }
  revert E. unfold RawMemory_ctor, Allocate. destruct (n =? 0).
  - cbn. intros [= _ <-]. split; [lia|reflexivity].
  - unfold bind, operator_new. destruct (PTRDIFF_MAX <? _); [discriminate|].
    destruct (oracle h) as [|[] o]; cbn; try discriminate;
      intros [= _ <-]; cbn; auto.
Qed.

(** A fresh block all of whose [n] slots could be filled is well formed. *)
Lemma fresh_filled n m m' :
  fresh n m -> same_shape m m' ->
  (forall i, i < n -> is_Some (peek m' i)) ->
  wf_memory m'.
Proof.
  intros Hf Hs Hlive. apply (wf_memory_shape m); [assumption|].
  apply (fresh_full n); [assumption|].
  destruct (N.eq_dec n 0) as [->|Hn]; [lia|].
  assert (Hb : in_block m' (n - 1) = true) by (apply peek_in_block, Hlive; lia).
  rewrite (in_block_shape m m') in Hb by assumption.
  unfold in_block in Hb. apply N.ltb_lt in Hb. lia.
Qed.

(** X11.  [Vector(size)], when it returns, has built a vector of [size]
    value-initialized elements in a block of exactly [size] slots, obtained
    by one allocation; for [size = 0] nothing is allocated. *)
Theorem Vector_sized_builds n h v h' :
  Vector_sized n h = (Normal v, h') ->
  wf v /\ size_ v = n /\ Capacity v = n /\
  match value_init with
  | Some x0 => elements v = replicate (N.to_nat n) x0
  | None => n = 0
  end /\
  news h' = news h + (if n =? 0 then 0 else 1) /\
  deletes h' = deletes h.
Proof.
  intros E. unfold Vector_sized in E.
  apply bind_returns in E as (m & h1 & Ec & E).
  apply RawMemory_ctor_run in Ec as (Hf & Hnews & Hdel).
  change ((p <- GetAddress ;; uninitialized_value_construct_n p n) m)
    with (uninitialized_value_construct_n 0 n m) in E.
  destruct (uninitialized_value_construct_n 0 n m) as [[[]|e|] m'] eqn:Eu;
    [|destruct (RawMemory_dtor m' h1); discriminate|discriminate].
  injection E as <- <-.
  pose proof (post_run _ _ _ _ _
                (uninitialized_value_construct_n_spec 0 n m) Eu) as [Hs Hn].
  destruct (Hn eq_refl) as [Hin Hout].
  assert (Hwf : wf (MkVector m' n)).
  { split; cbn [data_ size_].
    - apply (fresh_filled n m); [assumption..|].
      intros i Hi. destruct (Hin i) as [Hv ->]; [lia|assumption].
    - unfold Capacity. cbn. destruct Hs as [-> _].
      rewrite (fresh_capacity _ _ Hf). lia.
    - intros i. split.
      + intros Hl. destruct (N.lt_ge_cases i n) as [|Hge]; [assumption|].
        rewrite Hout, (fresh_raw _ _ Hf) in Hl by lia.
        destruct Hl; discriminate.
      + intros Hi. destruct (Hin i) as [Hv ->]; [lia|assumption]. }
  split; [assumption|]. split; [reflexivity|].
  split; [unfold Capacity; cbn; destruct Hs as [-> _];
          apply (fresh_capacity _ _ Hf)|].
  split; [|split; assumption].
  destruct value_init as [x0|] eqn:Ev.
  - apply elements_is; [assumption|now rewrite length_replicate|].
    cbn [data_ size_]. intros i Hi. destruct (Hin i) as [_ ->]; [lia|].
    symmetry. apply lookup_replicate_2. lia.
  - destruct (N.eq_dec n 0) as [|Hne]; [assumption|].
    destruct (Hin 0) as [[? ?] _]; [lia|discriminate].
Qed.

Lemma Vector_copy_run other h v h' :
  Vector_copy other h = (Normal v, h') ->
  wf v /\ size_ v = size_ other /\ Capacity v = size_ other /\
  (forall i, i < size_ other ->
     exists x y, peek (data_ other) i = Some x /\ transported x y /\
                 peek (data_ v) i = Some y) /\
  news h' = news h + (if size_ other =? 0 then 0 else 1) /\
  deletes h' = deletes h.
Proof.
  intros E. unfold Vector_copy in E.
  apply bind_returns in E as (m & h1 & Ec & E).
  apply RawMemory_ctor_run in Ec as (Hf & Hnews & Hdel).
  destruct (uninitialized_copy_n (data_ other) 0 (size_ other) 0 m)
    as [[[]|e|] m'] eqn:Eu;
    [|destruct (RawMemory_dtor m' h1); discriminate|discriminate].
  injection E as <- <-.
  pose proof (post_run _ _ _ _ _
                (uninitialized_copy_n_spec (data_ other) 0 (size_ other) 0 m)
                Eu) as [Hs Hn].
  destruct (Hn eq_refl) as [Hin Hout].
  assert (Hcopy : forall i, i < size_ other ->
            exists x y, peek (data_ other) i = Some x /\ transported x y /\
                        peek m' i = Some y).
  { intros i Hi. destruct (Hin i Hi) as (x & y & Hx & Hy & Hm').
    rewrite !N.add_0_l in *. exists x, y.
    split; [assumption|]. split; [now apply transported_copy|assumption]. }
  assert (Hwf' : wf (MkVector m' (size_ other))).
  { split; cbn [data_ size_].
    - apply (fresh_filled (size_ other) m); [assumption..|].
      intros i Hi. destruct (Hcopy i Hi) as (x & y & _ & _ & ->). eauto.
    - unfold Capacity. cbn. destruct Hs as [-> _].
      rewrite (fresh_capacity _ _ Hf). lia.
    - intros i. split.
      + intros Hl. destruct (N.lt_ge_cases i (size_ other)) as [|Hge];
          [assumption|].
        rewrite Hout, (fresh_raw _ _ Hf) in Hl by lia.
        destruct Hl; discriminate.
      + intros Hi. destruct (Hcopy i Hi) as (x & y & _ & _ & ->). eauto. }
  split; [assumption|]. split; [reflexivity|].
  split; [unfold Capacity; cbn; destruct Hs as [-> _];
          apply (fresh_capacity _ _ Hf)|].
  split; [|split; assumption].
  exact Hcopy.
Qed.

(** X12.  [Vector(const Vector&)], when it returns, has built a vector with
    the elements of [other], in a block of exactly as many slots as [other]
    has elements: the capacity of [other] is not copied. *)
Theorem Vector_copy_copies `{!Regular T} other h v h' :
  wf other ->
  Vector_copy other h = (Normal v, h') ->
  wf v /\ size_ v = size_ other /\ Capacity v = size_ other /\
  elements v = elements other /\
  news h' = news h + (if size_ other =? 0 then 0 else 1) /\
  deletes h' = deletes h.
Proof.
  intros Hwf E.
  destruct (Vector_copy_run _ _ _ _ E) as (Hwf' & Hsz & Hcap & Hel & Hn & Hd).
  repeat (split; [assumption|]). split; [|split; assumption].
  apply elements_ext; [assumption..|].
  intros i Hi. apply transported_peek. now apply Hel.
Qed.

End Construction.

(** ** Copy assignment *)

Section Assignment.

Context {T : Type} `{Element T}.
Implicit Types (m rhs_data : RawMemory T) (v rhs : Vector T) (f : Frame T)
  (h : Heap) (p q i j : N).

Lemma copy_assign_from_spec d x m :
  post (copy_assign_from d x) m (fun r m' =>
    same_shape m m' /\
    (r <> Undefined ->
     exists y ok y', peek m d = Some y /\ copy_assign y x = (ok, y') /\
       m' = poke d (Some y') m /\ (r = Normal tt -> ok = true))).
Proof.
  unfold copy_assign_from. wp. eapply post_mono; [apply load_spec|].
  intros [y|e|] m1 (-> & Ht & Hn);
    [|exfalso; eapply Ht; reflexivity|split; [apply same_shape_refl|congruence]].
  specialize (Hn y eq_refl).
  destruct (copy_assign y x) as [ok y'] eqn:E.
  wp. eapply post_mono; [apply store_spec|].
  intros [[]|e|] m1 (Hs1 & Ht1 & Hn1);
    [|exfalso; eapply Ht1; reflexivity|split; [assumption|congruence]].
  destruct Hn1 as [_ ->]; [reflexivity|].
  destruct ok; wp; (split; [assumption|]); intros _.
  - exists y, true, y'. auto.
  - exists y, false, y'. repeat (split; [assumption || reflexivity|]).
    discriminate.
Qed.

(** The loop of the assignment: slots [index, index + k) are assigned from
    the same slots of [rhs_data]; no slot becomes live or raw, whether the
    loop returns or throws. *)
Lemma assign_loop_spec rhs_data k : forall index m,
  post (assign_loop rhs_data k index) m (fun r m' =>
    same_shape m m' /\
    (r <> Undefined ->
     forall i, is_Some (peek m' i) <-> is_Some (peek m i)) /\
    (r = Normal tt ->
     (forall i, index <= i < index + N.of_nat k ->
        exists x y, peek rhs_data i = Some x /\ transported x y /\
                    peek m' i = Some y) /\
     (forall i, ~ (index <= i < index + N.of_nat k) -> peek m' i = peek m i))).
Proof.
  induction k as [|k IH]; intros index m; cbn [assign_loop].
  - wp. split; [apply same_shape_refl|]. split; [reflexivity|].
    intros _. split; [lia|auto].
  - wp_step. wp_step. eapply post_mono; [apply RawMemory_index_spec|].
    intros [s|e|] m0 (_ & Ht & Hs);
      [|exfalso; eapply Ht; reflexivity
       |split; [apply same_shape_refl|split; congruence]].
    destruct (Hs s eq_refl) as [-> _].
    wp_step. eapply post_mono; [apply RawMemory_index_spec|].
    intros [d|e|] m1 (-> & Ht' & Hd);
      [|exfalso; eapply Ht'; reflexivity
       |split; [apply same_shape_refl|split; congruence]].
    destruct (Hd d eq_refl) as [-> _].
    wp_step. destruct (peek rhs_data index) as [x|] eqn:Ex;
      [|wp; split; [apply same_shape_refl|split; congruence]].
    eapply post_mono; [apply copy_assign_from_spec|].
    intros r1 m1 (Hs1 & Hn1).
    assert (Hlive1 : r1 <> Undefined ->
              forall i, is_Some (peek m1 i) <-> is_Some (peek m i)).
    { intros Hr. destruct (Hn1 Hr) as (y & ok & y' & Hy & _ & -> & _).
      intros i. destruct (N.eq_dec i index) as [->|Hne].
      - rewrite peek_poke_eq by (apply peek_in_block; eauto).
        rewrite Hy. split; eauto.
      - rewrite peek_poke_ne by congruence. reflexivity. }
    destruct r1 as [[]|e|].
    + destruct (Hn1 ltac:(discriminate)) as (y & ok & y' & Hy & Hc & -> & Hok).
      specialize (Hok eq_refl). subst ok.
      eapply post_mono; [apply IH|]. intros r m2 (Hs2 & Hl2 & Hn2).
      split; [eapply same_shape_trans; eauto|]. split.
      * intros Hr i. rewrite (Hl2 Hr i). apply Hlive1. discriminate.
      * intros ->. destruct Hn2 as [Hin Hout]; [reflexivity|]. split.
        -- intros i Hi. destruct (N.eq_dec i index) as [->|Hne].
           ++ exists x, y'. split; [assumption|]. split.
              ** apply transported_copy_assign. exists y. assumption.
              ** rewrite Hout by lia. apply peek_poke_eq.
                 apply peek_in_block. eauto.
           ++ apply Hin. lia.
        -- intros i Hi. rewrite Hout by lia. apply peek_poke_ne. lia.
    + split; [assumption|]. split; [|discriminate].
      intros _. apply Hlive1. discriminate.
    + split; [assumption|]. split; congruence.
Qed.

(** When a copy throws, [std::uninitialized_copy_n] destroys the copies it
    has made: the destination is raw again. *)
Lemma copy_loop_unwinds src d_first k : forall first cur m,
  d_first <= cur ->
  (forall i, d_first <= i < cur -> is_Some (peek m i)) ->
  (forall i, cur <= i < cur + N.of_nat k -> peek m i = None) ->
  post (copy_loop src d_first k first cur) m (fun r m' =>
    forall e, r = Throw e ->
      (forall i, d_first <= i < cur + N.of_nat k -> peek m' i = None) /\
      (forall i, ~ (d_first <= i < cur + N.of_nat k) -> peek m' i = peek m i)).
Proof.
  induction k as [|k IH]; intros first cur m Hle Hlive Hraw; cbn [copy_loop].
  - wp. discriminate.
  - destruct (peek src first) as [x|] eqn:Ex; [|wp; discriminate].
    wp_step. wp_step. eapply post_mono; [apply placement_new_spec|].
    intros [[]|e|] m1 (Hs & Ht & Hn).
    + destruct Hn as (y & Hy & Hb & ->); [reflexivity|].
      eapply post_mono; [apply IH|].
      * lia.
      * intros i Hi. destruct (N.eq_dec i cur) as [->|Hne].
        -- rewrite peek_poke_eq by assumption. eauto.
        -- rewrite peek_poke_ne by congruence. apply Hlive. lia.
      * intros i Hi. rewrite peek_poke_ne by lia. apply Hraw. lia.
      * cbv beta. intros r m2 Hq e0 ->. destruct (Hq e0 eq_refl) as [Hin Hout].
        split.
        -- intros i Hi. apply Hin. lia.
        -- intros i Hi. rewrite Hout by lia. apply peek_poke_ne. lia.
    + destruct (Ht e eq_refl) as [-> _].
      eapply post_mono; [apply destroy_n_spec|].
      intros [[]|e1|] m2 (Hs2 & Ht2 & Hn2); [|exfalso; eapply Ht2; reflexivity
                                             |discriminate].
      destruct Hn2 as [Hin Hout]; [reflexivity|].
      intros e0 _. split.
      * intros i Hi. destruct (N.lt_ge_cases i cur) as [Hlt|Hge].
        -- apply Hin. lia.
        -- rewrite Hout by lia. apply Hraw. lia.
      * intros i Hi. apply Hout. lia.
    + discriminate.
Qed.

Lemma uninitialized_copy_n_unwinds src first n d_first m :
  (forall i, d_first <= i < d_first + n -> peek m i = None) ->
  post (uninitialized_copy_n src first n d_first) m (fun r m' =>
    forall e, r = Throw e -> forall i, peek m' i = peek m i).
Proof.
  intros Hraw. unfold uninitialized_copy_n.
  eapply post_mono; [apply copy_loop_unwinds|].
  - lia.
  - intros i Hi. lia.
  - intros i. rewrite N2Nat.id. apply Hraw.
  - cbv beta. rewrite N2Nat.id. intros r m' Hq e E i.
    destruct (Hq e E) as [Hin Hout].
    destruct (N.lt_ge_cases i d_first) as [Hlt|Hge]; [apply Hout; lia|].
    destruct (N.lt_ge_cases i (d_first + n)) as [Hlt|Hge'];
      [|apply Hout; lia].
    rewrite Hin, Hraw by lia. reflexivity.
Qed.

(** The destructor of a vector that satisfies the invariant never throws. *)
Lemma Vector_dtor_spec v h :
  post (Vector_dtor v) h (fun r _ => forall e, r <> Throw e).
Proof.
  unfold post, Vector_dtor.
  pose proof (destroy_n_spec 0 (size_ v) (data_ v)) as Hd. unfold post in Hd.
  destruct (destroy_n 0 (size_ v) (data_ v)) as [[[]|e|] m']; cbn in *.
  - unfold RawMemory_dtor, Deallocate, operator_delete.
    destruct (buffer_ m'); cbn; discriminate.
  - destruct Hd as (_ & Ht & _). exfalso. eapply Ht. reflexivity.
  - discriminate.
Qed.

Lemma wf_shape_live v m n :
  wf v -> same_shape (data_ v) m -> n <= Capacity v -> live_below n m ->
  wf (MkVector m n).
Proof.
  intros Hwf Hs Hn Hl. split; cbn [data_ size_].
  - apply (wf_memory_shape (data_ v)); [assumption|apply (wf_data _ Hwf)].
  - unfold Capacity in *. cbn. destruct Hs as [-> _]. assumption.
  - assumption.
Qed.

(** The specification of the body of [operator=(const Vector&)]. *)
Lemma assign_other_spec rhs f :
  wf (this f) -> wf rhs ->
  post (assign_other rhs) f (fun r f' =>
    (r = Normal tt ->
     wf (this f') /\ size_ (this f') = size_ rhs /\
     Capacity (this f') =
       (if Capacity (this f) <? size_ rhs then size_ rhs
        else Capacity (this f)) /\
     forall i, i < size_ rhs ->
       exists x y, peek (data_ rhs) i = Some x /\ transported x y /\
                   peek (data_ (this f')) i = Some y) /\
    (forall e, r = Throw e ->
     wf (this f') /\ size_ (this f') = size_ (this f) /\
     Capacity (this f') = Capacity (this f) /\
     (Capacity (this f) < size_ rhs -> this f' = this f))).
Proof.
  intros Hwf Hwfr. unfold assign_other. wp_step. wp_step. cbv beta.
  pose proof (wf_size _ Hwf) as Hsz. pose proof (wf_size _ Hwfr) as Hszr.
  destruct (Capacity (this f) <? size_ rhs) eqn:Ec.
  - (* copy and swap *)
    wp_step. wp_step. lens. unfold post at 1.
    destruct (Vector_copy rhs (heap f)) as [[c|e|] h1] eqn:Ecopy; cbn [fst snd].
    + destruct (Vector_copy_run _ _ _ _ Ecopy) as (Hwfc & Hszc & Hcapc & Helc & _).
      wp_step. wp_step. lens. eapply post_eq; [apply Vector_Swap_run|].
      lens. wp_step. lens.
      eapply post_mono; [apply Vector_dtor_spec|].
      intros [[]|e|] h2 Ht; lens;
        [|exfalso; eapply Ht; reflexivity|split; discriminate].
      split; [|discriminate]. intros _.
      split; [assumption|]. split; [assumption|]. split; [assumption|].
      exact Helc.
    + split; [discriminate|]. intros e0 _. lens. rewrite ?Vector_eta. auto.
    + split; discriminate.
  - apply N.ltb_ge in Ec. wp_step.
    destruct (size_ rhs <? size_ (this f)) eqn:Es.
    + (* fewer elements: assign, then destroy the rest *)
      apply N.ltb_lt in Es. wp_step. wp_step. lens.
      eapply post_mono; [apply assign_loop_spec|].
      intros [[]|e|] m1 (Hs1 & Hl1 & Hn1); lens.
      * specialize (Hl1 ltac:(discriminate)).
        destruct Hn1 as [Hin Hout]; [reflexivity|]. rewrite N2Nat.id in *.
        wp_step. wp_step. lens. eapply post_mono; [apply RawMemory_plus_spec|].
        intros [p|e|] m0 (-> & Ht & Hp); lens;
          [|exfalso; eapply Ht; reflexivity|split; discriminate].
        destruct (Hp p eq_refl) as [-> _].
        wp_step. lens. eapply post_mono; [apply destroy_n_spec|].
        intros [[]|e|] m2 (Hs2 & Ht2 & Hn2); lens;
          [|exfalso; eapply Ht2; reflexivity|split; discriminate].
        destruct Hn2 as [Hdin Hdout]; [reflexivity|].
        wp. lens. split; [|discriminate]. intros _.
        assert (Hs12 : same_shape (data_ (this f)) m2)
          by (eapply same_shape_trans; eauto).
        split; [|split; [reflexivity|split]].
        -- apply (wf_shape_live (this f)); [assumption..|lia|].
           intros i. split.
           ++ intros Hl. destruct (N.lt_ge_cases i (size_ rhs)) as [|Hge];
                [assumption|exfalso].
              destruct (N.lt_ge_cases i (size_ (this f))) as [Hlt|Hge'].
              ** destruct (Hdin i) as [_ Hnone]; [lia|].
                 rewrite Hnone in Hl. destruct Hl; discriminate.
              ** rewrite Hdout in Hl by lia. apply Hl1 in Hl.
                 apply (wf_live _ Hwf) in Hl. lia.
           ++ intros Hi. rewrite Hdout by lia.
              destruct (Hin i) as (x & y & _ & _ & ->); [lia|eauto].
        -- unfold Capacity. cbn. now destruct Hs12 as [-> _].
        -- intros i Hi. rewrite Hdout by lia. apply Hin. lia.
      * split; [discriminate|]. intros e0 _.
        specialize (Hl1 ltac:(discriminate)).
        split; [|split; [reflexivity|split; [|lia]]].
        -- apply (wf_shape_live (this f)); [assumption..|].
           intros i. rewrite Hl1. apply (wf_live _ Hwf).
        -- unfold Capacity. cbn. now destruct Hs1 as [-> _].
      * split; discriminate.
    + (* at least as many elements: assign, then copy the rest *)
      apply N.ltb_ge in Es. wp_step. wp_step. lens.
      eapply post_mono; [apply assign_loop_spec|].
      intros [[]|e|] m1 (Hs1 & Hl1 & Hn1); lens.
      * specialize (Hl1 ltac:(discriminate)).
        destruct Hn1 as [Hin Hout]; [reflexivity|]. rewrite N2Nat.id in *.
        wp_step. wp_step. eapply post_mono; [apply RawMemory_plus_spec|].
        intros [q|e|] m0 (_ & Ht & Hq);
          [|exfalso; eapply Ht; reflexivity|split; discriminate].
        destruct (Hq q eq_refl) as [-> _].
        wp_step. wp_step. lens. eapply post_mono; [apply RawMemory_plus_spec|].
        intros [p|e|] m0' (-> & Ht' & Hp); lens;
          [|exfalso; eapply Ht'; reflexivity|split; discriminate].
        destruct (Hp p eq_refl) as [-> _].
        wp_step. lens.
        assert (Hraw1 : forall i, size_ (this f) <= i -> peek m1 i = None).
        { intros i Hi. destruct (peek m1 i) eqn:E; [|reflexivity].
          assert (Hl : is_Some (peek m1 i)) by eauto.
          apply Hl1, (wf_live _ Hwf) in Hl. lia. }
        eapply post_mono;
          [apply post_conj;
             [apply uninitialized_copy_n_spec
             |apply uninitialized_copy_n_unwinds; intros i Hi; apply Hraw1; lia]|].
        intros [[]|e|] m2 ((Hs2 & Hn2) & Hun); lens.
        -- destruct Hn2 as [Hcin Hcout]; [reflexivity|].
           wp. lens. split; [|discriminate]. intros _.
           assert (Hs12 : same_shape (data_ (this f)) m2)
             by (eapply same_shape_trans; eauto).
           assert (Hall : forall i, i < size_ rhs ->
                     exists x y, peek (data_ rhs) i = Some x /\
                       transported x y /\ peek m2 i = Some y).
           { intros i Hi.
             destruct (N.lt_ge_cases i (size_ (this f))) as [Hlt|Hge].
             - rewrite Hcout by lia. apply Hin. lia.
             - destruct (Hcin (i - size_ (this f))) as (x & y & Hx & Hy & Hm);
                 [lia|].
               replace (size_ (this f) + (i - size_ (this f))) with i in * by lia.
               exists x, y. split; [assumption|].
               split; [now apply transported_copy|assumption]. }
           split; [|split; [reflexivity|split]].
           ++ apply (wf_shape_live (this f)); [assumption..|].
              intros i. split.
              ** intros Hl. destruct (N.lt_ge_cases i (size_ rhs)) as [|Hge];
                   [assumption|exfalso].
                 rewrite Hcout, Hraw1 in Hl by lia. destruct Hl; discriminate.
              ** intros Hi. destruct (Hall i Hi) as (x & y & _ & _ & ->). eauto.
           ++ unfold Capacity. cbn. now destruct Hs12 as [-> _].
           ++ exact Hall.
        -- split; [discriminate|]. intros e0 _.
           specialize (Hun e eq_refl).
           split; [|split; [reflexivity|split; [|lia]]].
           ++ apply (wf_shape_live (this f));
                [assumption|eapply same_shape_trans; eauto|assumption|].
              intros i. rewrite Hun, Hl1. apply (wf_live _ Hwf).
           ++ unfold Capacity. cbn. destruct Hs2 as [-> _].
              now destruct Hs1 as [-> _].
        -- split; discriminate.
      * split; [discriminate|]. intros e0 _.
        specialize (Hl1 ltac:(discriminate)).
        split; [|split; [reflexivity|split; [|lia]]].
        -- apply (wf_shape_live (this f)); [assumption..|].
           intros i. rewrite Hl1. apply (wf_live _ Hwf).
        -- unfold Capacity. cbn. now destruct Hs1 as [-> _].
      * split; discriminate.
Qed.

Implicit Types (w : World T) (self other : nat).

(** [self = rhs] between two distinct objects is the body of the operator
    run on [self], with [rhs] read only. *)
Lemma copy_assignment_run w self other x y :
  self <> other ->
  objects w !! self = Some x -> objects w !! other = Some y ->
  copy_assignment self other w =
    (fst (assign_other y (MkFrame (free_store w) x)),
     MkWorld (heap (snd (assign_other y (MkFrame (free_store w) x))))
             (<[self := this (snd (assign_other y (MkFrame (free_store w) x)))]>
                (objects w))).
Proof.
  intros Hne Hx Hy. unfold copy_assignment.
  rewrite (bind_run _ _ _ _ _ (exists_at_run w self x Hx)).
  rewrite (bind_run _ _ _ _ _ (exists_at_run w other y Hy)).
  assert (En : Nat.eqb self other = false) by now apply Nat.eqb_neq.
  rewrite En. cbn [negb]. rewrite (bind_run _ _ _ w w) by reflexivity.
  unfold call. rewrite (bind_run _ _ _ _ _ (exists_at_run w self x Hx)).
  rewrite (object_lookup w other y Hy).
  unfold zoom, _object. cbn [view update]. rewrite (object_lookup w self x Hx).
  destruct (assign_other y (MkFrame (free_store w) x)) as [r f']. reflexivity.
Qed.

(** X13.  Copy assignment between two distinct vectors, when it returns,
    leaves the target with the elements of the source; the source, and every
    other object, is as it was. The capacity of the target is kept when it
    suffices and is the size of the source otherwise. *)
Theorem copy_assignment_copies `{!Regular T} w self other w' :
  self <> other ->
  is_Some (objects w !! self) -> is_Some (objects w !! other) ->
  wf (object w self) -> wf (object w other) ->
  copy_assignment self other w = (Normal tt, w') ->
  wf (object w' self) /\
  elements (object w' self) = elements (object w other) /\
  Capacity (object w' self) =
    N.max (Capacity (object w self)) (size_ (object w other)) /\
  forall a, a <> self -> object w' a = object w a.
Proof.
  intros Hne [x Hx] [y Hy] Hwfx Hwfy E.
  rewrite (copy_assignment_run w self other x y Hne Hx Hy) in E.
  rewrite (object_lookup w self x Hx) in *.
  rewrite (object_lookup w other y Hy) in *.
  pose proof (assign_other_spec y (MkFrame (free_store w) x) Hwfx Hwfy) as Hp.
  unfold post in Hp.
  destruct (assign_other y (MkFrame (free_store w) x)) as [r f'].
  cbn [fst snd] in *. injection E as -> <-.
  destruct Hp as [Hn _]. destruct (Hn eq_refl) as (Hwf' & Hsz & Hcap & Hel).
  cbn [this] in *.
  assert (Hself : object (MkWorld (heap f') (<[self := this f']> (objects w))) self
                  = this f').
  { apply object_insert_eq. eapply lookup_lt_Some, Hx. }
  rewrite Hself. split; [assumption|]. split; [|split].
  - apply elements_ext; [assumption..|].
    intros i Hi. apply transported_peek. now apply Hel.
  - rewrite Hcap. destruct (Capacity x <? size_ y) eqn:Ec.
    + apply N.ltb_lt in Ec. lia.
    + apply N.ltb_ge in Ec. lia.
  - intros a Ha. rewrite object_insert_ne by congruence. reflexivity.
Qed.

(** X14.  Copy assignment that throws leaves the target in a state that
    satisfies the invariant, with its former size and capacity; when the
    capacity of the target was too small for the source, the target is
    exactly as it was. The source and every other object are as they were. *)
Theorem copy_assignment_basic_guarantee w self other e w' :
  self <> other ->
  is_Some (objects w !! self) -> is_Some (objects w !! other) ->
  wf (object w self) -> wf (object w other) ->
  copy_assignment self other w = (Throw e, w') ->
  wf (object w' self) /\
  size_ (object w' self) = size_ (object w self) /\
  Capacity (object w' self) = Capacity (object w self) /\
  (Capacity (object w self) < size_ (object w other) ->
   object w' self = object w self) /\
  forall a, a <> self -> object w' a = object w a.
Proof.
  intros Hne [x Hx] [y Hy] Hwfx Hwfy E.
  rewrite (copy_assignment_run w self other x y Hne Hx Hy) in E.
  rewrite (object_lookup w self x Hx) in *.
  rewrite (object_lookup w other y Hy) in *.
  pose proof (assign_other_spec y (MkFrame (free_store w) x) Hwfx Hwfy) as Hp.
  unfold post in Hp.
  destruct (assign_other y (MkFrame (free_store w) x)) as [r f'].
  cbn [fst snd] in *. injection E as -> <-.
  destruct Hp as [_ Ht]. destruct (Ht e eq_refl) as (Hwf' & Hsz & Hcap & Hsame).
  cbn [this] in *.
  assert (Hself : object (MkWorld (heap f') (<[self := this f']> (objects w))) self
                  = this f').
  { apply object_insert_eq. eapply lookup_lt_Some, Hx. }
  rewrite Hself. repeat (split; [assumption|]).
  intros a Ha. rewrite object_insert_ne by congruence. reflexivity.
Qed.

End Assignment.


(** ** Round trips and agreements between member functions *)

Section RoundTrips.

Context {T : Type} `{Element T}.
Implicit Types (m : RawMemory T) (v : Vector T) (f : Frame T) (p q i j : N).

Lemma bind_assoc {S A B C} (c : M S A) (k : A -> M S B) (k' : B -> M S C) s :
  bind (bind c k) k' s = bind c (fun a => bind (k a) k') s.
Proof. unfold bind. destruct (c s) as [[a|e|] s']; reflexivity. Qed.

(** X15.  [PopBack] undoes an append: the sequence and the size are those
    before the append. The capacity is the one the append left. *)
Theorem PushBack_then_PopBack `{!Regular T} f (value : Arg T) f1 :
  wf (this f) ->
  PushBack value f = (Normal tt, f1) ->
  exists v2,
    PopBack (this f1) = (Normal tt, v2) /\
    elements v2 = elements (this f) /\
    size_ v2 = size_ (this f) /\
    Capacity v2 = Capacity (this f1) /\
    Capacity (this f) <= Capacity v2.
Proof.
  intros Hwf E.
  pose proof (post_run _ _ _ _ _ (PushBack_spec value f Hwf) E) as [Hle Hp].
  specialize (Hp eq_refl). destruct Hp as [Hwf1 Hsz Hcap Hnew Hold].
  eexists. split; [apply PopBack_run; [assumption|lia]|].
  rewrite Hsz. replace (size_ (this f) + 1 - 1) with (size_ (this f)) by lia.
  split; [|split; [reflexivity|split; [reflexivity|exact Hle]]].
  apply elements_agree; [assumption|reflexivity|].
  cbn [data_ size_]. intros i Hi. rewrite peek_poke_ne by lia.
  apply transported_peek. now apply Hold.
Qed.

(** X16.  [Insert] at [end()] is [PushBack]: the same vector and the same
    free store result, and the iterator returned is the position of the new
    element. *)
Theorem Insert_at_end_is_PushBack f (value : Arg T) :
  wf (this f) ->
  snd (Insert (size_ (this f)) value f) = snd (PushBack value f) /\
  (forall f', PushBack value f = (Normal tt, f') ->
              Insert (size_ (this f)) value f = (Normal (size_ (this f)), f')) /\
  (forall e f', PushBack value f = (Throw e, f') ->
                Insert (size_ (this f)) value f = (Throw e, f')).
Proof.
  intros Hwf. pose proof (wf_size _ Hwf) as Hs.
  assert (Eins : Insert (size_ (this f)) value f = EmplaceBack (forward value) f).
  { unfold Insert, Emplace.
    rewrite (bind_run _ _ _ 0 f)
      by (rewrite (zoom_run _this _ f _ _ (begin_run (this f)));
          cbn [update _this]; now rewrite Frame_eta).
    rewrite (bind_run _ _ _ (size_ (this f)) f)
      by (rewrite (zoom_run _this _ f _ _ (end_run (this f) Hs));
          cbn [update _this]; now rewrite Frame_eta).
    assert (Ha : ((0 <=? size_ (this f)) && (size_ (this f) <=? size_ (this f)))
                 = true).
    { apply andb_true_iff. split; apply N.leb_le; lia. }
    rewrite Ha. rewrite (bind_run _ _ _ tt f) by reflexivity.
    now rewrite N.eqb_refl. }
  assert (Eeb : EmplaceBack (forward value) f =
            bind (PushBack value)
                 (fun _ => zoom _this_data (RawMemory_index (size_ (this f)))) f).
  { unfold EmplaceBack, PushBack. rewrite bind_assoc.
    rewrite !(bind_run _ _ _ (this f) f) by reflexivity.
    rewrite bind_assoc. reflexivity. }
  rewrite Eins, Eeb. unfold bind at 1 2 3.
  pose proof (PushBack_spec value f Hwf) as Hpost. unfold post in Hpost.
  destruct (PushBack value f) as [[[]|e|] f1]; cbn [fst snd] in *.
  - destruct Hpost as [_ Hp]. specialize (Hp eq_refl).
    assert (Hidx : zoom _this_data (RawMemory_index (size_ (this f))) f1
                   = (Normal (size_ (this f)), f1)).
    { assert (Hlt : size_ (this f) < capacity_ (view _this_data f1)).
      { cbn [view _this_data compose_lens _this _data].
        pose proof (pushed_size _ _ _ Hp).
        pose proof (wf_size _ (pushed_wf _ _ _ Hp)).
        unfold Capacity in *. lia. }
      rewrite (zoom_run _this_data _ f1 _ _
                 (RawMemory_index_run (size_ (this f)) _ Hlt)).
      cbn [update _this_data compose_lens _this _data view].
      now rewrite Vector_eta, Frame_eta. }
    rewrite Hidx. cbn [fst snd].
    split; [reflexivity|]. split; [|discriminate].
    intros f' [= <-]. reflexivity.
  - split; [reflexivity|]. split; [discriminate|].
    intros e' f' [= <- <-]. reflexivity.
  - split; [reflexivity|]. split; discriminate.
Qed.

(** X17.  [operator[]] and [At] agree on the indices of elements: both
    return a reference to slot [index] and change nothing. From [size] on
    [At] throws, while [operator[]] leaves the language by its assertion. *)
Theorem index_agrees_with_At v index :
  wf v ->
  (index < size_ v ->
   Vector_index index v = (Normal index, v) /\
   At index v = (Normal index, v)) /\
  (size_ v <= index ->
   Vector_index index v = (Undefined, v) /\
   exists e, At index v = (Throw e, v)).
Proof.
  intros Hwf. pose proof (wf_size _ Hwf) as Hs. unfold Capacity in Hs.
  unfold Vector_index, At.
  rewrite !(bind_run _ _ _ (size_ v) v) by reflexivity.
  split; intros Hi.
  - assert (E1 : (index <? size_ v) = true) by (apply N.ltb_lt; lia).
    assert (E2 : (size_ v <=? index) = false) by (apply N.leb_gt; lia).
    rewrite E1, E2. rewrite (bind_run _ _ _ tt v) by reflexivity.
    assert (Hlt : index < capacity_ (view _data v)) by (cbn; lia).
    rewrite (zoom_run _data _ v _ _ (RawMemory_index_run index _ Hlt)).
    cbn [update view _data]. now rewrite Vector_eta.
  - assert (E1 : (index <? size_ v) = false) by (apply N.ltb_ge; lia).
    assert (E2 : (size_ v <=? index) = true) by (apply N.leb_le; lia).
    rewrite E1, E2. split; [reflexivity|]. eexists. reflexivity.
Qed.

Implicit Types (w : World T) (a b : nat).

(** X18.  [Swap] exchanges the storages and the sizes of two vectors and
    touches nothing else, not even the free store; swapping twice gives back
    the initial state. *)
Theorem Swap_exchanges w a b :
  is_Some (objects w !! a) -> is_Some (objects w !! b) ->
  exists w1,
    Swap a b w = (Normal tt, w1) /\
    free_store w1 = free_store w /\
    object w1 a = object w b /\
    object w1 b = object w a /\
    (forall c, c <> a -> c <> b -> object w1 c = object w c) /\
    Swap a b w1 = (Normal tt, w).
Proof.
  intros [x Hx] [y Hy].
  pose proof (lookup_lt_Some _ _ _ Hx) as Ha.
  pose proof (lookup_lt_Some _ _ _ Hy) as Hb.
  eexists. split; [apply (Swap_run w a b x y Hx Hy)|].
  split; [reflexivity|].
  rewrite (object_lookup w a x Hx), (object_lookup w b y Hy).
  split; [|split; [|split]].
  - destruct (decide (a = b)) as [->|Hne].
    + rewrite object_insert_eq by (rewrite length_insert; lia). congruence.
    + rewrite object_insert_ne by congruence. now apply object_insert_eq.
  - apply object_insert_eq. rewrite length_insert. lia.
  - intros c Hca Hcb. rewrite !object_insert_ne by congruence.
    unfold object. reflexivity.
  - set (l1 := <[b := x]> (<[a := y]> (objects w))).
    assert (Hx1 : l1 !! a = Some (if decide (a = b) then x else y)).
    { unfold l1. destruct (decide (a = b)) as [->|Hne].
      - apply list_lookup_insert_eq. rewrite length_insert. lia.
      - rewrite list_lookup_insert_ne by congruence.
        now apply list_lookup_insert_eq. }
    assert (Hy1 : l1 !! b = Some x).
    { unfold l1. apply list_lookup_insert_eq. rewrite length_insert. lia. }
    rewrite (Swap_run (MkWorld (free_store w) l1) a b _ _ Hx1 Hy1).
    cbn [free_store objects]. f_equal. destruct w as [h l]. cbn in *. f_equal.
    unfold l1. apply list_eq. intros n.
    destruct (decide (n = b)) as [->|Hnb].
    + rewrite list_lookup_insert_eq by (rewrite !length_insert; lia).
      destruct (decide (a = b)) as [->|Hne]; congruence.
    + rewrite list_lookup_insert_ne by congruence.
      destruct (decide (n = a)) as [->|Hna].
      * rewrite list_lookup_insert_eq by (rewrite !length_insert; lia).
        congruence.
      * rewrite !list_lookup_insert_ne by congruence. reflexivity.
Qed.

End RoundTrips.

(** ** The blocks of the free store *)

Section Keeps.

Context {S X : Type} (g : S -> X).

Lemma keeps_ret {A} (a : A) : keeps g (ret a).
Proof. intros s _. reflexivity. Qed.

Lemma keeps_throw {A} e : keeps g (throw (A := A) e).
Proof. intros s _. reflexivity. Qed.

Lemma keeps_undefined {A} : keeps g (undefined (A := A)).
Proof. intros s Hd. now destruct Hd. Qed.

Lemma keeps_get : keeps g get.
Proof. intros s _. reflexivity. Qed.

Lemma keeps_gets {A} (f : S -> A) : keeps g (gets f).
Proof. intros s _. reflexivity. Qed.

Lemma keeps_cassert c : keeps g (cassert c).
Proof. intros s _. destruct c; reflexivity. Qed.

Lemma keeps_modify f : (forall s, g (f s) = g s) -> keeps g (modify f).
Proof. intros Hf s _. apply Hf. Qed.

Lemma keeps_bind {A B} (c : M S A) (k : A -> M S B) :
  keeps g c -> (forall a, keeps g (k a)) -> keeps g (bind c k).
Proof.
  intros Hc Hk s. unfold bind. specialize (Hc s).
  destruct (c s) as [[a|e|] s1]; cbn [fst snd] in *.
  - intros Hd. rewrite (Hk a s1 Hd). now apply Hc.
  - intros _. now apply Hc.
  - intros Hd. now destruct Hd.
Qed.

Lemma keeps_on_throw {A} (c : M S A) h :
  keeps g c -> keeps g h -> keeps g (on_throw c h).
Proof.
  intros Hc Hh s. unfold on_throw. specialize (Hc s).
  destruct (c s) as [[a|e|] s1]; cbn [fst snd] in *.
  - intros _. now apply Hc.
  - specialize (Hh s1). destruct (h s1) as [[u|e'|] s2]; cbn [fst snd] in *;
      intros Hd; try (rewrite Hh by discriminate; now apply Hc).
    now destruct Hd.
  - intros Hd. now destruct Hd.
Qed.

Lemma keeps_on_const {S' A} (c : M S' A) s' : keeps g (on_const (S := S) c s').
Proof.
  intros s. unfold on_const. destruct (fst (c s')); cbn; reflexivity.
Qed.

(** A computation on a part of the state that [g] does not look at. *)
Lemma keeps_zoom_apart {S' A} (l : Lens S S') (c : M S' A) :
  (forall s' s, g (update l s' s) = g s) -> keeps g (zoom l c).
Proof.
  intros Hl s _. unfold zoom. destruct (c (view l s)) as [r s']. apply Hl.
Qed.

(** A computation on a part of the state that keeps what [g] needs of
    that part. *)
Lemma keeps_zoom {S' X' A} (g' : S' -> X') (l : Lens S S') (c : M S' A) :
  keeps g' c ->
  (forall s' s, g' s' = g' (view l s) -> g (update l s' s) = g s) ->
  keeps g (zoom l c).
Proof.
  intros Hc Hl s. unfold zoom. specialize (Hc (view l s)).
  destruct (c (view l s)) as [r s']. cbn [fst snd] in *.
  intros Hd. apply Hl. now apply Hc.
Qed.

End Keeps.

Ltac keeps_step :=
  lazymatch goal with
  | |- keeps _ (bind _ _) => apply keeps_bind; [|intros ?]
  | |- keeps _ (ret _) => apply keeps_ret
  | |- keeps _ (throw _) => apply keeps_throw
  | |- keeps _ undefined => apply keeps_undefined
  | |- keeps _ get => apply keeps_get
  | |- keeps _ (gets _) => apply keeps_gets
  | |- keeps _ (cassert _) => apply keeps_cassert
  | |- keeps _ (on_throw _ _) => apply keeps_on_throw
  | |- keeps _ (on_const _ _) => apply keeps_on_const
  | |- keeps _ (if ?c then _ else _) => destruct c
  | |- keeps _ (match ?o with Some _ => _ | None => _ end) => destruct o
  | |- keeps _ (let '(_, _) := ?p in _) => destruct p
  end.

Section Blocks.

Context {T : Type} `{Element T}.
Implicit Types (m nd : RawMemory T) (v : Vector T) (f : Frame T) (h : Heap)
  (p q i j : N).

Lemma owns_poke p o m : owns (poke p o m) = owns m.
Proof. unfold owns, poke. cbn. now destruct (buffer_ m). Qed.

(** *** Operations on slots neither obtain nor release a block *)

Lemma keeps_load p : keeps (owns (T := T)) (load p).
Proof. unfold load. repeat keeps_step. Qed.

Lemma keeps_store p x : keeps (owns (T := T)) (store p x).
Proof.
  intros s. unfold store, bind, get, put. cbn.
  destruct (peek s p); cbn; intros _; [apply owns_poke|reflexivity].
Qed.

Lemma keeps_placement_new p r : keeps (owns (T := T)) (placement_new p r).
Proof.
  intros s. unfold placement_new. destruct r as [x|]; [|reflexivity].
  unfold bind, get, put. cbn.
  destruct (in_block s p); cbn; intros _; [apply owns_poke|reflexivity].
Qed.

Lemma keeps_destroy_at p : keeps (owns (T := T)) (destroy_at p).
Proof.
  intros s. unfold destroy_at, bind, get, put. cbn.
  destruct (peek s p); cbn; intros _; [apply owns_poke|reflexivity].
Qed.

Lemma keeps_RawMemory_plus (g : RawMemory T -> Z) offset :
  keeps g (RawMemory_plus offset).
Proof. unfold RawMemory_plus. repeat keeps_step. Qed.

Lemma keeps_RawMemory_index (g : RawMemory T -> Z) index :
  keeps g (RawMemory_index index).
Proof. unfold RawMemory_index. repeat keeps_step. Qed.

Lemma keeps_destroy_loop k : forall p, keeps (owns (T := T)) (destroy_loop k p).
Proof.
  induction k as [|k IH]; intros p; cbn [destroy_loop].
  - keeps_step.
  - keeps_step; [apply keeps_destroy_at|apply IH].
Qed.

Lemma keeps_destroy_n first n : keeps (owns (T := T)) (destroy_n first n).
Proof. apply keeps_destroy_loop. Qed.

Lemma keeps_value_construct_loop first k :
  forall cur, keeps (owns (T := T)) (value_construct_loop first k cur).
Proof.
  induction k as [|k IH]; intros cur; cbn [value_construct_loop].
  - keeps_step.
  - keeps_step; [|apply IH].
    keeps_step; [apply keeps_placement_new|apply keeps_destroy_n].
Qed.

Lemma keeps_uninitialized_value_construct_n first n :
  keeps (owns (T := T)) (uninitialized_value_construct_n first n).
Proof. apply keeps_value_construct_loop. Qed.

Lemma keeps_copy_loop src d_first k :
  forall first cur, keeps (owns (T := T)) (copy_loop src d_first k first cur).
Proof.
  induction k as [|k IH]; intros first cur; cbn [copy_loop].
  - keeps_step.
  - keeps_step; [|keeps_step]. keeps_step; [|apply IH].
    keeps_step; [apply keeps_placement_new|apply keeps_destroy_n].
Qed.

Lemma keeps_uninitialized_copy_n src first n d_first :
  keeps (owns (T := T)) (uninitialized_copy_n src first n d_first).
Proof. apply keeps_copy_loop. Qed.

Lemma keeps_fst {A} (c : M (RawMemory T) A) :
  keeps owns c -> keeps (owns_both (T := T)) (zoom fst_lens c).
Proof.
  intros Hc. apply (keeps_zoom _ owns); [assumption|].
  intros s' s E. unfold owns_both. cbn. now rewrite E.
Qed.

Lemma keeps_snd {A} (c : M (RawMemory T) A) :
  keeps owns c -> keeps (owns_both (T := T)) (zoom snd_lens c).
Proof.
  intros Hc. apply (keeps_zoom _ owns); [assumption|].
  intros s' s E. unfold owns_both. cbn. now rewrite E.
Qed.

Lemma keeps_move_loop d_first k :
  forall first cur, keeps (owns_both (T := T)) (move_loop d_first k first cur).
Proof.
  induction k as [|k IH]; intros first cur; cbn [move_loop].
  - keeps_step.
  - keeps_step; [apply keeps_fst, keeps_load|].
    keeps_step; [apply keeps_fst, keeps_store|].
    keeps_step; [|apply IH].
    apply keeps_snd. keeps_step; [apply keeps_placement_new|apply keeps_destroy_n].
Qed.

Lemma keeps_uninitialized_move_n first n d_first :
  keeps (owns_both (T := T)) (uninitialized_move_n first n d_first).
Proof. apply keeps_move_loop. Qed.

Lemma keeps_RawMemory_Swap : keeps (owns_both (T := T)) (RawMemory_Swap (T := T)).
Proof.
  unfold RawMemory_Swap. apply keeps_modify. intros [a b].
  unfold owns_both, owns. cbn. lia.
Qed.

Lemma keeps_move_assign_at d s : keeps (owns (T := T)) (move_assign_at d s).
Proof.
  unfold move_assign_at. keeps_step; [apply keeps_load|].
  keeps_step; [apply keeps_load|].
  destruct (move_assign _ _) as [[ok y'] x'].
  keeps_step; [apply keeps_store|]. keeps_step; [apply keeps_store|].
  repeat keeps_step.
Qed.

Lemma keeps_move_forward_loop k :
  forall first d_first, keeps (owns (T := T)) (move_forward_loop k first d_first).
Proof.
  induction k as [|k IH]; intros first d_first; cbn [move_forward_loop].
  - keeps_step.
  - keeps_step; [apply keeps_move_assign_at|apply IH].
Qed.

Lemma keeps_move_backward_loop k :
  forall last d_last, keeps (owns (T := T)) (move_backward_loop k last d_last).
Proof.
  induction k as [|k IH]; intros last d_last; cbn [move_backward_loop].
  - keeps_step.
  - keeps_step; [apply keeps_move_assign_at|apply IH].
Qed.

Lemma keeps_std_move_backward first last d_last :
  keeps (owns (T := T)) (std_move_backward first last d_last).
Proof.
  unfold std_move_backward. keeps_step; [keeps_step|].
  apply keeps_move_backward_loop.
Qed.

Lemma keeps_move_construct_at d s : keeps (owns (T := T)) (move_construct_at d s).
Proof.
  unfold move_construct_at. keeps_step; [apply keeps_load|].
  keeps_step; [apply keeps_store|apply keeps_placement_new].
Qed.

Lemma keeps_move_assign_from d tmp : keeps (owns (T := T)) (move_assign_from d tmp).
Proof.
  unfold move_assign_from. keeps_step; [apply keeps_load|].
  destruct (move_assign _ _) as [[ok y'] x'].
  keeps_step; [apply keeps_store|]. repeat keeps_step.
Qed.

Lemma keeps_copy_assign_from d x : keeps (owns (T := T)) (copy_assign_from d x).
Proof.
  unfold copy_assign_from. keeps_step; [apply keeps_load|].
  destruct (copy_assign _ _) as [ok y'].
  keeps_step; [apply keeps_store|]. repeat keeps_step.
Qed.

Lemma keeps_assign_loop rhs_data k :
  forall index, keeps (owns (T := T)) (assign_loop rhs_data k index).
Proof.
  induction k as [|k IH]; intros index; cbn [assign_loop].
  - keeps_step.
  - keeps_step; [keeps_step|]. keeps_step; [apply keeps_RawMemory_index|].
    keeps_step; [|apply IH].
    keeps_step; [apply keeps_copy_assign_from|keeps_step].
Qed.

(** *** The storage of the vector *)

Lemma keeps_this_data {A} (c : M (RawMemory T) A) :
  keeps owns c -> keeps (stray (T := T)) (zoom _this_data c).
Proof.
  intros Hc. apply (keeps_zoom _ owns); [assumption|].
  intros s' s E. unfold stray. cbn. now rewrite E.
Qed.

Lemma keeps_this_size {A} (c : M N A) : keeps (stray (T := T)) (zoom _this_size c).
Proof. apply keeps_zoom_apart. intros s' s. reflexivity. Qed.

Lemma keeps_old_data {A} (c : M (RawMemory T) A) :
  keeps owns c -> keeps (stray_in_scope (T := T)) (zoom _old_data c).
Proof.
  intros Hc. apply (keeps_zoom _ owns); [assumption|].
  intros s' s E. unfold stray_in_scope, stray. cbn. now rewrite E.
Qed.

Lemma keeps_new_data {A} (c : M (RawMemory T) A) :
  keeps owns c -> keeps (stray_in_scope (T := T)) (zoom _new_data c).
Proof.
  intros Hc. apply (keeps_zoom _ owns); [assumption|].
  intros s' s E. unfold stray_in_scope, stray. cbn. now rewrite E.
Qed.

Lemma keeps_old_new {A} (c : M (RawMemory T * RawMemory T) A) :
  keeps owns_both c -> keeps (stray_in_scope (T := T)) (zoom _old_new c).
Proof.
  intros Hc. apply (keeps_zoom _ owns_both); [assumption|].
  intros [a b] [f nd]. unfold owns_both, stray_in_scope, stray. cbn. lia.
Qed.

Lemma keeps_relocate first n d_first :
  keeps (stray_in_scope (T := T)) (relocate first n d_first).
Proof. apply keeps_old_new, keeps_uninitialized_move_n. Qed.

Lemma keeps_duplicate first n d_first :
  keeps (stray_in_scope (T := T)) (duplicate first n d_first).
Proof.
  unfold duplicate. keeps_step; [keeps_step|].
  apply keeps_new_data, keeps_uninitialized_copy_n.
Qed.

Lemma keeps_transfer first n d_first :
  keeps (stray_in_scope (T := T)) (transfer first n d_first).
Proof.
  unfold transfer. destruct relocates;
    [apply keeps_relocate|apply keeps_duplicate].
Qed.

(** What the constructor and the destructor of [RawMemory] do to the free
    store. *)
Lemma RawMemory_ctor_blocks n h :
  match fst (RawMemory_ctor (T := T) n h) with
  | Normal m =>
      outstanding (snd (RawMemory_ctor (T := T) n h)) = (outstanding h + owns m)%Z
  | Throw _ => outstanding (snd (RawMemory_ctor (T := T) n h)) = outstanding h
  | Undefined => False
  end.
Proof.
  unfold RawMemory_ctor, Allocate. destruct (n =? 0).
  - cbn. unfold owns. cbn. lia.
  - unfold bind, operator_new. destruct (PTRDIFF_MAX <? _); [reflexivity|].
    destruct (oracle h) as [|[] o]; cbn; unfold outstanding, owns; cbn; lia.
Qed.

Lemma RawMemory_dtor_blocks m h :
  exists h', RawMemory_dtor m h = (Normal tt, h') /\
             outstanding h' = (outstanding h - owns m)%Z.
Proof.
  unfold RawMemory_dtor, Deallocate, operator_delete, owns.
  destruct (buffer_ m); cbn; eexists; (split; [reflexivity|]);
    unfold outstanding; cbn; lia.
Qed.

(** A growth step: the block obtained is either the new storage of the
    vector, the old one being released, or it is released itself. *)
Lemma keeps_growth {A} n (body : M (Frame T * RawMemory T) A) :
  keeps (stray_in_scope (T := T)) body ->
  keeps (stray (T := T)) (new_data <- new_RawMemory n ;;
               scoped delete_RawMemory new_data body).
Proof.
  intros Hbody f. unfold bind, new_RawMemory, zoom. lens.
  pose proof (RawMemory_ctor_blocks n (heap f)) as Hc.
  destruct (RawMemory_ctor n (heap f)) as [[nd|e|] h1]; cbn [fst snd] in *;
    [|intros _; unfold stray; cbn; now rewrite Hc|contradiction].
  unfold scoped. specialize (Hbody (MkFrame h1 (this f), nd)).
  destruct (body (MkFrame h1 (this f), nd)) as [[a|e|] [f2 nd2]];
    cbn [fst snd] in *; [| |intros Hd; now destruct Hd].
  - unfold delete_RawMemory, zoom. lens.
    destruct (RawMemory_dtor_blocks nd2 (heap f2)) as (h3 & -> & Hd).
    cbn [fst snd].
    intros _. specialize (Hbody ltac:(discriminate)).
    unfold stray_in_scope, stray in *. cbn [fst snd heap this] in *. lia.
  - unfold delete_RawMemory, zoom. lens.
    destruct (RawMemory_dtor_blocks nd2 (heap f2)) as (h3 & -> & Hd).
    cbn [fst snd].
    intros _. specialize (Hbody ltac:(discriminate)).
    unfold stray_in_scope, stray in *. cbn [fst snd heap this] in *. lia.
Qed.

Lemma keeps_append_step made n :
  keeps (stray_in_scope (T := T))
    (p <- zoom _new_data (RawMemory_plus n) ;;
     zoom _new_data (placement_new p made) ;;
     transfer 0 n 0 ;;
     zoom _old_data (destroy_n 0 n) ;;
     zoom _old_new RawMemory_Swap).
Proof.
  keeps_step; [apply keeps_new_data, keeps_RawMemory_plus|].
  keeps_step; [apply keeps_new_data, keeps_placement_new|].
  keeps_step; [apply keeps_transfer|].
  keeps_step; [apply keeps_old_data, keeps_destroy_n|].
  apply keeps_old_new, keeps_RawMemory_Swap.
Qed.

Lemma keeps_PushBack value : keeps (stray (T := T)) (PushBack value).
Proof.
  unfold PushBack. keeps_step; [keeps_step|].
  keeps_step; [|apply keeps_this_size].
  keeps_step.
  - apply keeps_growth, keeps_append_step.
  - keeps_step; [apply keeps_this_data, keeps_RawMemory_plus|].
    apply keeps_this_data, keeps_placement_new.
Qed.

Lemma keeps_EmplaceBack made : keeps (stray (T := T)) (EmplaceBack made).
Proof.
  unfold EmplaceBack. keeps_step; [keeps_step|].
  keeps_step; [|keeps_step; [apply keeps_this_size
                            |apply keeps_this_data, keeps_RawMemory_index]].
  keeps_step.
  - apply keeps_growth, keeps_append_step.
  - keeps_step; [apply keeps_this_data, keeps_RawMemory_plus|].
    apply keeps_this_data, keeps_placement_new.
Qed.

Lemma keeps_this {A} (c : M (Vector T) A) :
  keeps (fun v => owns (data_ v)) c -> keeps (stray (T := T)) (zoom _this c).
Proof.
  intros Hc. apply (keeps_zoom _ (fun v => owns (data_ v))); [assumption|].
  intros s' s E. unfold stray. cbn in *. now rewrite E.
Qed.

Lemma keeps_begin : keeps (fun v : Vector T => owns (data_ v)) begin_.
Proof.
  unfold begin_, GetAddress. apply (keeps_zoom _ owns); [apply keeps_ret|].
  intros s' s E. cbn in *. assumption.
Qed.

Lemma keeps_end : keeps (fun v : Vector T => owns (data_ v)) end_.
Proof.
  unfold end_. keeps_step; [keeps_step|].
  apply (keeps_zoom _ owns); [apply keeps_RawMemory_plus|].
  intros s' s E. cbn in *. assumption.
Qed.

Lemma keeps_Emplace pos made : keeps (stray (T := T)) (Emplace pos made).
Proof.
  unfold Emplace. keeps_step; [apply keeps_this, keeps_begin|].
  keeps_step; [apply keeps_this, keeps_end|].
  keeps_step; [keeps_step|]. keeps_step; [apply keeps_EmplaceBack|].
  keeps_step; [keeps_step|].
  keeps_step;
    [|keeps_step; [apply keeps_this_size|];
      keeps_step; [apply keeps_this, keeps_begin|keeps_step]].
  keeps_step.
  - apply keeps_growth.
    keeps_step; [apply keeps_new_data, keeps_RawMemory_plus|].
    keeps_step; [apply keeps_new_data, keeps_placement_new|].
    keeps_step; [|keeps_step; [apply keeps_old_data, keeps_destroy_n|];
                  apply keeps_old_new, keeps_RawMemory_Swap].
    keeps_step.
    + keeps_step; [apply keeps_relocate|].
      keeps_step; [apply keeps_old_data, keeps_RawMemory_plus|].
      keeps_step; [apply keeps_new_data, keeps_RawMemory_plus|].
      apply keeps_relocate.
    + keeps_step; [apply keeps_duplicate|].
      keeps_step; [apply keeps_old_data, keeps_RawMemory_plus|].
      keeps_step; [apply keeps_new_data, keeps_RawMemory_plus|].
      apply keeps_duplicate.
  - keeps_step; [|keeps_step].
    keeps_step; [apply keeps_this_data, keeps_RawMemory_index|].
    keeps_step; [apply keeps_this_data, keeps_move_construct_at|].
    keeps_step; [apply keeps_this_data, keeps_RawMemory_plus|].
    keeps_step; [apply keeps_this_data, keeps_std_move_backward|].
    keeps_step; [apply keeps_this_data, keeps_RawMemory_index|].
    apply keeps_this_data, keeps_move_assign_from.
Qed.

Lemma keeps_Reserve n : keeps (stray (T := T)) (Reserve n).
Proof.
  unfold Reserve. keeps_step; [keeps_step|]. keeps_step; [keeps_step|].
  apply keeps_growth.
  keeps_step; [apply keeps_transfer|].
  keeps_step; [apply keeps_old_data, keeps_destroy_n|].
  apply keeps_old_new, keeps_RawMemory_Swap.
Qed.

Lemma keeps_Resize n : keeps (stray (T := T)) (Resize n).
Proof.
  unfold Resize. keeps_step; [keeps_step|].
  keeps_step; [|apply keeps_this_size].
  keeps_step.
  - keeps_step; [apply keeps_Reserve|].
    keeps_step; [apply keeps_this_data, keeps_RawMemory_plus|].
    apply keeps_this_data, keeps_uninitialized_value_construct_n.
  - keeps_step; [apply keeps_this_data, keeps_RawMemory_plus|].
    apply keeps_this_data, keeps_destroy_n.
Qed.

(** X19.  Whether it returns or throws, a member function that can allocate
    leaves in the free store exactly the blocks that were there, apart from
    the one the vector holds: the block it obtained is released on every
    path on which it does not become the storage of the vector, and the old
    storage is released when it does. Nothing leaks and nothing is released
    twice. *)
Theorem member_functions_keep_blocks :
  (forall value : Arg T, keeps (stray (T := T)) (PushBack value)) /\
  (forall made : option T, keeps (stray (T := T)) (EmplaceBack made)) /\
  (forall pos (value : Arg T), keeps (stray (T := T)) (Insert pos value)) /\
  (forall pos (made : option T), keeps (stray (T := T)) (Emplace pos made)) /\
  (forall n, keeps (stray (T := T)) (Reserve n)) /\
  (forall n, keeps (stray (T := T)) (Resize n)).
Proof.
  split; [apply keeps_PushBack|]. split; [apply keeps_EmplaceBack|].
  split; [intros; apply keeps_Emplace|]. split; [apply keeps_Emplace|].
  split; [apply keeps_Reserve|apply keeps_Resize].
Qed.

End Blocks.

(** ** Constructors, destructor and assignment in the free store *)

Section Lifetime.

Context {T : Type} `{Element T}.
Implicit Types (m nd : RawMemory T) (v rhs : Vector T) (f : Frame T) (h : Heap)
  (p q i j : N).

Lemma Vector_sized_blocks n h :
  match fst (Vector_sized (T := T) n h) with
  | Normal v =>
      outstanding (snd (Vector_sized (T := T) n h))
      = (outstanding h + owns (data_ v))%Z
  | Throw _ => outstanding (snd (Vector_sized (T := T) n h)) = outstanding h
  | Undefined => True
  end.
Proof.
  unfold Vector_sized, bind.
  pose proof (RawMemory_ctor_blocks n h) as Hc.
  destruct (RawMemory_ctor n h) as [[m|e|] h1]; cbn [fst snd] in *;
    [|assumption|exact I].
  change ((let (o, s') := GetAddress m in
           match o with
           | Normal a => uninitialized_value_construct_n a n s'
           | Throw e => (Throw e, s')
           | Undefined => (Undefined, s')
           end))
    with (uninitialized_value_construct_n 0 n m).
  pose proof (keeps_uninitialized_value_construct_n 0 n m) as Hk.
  destruct (uninitialized_value_construct_n 0 n m) as [[[]|e|] m'];
    cbn [fst snd] in *; [| |exact I].
  - cbn [data_]. rewrite Hk by discriminate. exact Hc.
  - destruct (RawMemory_dtor_blocks m' h1) as (h2 & -> & Hd). cbn [fst snd].
    rewrite Hd, Hk by discriminate. lia.
Qed.

Lemma Vector_copy_blocks other h :
  match fst (Vector_copy other h) with
  | Normal v =>
      outstanding (snd (Vector_copy other h))
      = (outstanding h + owns (data_ v))%Z
  | Throw _ => outstanding (snd (Vector_copy other h)) = outstanding h
  | Undefined => True
  end.
Proof.
  unfold Vector_copy, bind.
  pose proof (RawMemory_ctor_blocks (size_ other) h) as Hc.
  destruct (RawMemory_ctor (size_ other) h) as [[m|e|] h1]; cbn [fst snd] in *;
    [|assumption|exact I].
  pose proof (keeps_uninitialized_copy_n (data_ other) 0 (size_ other) 0 m) as Hk.
  destruct (uninitialized_copy_n (data_ other) 0 (size_ other) 0 m)
    as [[[]|e|] m']; cbn [fst snd] in *; [| |exact I].
  - cbn [data_]. rewrite Hk by discriminate. exact Hc.
  - destruct (RawMemory_dtor_blocks m' h1) as (h2 & -> & Hd). cbn [fst snd].
    rewrite Hd, Hk by discriminate. lia.
Qed.

Lemma Vector_dtor_blocks v h :
  fst (Vector_dtor v h) <> Undefined ->
  Vector_dtor v h = (Normal tt, snd (Vector_dtor v h)) /\
  outstanding (snd (Vector_dtor v h)) = (outstanding h - owns (data_ v))%Z.
Proof.
  unfold Vector_dtor.
  pose proof (keeps_destroy_n 0 (size_ v) (data_ v)) as Hk.
  pose proof (destroy_n_spec 0 (size_ v) (data_ v)) as Hs. unfold post in Hs.
  destruct (destroy_n 0 (size_ v) (data_ v)) as [[[]|e|] m'];
    cbn [fst snd] in *.
  - intros _. destruct (RawMemory_dtor_blocks m' h) as (h2 & -> & Hd).
    cbn [fst snd]. split; [reflexivity|].
    rewrite Hd, Hk by discriminate. reflexivity.
  - destruct Hs as (_ & Ht & _). exfalso. eapply Ht. reflexivity.
  - intros Hd. now destruct Hd.
Qed.

(** X20.  The constructors that allocate leave no block behind when they
    throw, and exactly the block of the new vector when they return; the
    destructor releases that block. *)
Theorem constructors_and_destructor_balance h :
  (forall n,
     match Vector_sized (T := T) n h with
     | (Normal v, h') => outstanding h' = (outstanding h + owns (data_ v))%Z
     | (Throw _, h') => outstanding h' = outstanding h
     | (Undefined, _) => True
     end) /\
  (forall other,
     match Vector_copy other h with
     | (Normal v, h') => outstanding h' = (outstanding h + owns (data_ v))%Z
     | (Throw _, h') => outstanding h' = outstanding h
     | (Undefined, _) => True
     end) /\
  (forall v,
     match Vector_dtor v h with
     | (Normal _, h') => outstanding h' = (outstanding h - owns (data_ v))%Z
     | (Throw _, _) => False
     | (Undefined, _) => True
     end).
Proof.
  split; [|split].
  - intros n. pose proof (Vector_sized_blocks n h) as Hb.
    destruct (Vector_sized n h) as [[v|e|] h']; exact Hb.
  - intros other. pose proof (Vector_copy_blocks other h) as Hb.
    destruct (Vector_copy other h) as [[v|e|] h']; exact Hb.
  - intros v. pose proof (Vector_dtor_blocks v h) as Hb.
    destruct (Vector_dtor v h) as [[[]|e|] h']; cbn [fst snd] in *;
      [apply Hb; discriminate| |exact I].
    destruct Hb as [Hb _]; [discriminate|discriminate].
Qed.

Lemma keeps_assign_other rhs : keeps (stray (T := T)) (assign_other rhs).
Proof.
  unfold assign_other. keeps_step; [keeps_step|]. keeps_step.
  - (* copy and swap *)
    intros f. unfold bind, zoom. lens.
    pose proof (Vector_copy_blocks rhs (heap f)) as Hc.
    destruct (Vector_copy rhs (heap f)) as [[c|e|] h1]; cbn [fst snd] in *;
      [|intros _; unfold stray; cbn; now rewrite Hc|intros Hd; now destruct Hd].
    unfold scoped, zoom. lens. rewrite Vector_Swap_run. lens.
    pose proof (Vector_dtor_blocks (this f) h1) as Hd.
    destruct (Vector_dtor (this f) h1) as [[[]|e|] h2]; cbn [fst snd] in *.
    + intros _. destruct Hd as [_ Hd]; [discriminate|].
      unfold stray. cbn. lia.
    + destruct Hd as [Hd _]; [discriminate|discriminate].
    + intros Hu. now destruct Hu.
  - keeps_step; [|apply keeps_this_size].
    keeps_step.
    + keeps_step; [apply keeps_this_data, keeps_assign_loop|].
      keeps_step; [apply keeps_this_data, keeps_RawMemory_plus|].
      apply keeps_this_data, keeps_destroy_n.
    + keeps_step; [apply keeps_this_data, keeps_assign_loop|].
      keeps_step; [keeps_step|].
      keeps_step; [apply keeps_this_data, keeps_RawMemory_plus|].
      apply keeps_this_data, keeps_uninitialized_copy_n.
Qed.

(** X21.  Copy assignment releases what it obtains, like the other member
    functions: the temporary copy takes the old storage with it, and nothing
    is obtained when the capacity suffices. *)
Theorem copy_assignment_keeps_blocks rhs f r f' :
  assign_other rhs f = (r, f') -> r <> Undefined ->
  stray f' = stray f /\
  (size_ rhs <= Capacity (this f) -> heap f' = heap f).
Proof.
  intros E Hr. split.
  - pose proof (keeps_assign_other rhs f) as Hk. rewrite E in Hk.
    now apply Hk.
  - intros Hcap. revert E. unfold assign_other.
    rewrite (bind_run _ _ _ (this f) f) by reflexivity.
    assert (Ec : (Capacity (this f) <? size_ rhs) = false)
      by (apply N.ltb_ge; assumption).
    rewrite Ec. intros E.
    assert (Hk : keeps (heap (T := T))
              ((if size_ rhs <? size_ (this f)
                then
                  zoom _this_data
                    (assign_loop (data_ rhs) (N.to_nat (size_ rhs)) 0) ;;
                  p <- zoom _this_data (RawMemory_plus (size_ rhs)) ;;
                  zoom _this_data (destroy_n p (size_ (this f) - size_ rhs))
                else
                  zoom _this_data
                    (assign_loop (data_ rhs) (N.to_nat (size_ (this f))) 0) ;;
                  q <- on_const (RawMemory_plus (size_ (this f))) (data_ rhs) ;;
                  p <- zoom _this_data (RawMemory_plus (size_ (this f))) ;;
                  zoom _this_data
                    (uninitialized_copy_n (data_ rhs) q
                       (size_ rhs - size_ (this f)) p)) ;;
               zoom _this_size (put (size_ rhs)))).
    { repeat first
        [ keeps_step
        | apply keeps_zoom_apart; intros s' s; reflexivity ]. }
    specialize (Hk f). rewrite E in Hk. now apply Hk.
Qed.

End Lifetime.

(** ** Allocations *)

Section Allocations.

Context {T : Type} `{Element T}.
Implicit Types (m nd : RawMemory T) (v : Vector T) (f : Frame T) (h : Heap)
  (p q i j : N).

Lemma keeps_heap_this_data {A} (c : M (RawMemory T) A) :
  keeps (heap (T := T)) (zoom _this_data c).
Proof. apply keeps_zoom_apart. intros s' s. reflexivity. Qed.

Lemma keeps_heap_this_size {A} (c : M N A) :
  keeps (heap (T := T)) (zoom _this_size c).
Proof. apply keeps_zoom_apart. intros s' s. reflexivity. Qed.

Lemma keeps_heap_this {A} (c : M (Vector T) A) :
  keeps (heap (T := T)) (zoom _this c).
Proof. apply keeps_zoom_apart. intros s' s. reflexivity. Qed.

(** With room for one more element, an append touches the storage of the
    vector only. *)
Lemma append_in_place_heap {A} made (k : Vector T -> M (Frame T) A) f r f' :
  size_ (this f) <> Capacity (this f) ->
  (forall v, keeps (heap (T := T)) (k v)) ->
  (v <- gets this ;;
   (if size_ v =? Capacity v then
      let new_capacity := grown_capacity (size_ v) in
      new_data <- new_RawMemory new_capacity ;;
      scoped delete_RawMemory new_data (
        p <- zoom _new_data (RawMemory_plus (size_ v)) ;;
        zoom _new_data (placement_new p made) ;;
        transfer 0 (size_ v) 0 ;;
        zoom _old_data (destroy_n 0 (size_ v)) ;;
        zoom _old_new RawMemory_Swap)
    else
      p <- zoom _this_data (RawMemory_plus (size_ v)) ;;
      zoom _this_data (placement_new p made)) ;;
   k v) f = (r, f') ->
  r <> Undefined -> heap f' = heap f.
Proof.
  intros Hne Hk. rewrite (bind_run _ _ _ (this f) f) by reflexivity.
  apply N.eqb_neq in Hne. rewrite Hne. intros E Hr.
  assert (Hkeeps : keeps (heap (T := T))
            ((p <- zoom _this_data (RawMemory_plus (size_ (this f))) ;;
              zoom _this_data (placement_new p made)) ;; k (this f))).
  { keeps_step; [|apply Hk].
    keeps_step; apply keeps_heap_this_data. }
  specialize (Hkeeps f). rewrite E in Hkeeps. now apply Hkeeps.
Qed.

Lemma PushBack_in_place_heap value f r f' :
  size_ (this f) <> Capacity (this f) ->
  PushBack value f = (r, f') -> r <> Undefined -> heap f' = heap f.
Proof.
  intros Hne E Hr.
  refine (append_in_place_heap (forward value)
            (fun _ => zoom _this_size (modify incr)) f r f' Hne _ E Hr).
  intros v. apply keeps_heap_this_size.
Qed.

Lemma EmplaceBack_in_place_heap made f r f' :
  size_ (this f) <> Capacity (this f) ->
  EmplaceBack made f = (r, f') -> r <> Undefined -> heap f' = heap f.
Proof.
  intros Hne E Hr.
  refine (append_in_place_heap made
            (fun v => zoom _this_size (modify incr) ;;
                      zoom _this_data (RawMemory_index (size_ v)))
            f r f' Hne _ E Hr).
  intros v. keeps_step; [apply keeps_heap_this_size|apply keeps_heap_this_data].
Qed.

Lemma Emplace_in_place_heap pos made f r f' :
  size_ (this f) < Capacity (this f) ->
  Emplace pos made f = (r, f') -> r <> Undefined -> heap f' = heap f.
Proof.
  intros Hlt. unfold Emplace.
  rewrite (bind_run _ _ _ 0 f)
    by (rewrite (zoom_run _this _ f _ _ (begin_run (this f)));
        cbn [update _this]; now rewrite Frame_eta).
  rewrite (bind_run _ _ _ (size_ (this f)) f)
    by (rewrite (zoom_run _this _ f _ _ (end_run (this f) ltac:(lia)));
        cbn [update _this]; now rewrite Frame_eta).
  destruct ((0 <=? pos) && (pos <=? size_ (this f)));
    [|cbn; intros [= <- _] Hr; now destruct Hr].
  rewrite (bind_run _ _ _ tt f) by reflexivity.
  destruct (pos =? size_ (this f)).
  { apply EmplaceBack_in_place_heap. lia. }
  rewrite (bind_run _ _ _ (this f) f) by reflexivity.
  assert (Hne : (size_ (this f) =? Capacity (this f)) = false)
    by (apply N.eqb_neq; lia).
  rewrite Hne. intros E Hr.
  assert (Hkeeps : keeps (heap (T := T))
    (match made with
     | None => throw element_error
     | Some tmp =>
         last <- zoom _this_data (RawMemory_index (decr (size_ (this f)))) ;;
         zoom _this_data (move_construct_at (size_ (this f)) last) ;;
         first <- zoom _this_data (RawMemory_plus (pos - 0)) ;;
         zoom _this_data
           (std_move_backward first (size_ (this f) - 1) (size_ (this f))) ;;
         d <- zoom _this_data (RawMemory_index (pos - 0)) ;;
         zoom _this_data (move_assign_from d tmp)
     end ;;
     zoom _this_size (modify incr) ;;
     b' <- zoom _this begin_ ;;
     ret (b' + (pos - 0)))).
  { repeat first
      [ keeps_step
      | apply keeps_zoom_apart; intros s' s; reflexivity ]. }
  specialize (Hkeeps f). rewrite E in Hkeeps. now apply Hkeeps.
Qed.

(** X22.  With spare capacity an append or an insertion does not call the
    free store at all, whether it returns or throws. *)
Theorem no_allocation_with_spare_capacity f :
  size_ (this f) < Capacity (this f) ->
  (forall value r f',
     PushBack value f = (r, f') -> r <> Undefined -> heap f' = heap f) /\
  (forall made r f',
     EmplaceBack made f = (r, f') -> r <> Undefined -> heap f' = heap f) /\
  (forall pos value r f',
     Insert pos value f = (r, f') -> r <> Undefined -> heap f' = heap f).
Proof.
  intros Hlt. split; [|split].
  - intros value r f'. apply PushBack_in_place_heap. lia.
  - intros made r f'. apply EmplaceBack_in_place_heap. lia.
  - intros pos value r f'. unfold Insert. now apply Emplace_in_place_heap.
Qed.

End Allocations.

(** ** The number of allocations *)

Section Counting.

Context {T : Type} `{Element T}.
Implicit Types (m nd : RawMemory T) (v : Vector T) (f : Frame T) (h : Heap)
  (p q i j : N).

Lemma growth_steps_succ n :
  n <= doubling n ->
  growth_steps (n + 1) = growth_steps n + (if n =? doubling n then 1 else 0).
Proof.
  intros Hle. unfold growth_steps.
  assert (E1 : (n + 1 =? 0) = false) by (apply N.eqb_neq; lia). rewrite E1.
  destruct (n =? 0) eqn:E0.
  - apply N.eqb_eq in E0. subst n. reflexivity.
  - apply N.eqb_neq in E0.
    assert (Hd : forall k, k <> 0 -> doubling k = 2 ^ N.log2_up k).
    { intros k Hk. unfold doubling. apply N.eqb_neq in Hk. now rewrite Hk. }
    destruct (n =? doubling n) eqn:E.
    + apply N.eqb_eq in E. rewrite Hd in E by lia.
      remember (N.log2_up n) as a eqn:Ha.
      assert (Hl : N.log2_up (n + 1) = a + 1).
      { rewrite E at 1. rewrite N.add_1_r.
        rewrite N.log2_up_succ_pow2 by lia. lia. }
      lia.
    + apply N.eqb_neq in E. pose proof (doubling_spare n Hle E) as Hs.
      rewrite !Hd in Hs by lia. apply N.pow_inj_r in Hs; lia.
Qed.

Lemma keeps_news_in_scope_apart {S' A} (l : Lens (Frame T * RawMemory T) S')
    (c : M S' A) :
  (forall s' s, heap (fst (update l s' s)) = heap (fst s)) ->
  keeps (fun s : Frame T * RawMemory T => heap (fst s)) (zoom l c).
Proof. intros Hl. apply keeps_zoom_apart. exact Hl. Qed.

Lemma keeps_heap_append_step made n :
  keeps (fun s : Frame T * RawMemory T => heap (fst s))
    (p <- zoom _new_data (RawMemory_plus n) ;;
     zoom _new_data (placement_new p made) ;;
     transfer 0 n 0 ;;
     zoom _old_data (destroy_n 0 n) ;;
     zoom _old_new RawMemory_Swap).
Proof.
  unfold transfer, relocate, duplicate.
  repeat first
    [ keeps_step
    | apply keeps_zoom_apart; intros s' s; reflexivity
    | apply keeps_zoom_apart; intros [s1 s2] s; reflexivity ].
Qed.

(** A growth step that returns has made exactly one allocation. *)
Lemma growth_news {A} n (body : M (Frame T * RawMemory T) A) f a f1 :
  n <> 0 ->
  keeps (fun s : Frame T * RawMemory T => heap (fst s)) body ->
  (new_data <- new_RawMemory n ;; scoped delete_RawMemory new_data body) f
    = (Normal a, f1) ->
  news (heap f1) = news (heap f) + 1.
Proof.
  intros Hn Hbody E. apply bind_returns in E as (nd & f0 & Enew & E).
  assert (Hnews0 : news (heap f0) = news (heap f) + 1).
  { revert Enew. unfold new_RawMemory, zoom. lens.
    destruct (RawMemory_ctor n (heap f)) as [r h0] eqn:Ec.
    intros [= -> <-]. apply RawMemory_ctor_run in Ec as (_ & Hnews & _).
    apply N.eqb_neq in Hn. rewrite Hn in Hnews. exact Hnews. }
  rewrite <- Hnews0. revert E. unfold scoped.
  specialize (Hbody (f0, nd)).
  destruct (body (f0, nd)) as [[b|e|] [f2 nd2]]; cbn [fst snd] in *;
    [| |discriminate].
  - rewrite <- Hbody by discriminate.
    unfold delete_RawMemory, zoom, RawMemory_dtor, Deallocate, operator_delete.
    lens. destruct (buffer_ nd2); cbn; intros [= _ <-]; reflexivity.
  - unfold delete_RawMemory, zoom, RawMemory_dtor, Deallocate, operator_delete.
    lens. destruct (buffer_ nd2); cbn; discriminate.
Qed.

Lemma append_growing_news {A} made (k : Vector T -> M (Frame T) A) f a f' :
  wf (this f) -> size_ (this f) = Capacity (this f) ->
  (forall v, keeps (heap (T := T)) (k v)) ->
  (v <- gets this ;;
   (if size_ v =? Capacity v then
      let new_capacity := grown_capacity (size_ v) in
      new_data <- new_RawMemory new_capacity ;;
      scoped delete_RawMemory new_data (
        p <- zoom _new_data (RawMemory_plus (size_ v)) ;;
        zoom _new_data (placement_new p made) ;;
        transfer 0 (size_ v) 0 ;;
        zoom _old_data (destroy_n 0 (size_ v)) ;;
        zoom _old_new RawMemory_Swap)
    else
      p <- zoom _this_data (RawMemory_plus (size_ v)) ;;
      zoom _this_data (placement_new p made)) ;;
   k v) f = (Normal a, f') ->
  news (heap f') = news (heap f) + 1.
Proof.
  intros Hwf Hfull Hk. rewrite (bind_run _ _ _ (this f) f) by reflexivity.
  apply N.eqb_eq in Hfull. rewrite Hfull. cbv zeta. intros E.
  apply bind_returns in E as (u & f1 & Estep & Ek).
  specialize (Hk (this f) f1). rewrite Ek in Hk. cbn [fst snd] in Hk.
  rewrite Hk by discriminate.
  assert (Hn : grown_capacity (size_ (this f)) <> 0)
    by (rewrite (grown_capacity_wf _ Hwf); lia).
  apply (growth_news _ _ _ _ _ Hn
           (keeps_heap_append_step made (size_ (this f))) Estep).
Qed.

Lemma do_append_news op f f' :
  wf (this f) -> do_append op f = (Normal tt, f') ->
  news (heap f') =
    news (heap f) + (if size_ (this f) =? Capacity (this f) then 1 else 0).
Proof.
  intros Hwf E. destruct (size_ (this f) =? Capacity (this f)) eqn:Ec.
  - apply N.eqb_eq in Ec. destruct op as [value|made]; cbn [do_append] in E.
    + refine (append_growing_news (forward value)
                (fun _ => zoom _this_size (modify incr)) f tt f' Hwf Ec _ E).
      intros v. apply keeps_heap_this_size.
    + apply bind_returns in E as (p & f1 & E & [= <-]).
      refine (append_growing_news made
                (fun v => zoom _this_size (modify incr) ;;
                          zoom _this_data (RawMemory_index (size_ v)))
                f p f1 Hwf Ec _ E).
      intros v. keeps_step;
        [apply keeps_heap_this_size|apply keeps_heap_this_data].
  - apply N.eqb_neq in Ec. rewrite N.add_0_r.
    destruct op as [value|made]; cbn [do_append] in E.
    + f_equal. eapply PushBack_in_place_heap; eauto.
    + apply bind_returns in E as (p & f1 & E & [= <-]).
      f_equal. eapply EmplaceBack_in_place_heap; eauto.
Qed.

Lemma appends_news ops : forall f f',
  wf (this f) -> Capacity (this f) = doubling (size_ (this f)) ->
  appends ops f = (Normal tt, f') ->
  news (heap f') + growth_steps (size_ (this f)) =
  news (heap f) + growth_steps (size_ (this f) + N.of_nat (length ops)).
Proof.
  induction ops as [|op ops IH]; intros f f' Hwf Hcap Hrun;
    cbn [appends] in Hrun.
  - injection Hrun as <-. cbn [length]. now rewrite N.add_0_r.
  - apply bind_returns in Hrun as ([] & f1 & Eop & Hrun).
    pose proof (post_run _ _ _ _ _ (do_append_spec op f Hwf) Eop) as [_ Hn].
    destruct Hn as [made Hp]; [reflexivity|].
    pose proof (do_append_news op f f1 Hwf Eop) as Hnews.
    pose proof (pushed_doubling made _ _ Hwf Hp Hcap) as Hcap1.
    pose proof (pushed_size _ _ _ Hp) as Hsz.
    rewrite <- Hsz in Hcap1.
    specialize (IH f1 f' (pushed_wf _ _ _ Hp) Hcap1 Hrun).
    rewrite Hsz in IH.
    pose proof (wf_size _ Hwf) as Hle. rewrite Hcap in Hle.
    pose proof (growth_steps_succ _ Hle) as Hg.
    rewrite Hcap in Hnews.
    replace (size_ (this f) + N.of_nat (length (op :: ops)))
      with (size_ (this f) + 1 + N.of_nat (length ops)) by (cbn [length]; lia).
    lia.
Qed.

Lemma keeps_appends ops : keeps (stray (T := T)) (appends ops).
Proof.
  induction ops as [|op ops IH]; cbn [appends].
  - keeps_step.
  - keeps_step; [|exact IH]. destruct op as [value|made]; cbn [do_append].
    + apply keeps_PushBack.
    + keeps_step; [apply keeps_EmplaceBack|keeps_step].
Qed.

(** X23.  A vector filled from empty by [n] appends has made [log2_up n + 1]
    allocations (none for [n = 0]), and has released every block but the one
    it holds. *)
Theorem appends_allocate_logarithmically (ops : list append_op) h f :
  appends ops (MkFrame h Vector_default) = (Normal tt, f) ->
  news (heap f) = news h + growth_steps (N.of_nat (length ops)) /\
  outstanding (heap f) = (outstanding h + owns (data_ (this f)))%Z.
Proof.
  intros Hrun. split.
  - pose proof (appends_news ops (MkFrame h Vector_default) f wf_default
                  eq_refl Hrun) as Hn.
    cbn [this heap size_ Vector_default] in Hn.
    rewrite N.add_0_l in Hn. unfold growth_steps at 1 in Hn. cbn in Hn. lia.
  - pose proof (keeps_appends ops (MkFrame h Vector_default)) as Hk.
    rewrite Hrun in Hk. cbn [fst snd] in Hk.
    specialize (Hk ltac:(discriminate)). unfold stray in Hk. cbn in Hk.
    lia.
Qed.

End Counting.

(** ** [Erase] that throws, and a request that overflows *)

Section Edges.

Context {T : Type} `{Element T}.
Implicit Types (m nd : RawMemory T) (v : Vector T) (f : Frame T) (h : Heap)
  (p q i j : N).

Lemma live_poke p x m :
  is_Some (peek m p) ->
  forall i, is_Some (peek (poke p (Some x) m) i) <-> is_Some (peek m i).
Proof.
  intros Hp i. destruct (N.eq_dec i p) as [->|Hne].
  - rewrite peek_poke_eq by (now apply peek_in_block). split; eauto.
  - rewrite peek_poke_ne by congruence. reflexivity.
Qed.

(** A move assignment between two slots leaves both of them live, whether
    it returns or throws. *)
Lemma move_assign_at_live d s m :
  post (move_assign_at d s) m (fun r m' =>
    same_shape m m' /\
    (r <> Undefined -> forall i, is_Some (peek m' i) <-> is_Some (peek m i))).
Proof.
  unfold move_assign_at. wp. eapply post_mono; [apply load_spec|].
  intros [x|e|] m1 (-> & Ht & Hn);
    [|exfalso; eapply Ht; reflexivity|split; [apply same_shape_refl|congruence]].
  specialize (Hn x eq_refl). wp. eapply post_mono; [apply load_spec|].
  intros [y|e|] m1 (-> & Ht' & Hn');
    [|exfalso; eapply Ht'; reflexivity|split; [apply same_shape_refl|congruence]].
  specialize (Hn' y eq_refl).
  destruct (move_assign y x) as [[ok y'] x'] eqn:E.
  wp. eapply post_mono; [apply store_spec|].
  intros [[]|e|] m1 (Hs1 & Ht1 & Hn1);
    [|exfalso; eapply Ht1; reflexivity|split; [assumption|congruence]].
  destruct Hn1 as [_ ->]; [reflexivity|].
  wp. eapply post_mono; [apply store_spec|].
  intros [[]|e|] m2 (Hs2 & Ht2 & Hn2);
    [|exfalso; eapply Ht2; reflexivity
     |split; [eapply same_shape_trans; eauto|congruence]].
  destruct Hn2 as [Hd ->]; [reflexivity|].
  assert (Hlive : forall i,
            is_Some (peek (poke d (Some y') (poke s (Some x') m)) i)
            <-> is_Some (peek m i)).
  { intros i. rewrite (live_poke d y' _ Hd i). apply live_poke. eauto. }
  destruct ok; wp; (split; [eapply same_shape_trans; eauto|]);
    intros _; exact Hlive.
Qed.

Lemma move_forward_loop_live k : forall first d m,
  post (move_forward_loop k first d) m (fun r m' =>
    same_shape m m' /\
    (r <> Undefined -> forall i, is_Some (peek m' i) <-> is_Some (peek m i))).
Proof.
  induction k as [|k IH]; intros first d m; cbn [move_forward_loop].
  - wp. split; [apply same_shape_refl|]. reflexivity.
  - wp_step. eapply post_mono; [apply move_assign_at_live|].
    intros [[]|e|] m1 (Hs1 & Hl1).
    + eapply post_mono; [apply IH|]. intros r m2 (Hs2 & Hl2).
      split; [eapply same_shape_trans; eauto|].
      intros Hr i. rewrite (Hl2 Hr i). apply Hl1. discriminate.
    + split; [assumption|]. intros _. apply Hl1. discriminate.
    + split; [assumption|]. congruence.
Qed.

(** X24.  [Erase] gives the basic guarantee: when the move assignment of an
    element throws, the vector satisfies its invariant, with its size and
    its capacity as they were. *)
Theorem Erase_basic_guarantee pos v e v' :
  wf v ->
  Erase pos v = (Throw e, v') ->
  wf v' /\ size_ v' = size_ v /\ Capacity v' = Capacity v.
Proof.
  intros Hwf E.
  assert (Hpost : post (Erase pos) v (fun r v' =>
            forall e, r = Throw e ->
              wf v' /\ size_ v' = size_ v /\ Capacity v' = Capacity v)).
  { unfold Erase.
    wp_step. eapply post_mono; [apply begin_spec|].
    intros r v0 [-> ->].
    wp_step. eapply post_mono; [apply end_spec|].
    intros [e0|x|] v0 (-> & Ht & Hn);
      [|exfalso; eapply Ht; reflexivity|discriminate].
    wp_step. apply post_cassert; intros Hc; [|discriminate].
    wp_step. wp_step. wp_step. apply post_cassert; intros Hz; [|discriminate].
    wp_step. wp_step. lens. unfold std_move.
    destruct (e0 <? 0 + (pos - 0 + 1)); [wp; discriminate|].
    eapply post_mono; [apply move_forward_loop_live|].
    intros [[]|e1|] m1 (Hs1 & Hl1); lens.
    - wp_step. wp_step. lens. eapply post_mono; [apply RawMemory_plus_spec|].
      intros [p|e1|] m0 (-> & Ht1 & _); lens;
        [|exfalso; eapply Ht1; reflexivity|discriminate].
      wp_step. wp_step. lens. eapply post_mono; [apply destroy_at_spec|].
      intros [[]|e1|] m2 (_ & Ht2 & _); lens;
        [|exfalso; eapply Ht2; reflexivity|discriminate].
      wp. discriminate.
    - intros e2 _. specialize (Hl1 ltac:(discriminate)).
      split; [|split; [reflexivity|]].
      + apply (wf_shape_live v); [assumption..|apply (wf_size _ Hwf)|].
        intros i. rewrite Hl1. apply (wf_live _ Hwf).
      + unfold Capacity. cbn. now destruct Hs1 as [-> _].
    - discriminate. }
  exact (post_run _ _ _ _ _ Hpost E e eq_refl).
Qed.

(** X25.  The byte count of a request is computed in [size_t] and is not
    checked: when [new_capacity * sizeof(T)] wraps around, [Reserve] on an
    empty vector returns normally and records the capacity asked for, over a
    block that has fewer slots. The invariant of the class is lost. *)
Theorem Reserve_request_can_overflow n f :
  wf (this f) -> generous (heap f) -> size_ (this f) = 0 ->
  0 < n < SIZE_MOD ->
  wrap (n * Npos sizeof) <= PTRDIFF_MAX ->
  wrap (n * Npos sizeof) / Npos sizeof < n ->
  exists f',
    Reserve n f = (Normal tt, f') /\
    Capacity (this f') = n /\
    N.of_nat (length (cells (data_ (this f')))) < n /\
    ~ wf (this f').
Proof.
  intros Hwf Hgen Hz Hn Hbytes Hwrap. unfold generous in Hgen.
  set (blk := replicate (N.to_nat (wrap (n * N.pos sizeof) / N.pos sizeof))
                (@None T)).
  set (h1 := MkHeap [] (news (heap f) + 1) (deletes (heap f))).
  assert (Enew : new_RawMemory n f
                 = (Normal (MkRawMemory (Some blk) n), MkFrame h1 (this f))).
  { unfold new_RawMemory, zoom, RawMemory_ctor, Allocate. lens.
    assert (E0 : (n =? 0) = false) by (apply N.eqb_neq; lia). rewrite E0.
    unfold bind, operator_new.
    assert (Eb : (PTRDIFF_MAX <? wrap (n * N.pos sizeof)) = false)
      by (apply N.ltb_ge; assumption).
    rewrite Eb, Hgen. reflexivity. }
  assert (Ebody : forall nd f0,
    (transfer 0 0 0 ;;
     zoom _old_data (destroy_n 0 0) ;;
     zoom _old_new RawMemory_Swap) (f0, nd)
    = (Normal tt,
       (MkFrame (heap f0)
          (MkVector (MkRawMemory (buffer_ nd) (capacity_ nd)) (size_ (this f0))),
        MkRawMemory (buffer_ (data_ (this f0))) (capacity_ (data_ (this f0)))))).
  { intros nd f0. unfold transfer, relocate, duplicate.
    destruct relocates; destruct f0 as [h0 [[b0 c0] s0]], nd as [bn cn];
      reflexivity. }
  exists (final (Reserve n) f).
  assert (Erun : Reserve n f =
    (Normal tt,
     MkFrame (snd (RawMemory_dtor (data_ (this f)) h1))
       (MkVector (MkRawMemory (Some blk) n) 0))).
  { unfold Reserve. rewrite (bind_run _ _ _ (this f) f) by reflexivity.
    assert (E1 : (n <=? size_ (this f)) = false)
      by (apply N.leb_gt; lia). rewrite E1.
    rewrite (bind_run _ _ _ _ _ Enew). unfold scoped.
    rewrite Hz, Ebody. cbn [fst snd this size_].
    unfold delete_RawMemory, zoom. lens. rewrite Hz.
    unfold RawMemory_dtor, Deallocate, operator_delete.
    destruct (buffer_ (data_ (this f))); reflexivity. }
  unfold final. rewrite Erun. cbn [snd this data_ size_].
  split; [reflexivity|]. split; [reflexivity|].
  assert (Hlen : N.of_nat (length (cells (MkRawMemory (Some blk) n))) < n).
  { unfold cells, blk. cbn. rewrite length_replicate. lia. }
  split; [exact Hlen|].
  intros [[Hext _] _ _]. cbn [data_ capacity_] in Hext. lia.
Qed.

End Edges.

(** ** Termination with a result *)

Section Totality.

Context {T : Type} `{Element T} `{!Reliable T}.
Implicit Types (v : Vector T) (f : Frame T) (p q i j : N).

(** X26.  For an element type none of whose operations throws, on a vector
    that satisfies the invariant and with a free store that refuses nothing,
    every mutator called within its precondition returns: no assertion
    fails, no raw slot is read, nothing is written outside the block. The
    only requests that can fail are those of more than [PTRDIFF_MAX] bytes. *)
Theorem mutators_return f :
  wf (this f) -> generous (heap f) ->
  ((size_ (this f) = Capacity (this f) ->
    N.max 1 (2 * size_ (this f)) * Npos sizeof <= PTRDIFF_MAX) ->
   (forall value, exists f', PushBack value f = (Normal tt, f')) /\
   (forall x, exists f',
      EmplaceBack (Some x) f = (Normal (size_ (this f)), f')) /\
   (forall pos value, pos <= size_ (this f) ->
      exists f', Insert pos value f = (Normal pos, f'))) /\
  (forall pos, pos < size_ (this f) ->
     exists v', Erase pos (this f) = (Normal pos, v')) /\
  (exists v', PopBack (this f) = (Normal tt, v')) /\
  (exists v', Clear (this f) = (Normal tt, v')) /\
  (forall n, n * Npos sizeof <= PTRDIFF_MAX ->
     (exists f', Reserve n f = (Normal tt, f')) /\
     (exists f', Resize n f = (Normal tt, f'))).
Proof.
  intros Hwf Hgen. split; [|split; [|split; [|split]]].
  - intros Hroom. split; [|split].
    + intros value. destruct (forward_returns value) as [x Hx].
      destruct (PushBack_returns value x f Hwf Hgen Hx Hroom) as (f' & E & _).
      eauto.
    + intros x. destruct (EmplaceBack_returns x f Hwf Hgen Hroom) as (f' & E & _).
      eauto.
    + intros pos value Hpos. destruct (forward_returns value) as [x Hx].
      destruct (Emplace_returns pos x f Hwf Hgen Hpos Hroom) as (f' & E & _).
      exists f'. unfold Insert. now rewrite Hx.
  - intros pos Hpos. now apply Erase_returns.
  - destruct (N.eq_dec (size_ (this f)) 0) as [Hz|Hz].
    + exists (this f). unfold PopBack, bind, gets. rewrite Hz. reflexivity.
    + eexists. apply PopBack_run; [assumption|lia].
  - destruct (destroy_n_returns 0 (size_ (this f)) (data_ (this f))) as [m' Ed].
    { intros i Hi. apply (wf_live _ Hwf). lia. }
    exists (MkVector m' 0). unfold Clear, GetAddress.
    rewrite (bind_run _ _ _ (size_ (this f)) (this f)) by reflexivity.
    rewrite (bind_run _ _ _ 0 (this f))
      by (unfold zoom, ret; cbn; now rewrite Vector_eta).
    rewrite (bind_run _ _ _ tt (MkVector m' (size_ (this f))))
      by (apply (zoom_run _data _ (this f)); exact Ed).
    reflexivity.
  - intros n Hn. split.
    + destruct (Reserve_returns n f Hwf Hgen Hn) as (f' & E & _). eauto.
    + destruct (Resize_returns n f Hwf Hgen Hn) as (f' & E & _). eauto.
Qed.

End Totality.

(** ** A construction that fails, observers, and the converse round trip *)

Section More.

Context {T : Type} `{Element T}.
Implicit Types (m nd : RawMemory T) (v : Vector T) (f : Frame T) (h : Heap)
  (p q i j : N).

(** A growth step whose new element cannot be constructed. *)
Lemma growth_fails_unchanged {A} n idx (rest : M (Frame T * RawMemory T) A) f :
  post (new_data <- new_RawMemory n ;;
        scoped delete_RawMemory new_data (
          p <- zoom _new_data (RawMemory_plus idx) ;;
          zoom _new_data (placement_new p None) ;;
          rest)) f
    (fun r f' => r <> Undefined -> (exists e, r = Throw e) /\ this f' = this f).
Proof.
  wp_step. eapply post_mono; [apply new_RawMemory_spec|].
  intros [nd|e|] [h1 v1] [Hthis _]; cbn in Hthis; subst v1;
    [|intros _; eauto|congruence].
  wp_step. wp_step. wp_step. lens.
  eapply post_mono; [apply RawMemory_plus_spec|].
  intros [p|e|] nd0 (-> & Ht & _); lens;
    [|exfalso; eapply Ht; reflexivity|congruence].
  wp_step. wp_step. lens. unfold placement_new. wp_step. lens.
  apply delete_post. intros h _. eauto.
Qed.

Lemma in_place_fails_unchanged idx f :
  post (p <- zoom _this_data (RawMemory_plus idx) ;;
        zoom _this_data (placement_new p None)) f
    (fun r f' => r <> Undefined -> (exists e, r = Throw e) /\ this f' = this f).
Proof.
  wp_step. wp_step. lens. eapply post_mono; [apply RawMemory_plus_spec|].
  intros [p|e|] m0 (-> & Ht & _); lens;
    [|exfalso; eapply Ht; reflexivity|congruence].
  wp_step. lens. unfold placement_new. wp_step. lens.
  intros _. rewrite Vector_eta. eauto.
Qed.

Lemma Emplace_fails_unchanged pos f :
  post (Emplace pos None) f
    (fun r f' => r <> Undefined -> (exists e, r = Throw e) /\ this f' = this f).
Proof.
  unfold Emplace.
  wp_step. wp_step. lens. eapply post_eq; [apply begin_run|].
  cbv beta iota. lens. rewrite ?Frame_eta.
  wp_step. wp_step. lens. eapply post_mono; [apply end_spec|].
  intros [e0|x|] v' (-> & Ht & _); rewrite ?Frame_eta;
    [|exfalso; eapply Ht; reflexivity|congruence].
  wp_step. apply post_cassert; intros Hc; [|congruence].
  destruct (pos =? e0).
  - unfold EmplaceBack. wp_step. wp_step. cbv beta iota zeta. wp_step.
    eapply post_mono.
    + destruct (size_ (this f) =? Capacity (this f));
        [apply growth_fails_unchanged|apply in_place_fails_unchanged].
    + intros [[]|e|] f1 Hq; cbv beta iota;
        [|intros _; destruct Hq as [_ Hq]; [discriminate|eauto]|congruence].
      destruct Hq as [[e He] _]; [discriminate|discriminate].
  - wp_step. wp_step. cbv beta iota zeta. wp_step.
    eapply post_mono.
    + destruct (size_ (this f) =? Capacity (this f)).
      * apply growth_fails_unchanged.
      * wp_step. intros _. eauto.
    + intros [[]|e|] f1 Hq; cbv beta iota;
        [|intros _; destruct Hq as [_ Hq]; [discriminate|eauto]|congruence].
      destruct Hq as [[e He] _]; [discriminate|discriminate].
Qed.

(** X27.  When the construction of the element to insert throws, the
    insertion ends with an exception and the vector is exactly as it was, at
    whatever position and with or without spare capacity: the element is
    constructed before anything of the vector is touched. *)
Theorem Insert_construction_failure f pos (value : Arg T) r f' :
  forward value = None ->
  Insert pos value f = (r, f') -> r <> Undefined ->
  (exists e, r = Throw e) /\ this f' = this f.
Proof.
  intros Hnone E Hr. unfold Insert in E. rewrite Hnone in E.
  exact (post_run _ _ _ _ _ (Emplace_fails_unchanged pos f) E Hr).
Qed.

(** X28.  [Size()] counts the live elements: it is the length of the element
    sequence, and [IsEmpty()] holds exactly when the vector holds no
    element. *)
Theorem observers_agree v :
  wf v ->
  Size v = N.of_nat (length (elements v)) /\
  (IsEmpty v = true <-> elements v = []).
Proof.
  intros Hwf. pose proof (elements_length v Hwf) as Hlen.
  unfold Size, IsEmpty. split; [lia|].
  rewrite N.eqb_eq. split.
  - intros Hz. apply length_zero_iff_nil. lia.
  - intros Hnil. rewrite Hnil in Hlen. cbn in Hlen. lia.
Qed.

(** X29.  Inserting at [pos] the value that [Erase] has just removed there
    gives back the original sequence; the insertion finds the room the
    erasure left, so the capacity is unchanged and the free store is not
    called. *)
Theorem Erase_then_Insert `{!Regular T} v pos p v1 x h q f2 :
  wf v ->
  elements v !! N.to_nat pos = Some x ->
  Erase pos v = (Normal p, v1) ->
  Insert p (lvalue x) (MkFrame h v1) = (Normal q, f2) ->
  elements (this f2) = elements v /\
  q = pos /\
  Capacity (this f2) = Capacity v /\
  heap f2 = h.
Proof.
  intros Hwf Hx Eera Eins.
  pose proof (post_run _ _ _ _ _ (Erase_spec pos v Hwf) Eera) as Hq.
  cbv beta in Hq. destruct (Hq p eq_refl) as (-> & Hpos & He).
  pose proof (erased_wf _ _ _ He) as Hwf1.
  pose proof (erased_size _ _ _ He) as Hsz1.
  pose proof (erased_capacity _ _ _ He) as Hcap1.
  pose proof (wf_size _ Hwf) as Hs.
  unfold Insert in Eins.
  pose proof (post_run _ _ _ _ _
                (Emplace_spec pos (forward (lvalue x)) (MkFrame h v1) Hwf1) Eins)
    as Hq'.
  cbv beta in Hq'. destruct (Hq' q eq_refl) as (-> & Hpos' & Hi).
  cbn [this] in *.
  destruct (inserted_elements _ _ _ _ Hwf1 Hpos' Hi) as (y & Hy & Hel).
  apply (forward_referent (lvalue x)) in Hy. cbn in Hy. subst y.
  split; [|split; [reflexivity|split]].
  - rewrite Hel, (erased_elements _ _ _ Hwf Hpos He).
    rewrite delete_take_drop.
    pose proof (elements_length v Hwf) as Hlen.
    rewrite take_app_length' by (rewrite length_take; lia).
    rewrite drop_app_length' by (rewrite length_take; lia).
    now apply take_drop_middle.
  - rewrite (inserted_capacity _ _ _ _ Hi).
    assert (E : (size_ v1 =? Capacity v1) = false) by (apply N.eqb_neq; lia).
    now rewrite E.
  - change h with (heap (MkFrame h v1)).
    apply (Emplace_in_place_heap pos (forward (lvalue x)) (MkFrame h v1)
             (Normal pos) f2); [cbn [this]; lia|assumption|discriminate].
Qed.

End More.

(** ** The further properties at concrete inputs *)


Lemma append_adds_at_end_witness :
  let f1 := final (PushBack (lvalue 4%Z)) one_two_three in
  let f2 := final (EmplaceBack (Some 5%Z)) one_two_three in
  wf (this one_two_three) /\
  PushBack (lvalue 4%Z) one_two_three = (Normal tt, f1) /\
  EmplaceBack (Some 5%Z) one_two_three = (Normal 3, f2) /\
  elements (this f1)
    = elements (this one_two_three) ++ [referent (lvalue 4%Z)] /\
  3 = size_ (this one_two_three) /\
  (exists x, Some 5%Z = Some x /\
             elements (this f2) = elements (this one_two_three) ++ [x] /\
             elements (this f2) !! N.to_nat 3 = Some x).
Proof.
  intros f1 f2.
  split; [apply wf_check_sound; reflexivity|].
  split; [vm_compute; reflexivity|]. split; [vm_compute; reflexivity|].
  split.
  - apply (proj1 (append_adds_at_end one_two_three
                    ltac:(apply wf_check_sound; reflexivity))
             (lvalue 4%Z) f1).
    vm_compute; reflexivity.
  - apply (proj2 (append_adds_at_end one_two_three
                    ltac:(apply wf_check_sound; reflexivity))
             (Some 5%Z) 3 f2).
    vm_compute; reflexivity.
Defined.

Lemma Insert_places_value_witness :
  let f' := final (Insert 1 (rvalue 9%Z)) one_two_three in
  wf (this one_two_three) /\
  Insert 1 (rvalue 9%Z) one_two_three = (Normal 1, f') /\
  (1 = 1 /\ 1 <= size_ (this one_two_three) /\
   elements (this f') =
     take (N.to_nat 1) (elements (this one_two_three))
       ++ referent (rvalue 9%Z)
          :: drop (N.to_nat 1) (elements (this one_two_three)) /\
   elements (this f') !! N.to_nat 1 = Some (referent (rvalue 9%Z))).
Proof.
  intros f'.
  split; [apply wf_check_sound; reflexivity|].
  split; [vm_compute; reflexivity|].
  apply (Insert_places_value one_two_three 1 (rvalue 9%Z) 1 f');
    [apply wf_check_sound; reflexivity|vm_compute; reflexivity].
Defined.

Lemma Erase_removes_one_witness :
  let v' := final (Erase 1) (this one_two_three) in
  wf (this one_two_three) /\
  Erase 1 (this one_two_three) = (Normal 1, v') /\
  (1 = 1 /\ 1 < size_ (this one_two_three) /\
   elements v' = delete (N.to_nat 1) (elements (this one_two_three)) /\
   size_ v' + 1 = size_ (this one_two_three) /\
   Capacity v' = Capacity (this one_two_three)).
Proof.
  intros v'.
  split; [apply wf_check_sound; reflexivity|].
  split; [vm_compute; reflexivity|].
  apply (Erase_removes_one (this one_two_three) 1 1 v');
    [apply wf_check_sound; reflexivity|vm_compute; reflexivity].
Defined.

Lemma Reserve_sets_capacity_witness :
  let f' := final (Reserve 10) one_two_three in
  wf (this one_two_three) /\
  Reserve 10 one_two_three = (Normal tt, f') /\
  (Capacity (this f') =
     (if 10 <=? size_ (this one_two_three)
      then Capacity (this one_two_three) else 10) /\
   10 <= Capacity (this f') /\
   size_ (this f') = size_ (this one_two_three) /\
   elements (this f') = elements (this one_two_three)).
Proof.
  intros f'.
  split; [apply wf_check_sound; reflexivity|].
  split; [vm_compute; reflexivity|].
  apply (Reserve_sets_capacity 10 one_two_three f');
    [apply wf_check_sound; reflexivity|vm_compute; reflexivity].
Defined.

Lemma Resize_sequence_witness :
  let f' := final (Resize 5) one_two_three in
  wf (this one_two_three) /\
  Resize 5 one_two_three = (Normal tt, f') /\
  (wf (this f') /\
   size_ (this f') = 5 /\
   Capacity (this f') =
     (if size_ (this one_two_three) <? 5 then 5
      else Capacity (this one_two_three)) /\
   (5 <= size_ (this one_two_three) ->
    elements (this f') = take (N.to_nat 5) (elements (this one_two_three))) /\
   (size_ (this one_two_three) < 5 ->
    exists x0 : Z, value_init = Some x0 /\
      elements (this f') =
        elements (this one_two_three)
          ++ replicate (N.to_nat (5 - size_ (this one_two_three))) x0)).
Proof.
  intros f'.
  split; [apply wf_check_sound; reflexivity|].
  split; [vm_compute; reflexivity|].
  apply (Resize_sequence 5 one_two_three f');
    [apply wf_check_sound; reflexivity|vm_compute; reflexivity].
Defined.

Lemma Clear_empties_witness :
  wf (this one_two_three) /\
  exists v',
    Clear (this one_two_three) = (Normal tt, v') /\
    wf v' /\
    size_ v' = 0 /\
    Capacity v' = Capacity (this one_two_three) /\
    elements v' = [] /\
    forall i, peek (data_ v') i = None.
Proof.
  split; [apply wf_check_sound; reflexivity|].
  apply (Clear_empties (this one_two_three)).
  apply wf_check_sound; reflexivity.
Defined.

Lemma Erase_needs_element_witness :
  wf (this one_two_three) /\
  size_ (this one_two_three) <= 3 /\
  Erase 3 (this one_two_three) = (Undefined, this one_two_three).
Proof.
  split; [apply wf_check_sound; reflexivity|].
  split; [vm_compute; discriminate|].
  apply (Erase_needs_element (this one_two_three) 3);
    [apply wf_check_sound; reflexivity|vm_compute; discriminate].
Defined.

Lemma append_strong_guarantee_witness :
  let f' := final (PushBack (lvalue (MkBrittle 13))) brittle_full in
  safe_transfer (T := Brittle) /\
  do_append (push_back (lvalue (MkBrittle 13))) brittle_full
    = (Throw element_error, f') /\
  this f' = this brittle_full.
Proof.
  intros f'.
  split; [right; intros x; eexists; reflexivity|].
  split; [vm_compute; reflexivity|].
  apply (append_strong_guarantee (push_back (lvalue (MkBrittle 13)))
           brittle_full element_error f');
    [right; intros x; eexists; reflexivity|vm_compute; reflexivity].
Defined.

Lemma Insert_strong_guarantee_when_full_witness :
  let f' := final (Insert 0 (lvalue (MkBrittle 13))) brittle_full in
  safe_transfer (T := Brittle) /\
  size_ (this brittle_full) = Capacity (this brittle_full) /\
  Insert 0 (lvalue (MkBrittle 13)) brittle_full = (Throw element_error, f') /\
  this f' = this brittle_full.
Proof.
  intros f'.
  split; [right; intros x; eexists; reflexivity|].
  split; [reflexivity|].
  split; [vm_compute; reflexivity|].
  apply (Insert_strong_guarantee_when_full 0 (lvalue (MkBrittle 13))
           brittle_full element_error f');
    [right; intros x; eexists; reflexivity|reflexivity|vm_compute; reflexivity].
Defined.

Lemma Reserve_strong_guarantee_witness :
  let f := MkFrame exhausted_heap (this one_two_three) in
  let f' := final (Reserve 10) f in
  safe_transfer (T := Z) /\
  Reserve 10 f = (Throw bad_alloc, f') /\
  this f' = this f.
Proof.
  intros f f'.
  split; [right; intros x; eexists; reflexivity|].
  split; [vm_compute; reflexivity|].
  apply (Reserve_strong_guarantee 10 f bad_alloc f');
    [right; intros x; eexists; reflexivity|vm_compute; reflexivity].
Defined.

Lemma Vector_sized_builds_witness :
  let v := MkVector (MkRawMemory (Some [Some 0%Z; Some 0%Z; Some 0%Z]) 3) 3 in
  let h' := MkHeap [] 1 0 in
  Vector_sized 3 empty_heap = (Normal v, h') /\
  (wf v /\ size_ v = 3 /\ Capacity v = 3 /\
   match value_init with
   | Some x0 => elements v = replicate (N.to_nat 3) x0
   | None => 3 = 0
   end /\
   news h' = news empty_heap + (if 3 =? 0 then 0 else 1) /\
   deletes h' = deletes empty_heap).
Proof.
  intros v h'.
  split; [vm_compute; reflexivity|].
  apply (Vector_sized_builds 3 empty_heap v h'). vm_compute; reflexivity.
Defined.

Lemma Vector_copy_copies_witness :
  let other := this one_of_four in
  let v := MkVector (MkRawMemory (Some [Some 1%Z]) 1) 1 in
  let h' := MkHeap [] 1 0 in
  wf other /\
  Vector_copy other empty_heap = (Normal v, h') /\
  (wf v /\ size_ v = size_ other /\ Capacity v = size_ other /\
   elements v = elements other /\
   news h' = news empty_heap + (if size_ other =? 0 then 0 else 1) /\
   deletes h' = deletes empty_heap).
Proof.
  intros other v h'.
  split; [apply wf_check_sound; reflexivity|].
  split; [vm_compute; reflexivity|].
  apply (Vector_copy_copies other empty_heap v h');
    [apply wf_check_sound; reflexivity|vm_compute; reflexivity].
Defined.

Lemma copy_assignment_copies_witness :
  let w' := final (copy_assignment 1 0) two_vectors in
  1%nat <> 0%nat /\
  is_Some (objects two_vectors !! 1%nat) /\
  is_Some (objects two_vectors !! 0%nat) /\
  wf (object two_vectors 1) /\ wf (object two_vectors 0) /\
  copy_assignment 1 0 two_vectors = (Normal tt, w') /\
  (wf (object w' 1) /\
   elements (object w' 1) = elements (object two_vectors 0) /\
   Capacity (object w' 1) =
     N.max (Capacity (object two_vectors 1)) (size_ (object two_vectors 0)) /\
   forall a, a <> 1%nat -> object w' a = object two_vectors a).
Proof.
  intros w'.
  split; [discriminate|].
  split; [eexists; reflexivity|]. split; [eexists; reflexivity|].
  split; [apply wf_check_sound; reflexivity|].
  split; [apply wf_check_sound; reflexivity|].
  split; [vm_compute; reflexivity|].
  apply (copy_assignment_copies two_vectors 1 0 w');
    [discriminate|eexists; reflexivity|eexists; reflexivity
    |apply wf_check_sound; reflexivity|apply wf_check_sound; reflexivity
    |vm_compute; reflexivity].
Defined.

Lemma copy_assignment_basic_guarantee_witness :
  let w' := final (copy_assignment 0 1) brittle_world in
  0%nat <> 1%nat /\
  is_Some (objects brittle_world !! 0%nat) /\
  is_Some (objects brittle_world !! 1%nat) /\
  wf (object brittle_world 0) /\ wf (object brittle_world 1) /\
  copy_assignment 0 1 brittle_world = (Throw element_error, w') /\
  (wf (object w' 0) /\
   size_ (object w' 0) = size_ (object brittle_world 0) /\
   Capacity (object w' 0) = Capacity (object brittle_world 0) /\
   (Capacity (object brittle_world 0) < size_ (object brittle_world 1) ->
    object w' 0 = object brittle_world 0) /\
   forall a, a <> 0%nat -> object w' a = object brittle_world a).
Proof.
  intros w'.
  split; [discriminate|].
  split; [eexists; reflexivity|]. split; [eexists; reflexivity|].
  split; [apply wf_check_sound; reflexivity|].
  split; [apply wf_check_sound; reflexivity|].
  split; [vm_compute; reflexivity|].
  apply (copy_assignment_basic_guarantee brittle_world 0 1 element_error w');
    [discriminate|eexists; reflexivity|eexists; reflexivity
    |apply wf_check_sound; reflexivity|apply wf_check_sound; reflexivity
    |vm_compute; reflexivity].
Defined.

Lemma PushBack_then_PopBack_witness :
  let f1 := final (PushBack (rvalue 4%Z)) one_two_three in
  wf (this one_two_three) /\
  PushBack (rvalue 4%Z) one_two_three = (Normal tt, f1) /\
  exists v2,
    PopBack (this f1) = (Normal tt, v2) /\
    elements v2 = elements (this one_two_three) /\
    size_ v2 = size_ (this one_two_three) /\
    Capacity v2 = Capacity (this f1) /\
    Capacity (this one_two_three) <= Capacity v2.
Proof.
  intros f1.
  split; [apply wf_check_sound; reflexivity|].
  split; [vm_compute; reflexivity|].
  apply (PushBack_then_PopBack one_two_three (rvalue 4%Z) f1);
    [apply wf_check_sound; reflexivity|vm_compute; reflexivity].
Defined.

Lemma Insert_at_end_is_PushBack_witness :
  wf (this one_two_three) /\
  (snd (Insert (size_ (this one_two_three)) (lvalue 4%Z) one_two_three)
     = snd (PushBack (lvalue 4%Z) one_two_three) /\
   (forall f', PushBack (lvalue 4%Z) one_two_three = (Normal tt, f') ->
      Insert (size_ (this one_two_three)) (lvalue 4%Z) one_two_three
        = (Normal (size_ (this one_two_three)), f')) /\
   (forall e f', PushBack (lvalue 4%Z) one_two_three = (Throw e, f') ->
      Insert (size_ (this one_two_three)) (lvalue 4%Z) one_two_three
        = (Throw e, f'))).
Proof.
  split; [apply wf_check_sound; reflexivity|].
  apply (Insert_at_end_is_PushBack one_two_three (lvalue 4%Z)).
  apply wf_check_sound; reflexivity.
Defined.

Lemma index_agrees_with_At_witness :
  wf (this one_two_three) /\
  ((2 < size_ (this one_two_three) ->
    Vector_index 2 (this one_two_three) = (Normal 2, this one_two_three) /\
    At 2 (this one_two_three) = (Normal 2, this one_two_three)) /\
   (size_ (this one_two_three) <= 2 ->
    Vector_index 2 (this one_two_three) = (Undefined, this one_two_three) /\
    exists e, At 2 (this one_two_three) = (Throw e, this one_two_three))).
Proof.
  split; [apply wf_check_sound; reflexivity|].
  apply (index_agrees_with_At (this one_two_three) 2).
  apply wf_check_sound; reflexivity.
Defined.

Lemma Swap_exchanges_witness :
  is_Some (objects two_vectors !! 0%nat) /\
  is_Some (objects two_vectors !! 1%nat) /\
  exists w1,
    Swap 0 1 two_vectors = (Normal tt, w1) /\
    free_store w1 = free_store two_vectors /\
    object w1 0 = object two_vectors 1 /\
    object w1 1 = object two_vectors 0 /\
    (forall c, c <> 0%nat -> c <> 1%nat -> object w1 c = object two_vectors c) /\
    Swap 0 1 w1 = (Normal tt, two_vectors).
Proof.
  split; [eexists; reflexivity|]. split; [eexists; reflexivity|].
  apply (Swap_exchanges two_vectors 0 1); eexists; reflexivity.
Defined.

Lemma copy_assignment_keeps_blocks_witness :
  let rhs := this one_two_three in
  let f := one_of_four in
  let f' := final (assign_other rhs) f in
  assign_other rhs f = (Normal tt, f') /\
  Normal tt <> Undefined /\
  (stray f' = stray f /\
   (size_ rhs <= Capacity (this f) -> heap f' = heap f)).
Proof.
  intros rhs f f'.
  split; [vm_compute; reflexivity|]. split; [discriminate|].
  apply (copy_assignment_keeps_blocks rhs f (Normal tt) f');
    [vm_compute; reflexivity|discriminate].
Defined.

Lemma no_allocation_with_spare_capacity_witness :
  size_ (this one_of_four) < Capacity (this one_of_four) /\
  ((forall value r f',
      PushBack value one_of_four = (r, f') -> r <> Undefined ->
      heap f' = heap one_of_four) /\
   (forall made r f',
      EmplaceBack made one_of_four = (r, f') -> r <> Undefined ->
      heap f' = heap one_of_four) /\
   (forall pos value r f',
      Insert pos value one_of_four = (r, f') -> r <> Undefined ->
      heap f' = heap one_of_four)).
Proof.
  split; [reflexivity|].
  apply (no_allocation_with_spare_capacity one_of_four). reflexivity.
Defined.

Lemma appends_allocate_logarithmically_witness :
  let f := final (appends five_appends) (MkFrame empty_heap Vector_default) in
  appends five_appends (MkFrame empty_heap Vector_default) = (Normal tt, f) /\
  (news (heap f)
     = news empty_heap + growth_steps (N.of_nat (length five_appends)) /\
   outstanding (heap f)
     = (outstanding empty_heap + owns (data_ (this f)))%Z).
Proof.
  intros f.
  split; [vm_compute; reflexivity|].
  apply (appends_allocate_logarithmically five_appends empty_heap f).
  vm_compute; reflexivity.
Defined.

Lemma Erase_basic_guarantee_witness :
  let v' := final (Erase 0) fussy_pair in
  wf fussy_pair /\
  Erase 0 fussy_pair = (Throw element_error, v') /\
  (wf v' /\ size_ v' = size_ fussy_pair /\ Capacity v' = Capacity fussy_pair).
Proof.
  intros v'.
  split; [apply wf_check_sound; reflexivity|].
  split; [vm_compute; reflexivity|].
  apply (Erase_basic_guarantee 0 fussy_pair element_error v');
    [apply wf_check_sound; reflexivity|vm_compute; reflexivity].
Defined.

Lemma Reserve_request_can_overflow_witness :
  let f : Frame Z := MkFrame empty_heap Vector_default in
  let n := 2 ^ 62 in
  wf (this f) /\ generous (heap f) /\ size_ (this f) = 0 /\
  0 < n < SIZE_MOD /\
  wrap (n * Npos (sizeof (T := Z))) <= PTRDIFF_MAX /\
  wrap (n * Npos (sizeof (T := Z))) / Npos (sizeof (T := Z)) < n /\
  exists f',
    Reserve n f = (Normal tt, f') /\
    Capacity (this f') = n /\
    N.of_nat (length (cells (data_ (this f')))) < n /\
    ~ wf (this f').
Proof.
  intros f n.
  split; [apply wf_check_sound; reflexivity|].
  split; [reflexivity|]. split; [reflexivity|].
  split; [split; reflexivity|].
  split; [vm_compute; discriminate|]. split; [reflexivity|].
  apply (Reserve_request_can_overflow n f);
    [apply wf_check_sound; reflexivity|reflexivity|reflexivity
    |split; reflexivity|vm_compute; discriminate|reflexivity].
Defined.

Lemma mutators_return_witness :
  wf (this one_two_three) /\ generous (heap one_two_three) /\
  (((size_ (this one_two_three) = Capacity (this one_two_three) ->
     N.max 1 (2 * size_ (this one_two_three)) * Npos (sizeof (T := Z))
       <= PTRDIFF_MAX) ->
    (forall value, exists f', PushBack value one_two_three = (Normal tt, f')) /\
    (forall x, exists f',
       EmplaceBack (Some x) one_two_three
         = (Normal (size_ (this one_two_three)), f')) /\
    (forall pos value, pos <= size_ (this one_two_three) ->
       exists f', Insert pos value one_two_three = (Normal pos, f'))) /\
   (forall pos, pos < size_ (this one_two_three) ->
      exists v', Erase pos (this one_two_three) = (Normal pos, v')) /\
   (exists v', PopBack (this one_two_three) = (Normal tt, v')) /\
   (exists v', Clear (this one_two_three) = (Normal tt, v')) /\
   (forall n, n * Npos (sizeof (T := Z)) <= PTRDIFF_MAX ->
      (exists f', Reserve n one_two_three = (Normal tt, f')) /\
      (exists f', Resize n one_two_three = (Normal tt, f')))).
Proof.
  split; [apply wf_check_sound; reflexivity|]. split; [reflexivity|].
  apply (mutators_return one_two_three);
    [apply wf_check_sound; reflexivity|reflexivity].
Defined.

Lemma invariant_kept_on_return_witness :
  wf (this one_two_three) /\
  ((forall value f',
      PushBack value one_two_three = (Normal tt, f') -> wf (this f')) /\
   (forall made p f',
      EmplaceBack made one_two_three = (Normal p, f') -> wf (this f')) /\
   (forall pos made p f',
      Emplace pos made one_two_three = (Normal p, f') -> wf (this f')) /\
   (forall pos value p f',
      Insert pos value one_two_three = (Normal p, f') -> wf (this f')) /\
   (forall pos p v',
      Erase pos (this one_two_three) = (Normal p, v') -> wf v') /\
   (forall v', PopBack (this one_two_three) = (Normal tt, v') -> wf v') /\
   (forall v', Clear (this one_two_three) = (Normal tt, v') -> wf v') /\
   (forall n f', Resize n one_two_three = (Normal tt, f') -> wf (this f')) /\
   (forall n f', n * Npos (sizeof (T := Z)) < SIZE_MOD ->
                 Reserve n one_two_three = (Normal tt, f') -> wf (this f'))).
Proof.
  split; [apply wf_check_sound; reflexivity|].
  apply (invariant_kept_on_return one_two_three).
  apply wf_check_sound; reflexivity.
Defined.

Lemma Insert_construction_failure_witness :
  let f : Frame Brittle :=
    final (PushBack (rvalue (MkBrittle 7)) ;; PushBack (rvalue (MkBrittle 8)) ;;
           PushBack (rvalue (MkBrittle 9)))
          (MkFrame empty_heap Vector_default) in
  let f' := final (Insert 1 (lvalue (MkBrittle 13))) f in
  forward (lvalue (MkBrittle 13)) = None /\
  Insert 1 (lvalue (MkBrittle 13)) f = (Throw element_error, f') /\
  Throw element_error <> Undefined (A := N) /\
  ((exists e, Throw element_error = Throw (A := N) e) /\ this f' = this f).
Proof.
  intros f f'.
  split; [reflexivity|]. split; [vm_compute; reflexivity|].
  split; [discriminate|].
  apply (Insert_construction_failure f 1 (lvalue (MkBrittle 13))
           (Throw element_error) f');
    [reflexivity|vm_compute; reflexivity|discriminate].
Defined.

Lemma observers_agree_witness :
  wf (this one_two_three) /\
  (Size (this one_two_three)
     = N.of_nat (length (elements (this one_two_three))) /\
   (IsEmpty (this one_two_three) = true <-> elements (this one_two_three) = [])).
Proof.
  split; [apply wf_check_sound; reflexivity|].
  apply (observers_agree (this one_two_three)).
  apply wf_check_sound; reflexivity.
Defined.

Lemma Erase_then_Insert_witness :
  let v := this one_two_three in
  let v1 := final (Erase 1) v in
  let f2 := final (Insert 1 (lvalue 2%Z)) (MkFrame empty_heap v1) in
  wf v /\
  elements v !! N.to_nat 1 = Some 2%Z /\
  Erase 1 v = (Normal 1, v1) /\
  Insert 1 (lvalue 2%Z) (MkFrame empty_heap v1) = (Normal 1, f2) /\
  (elements (this f2) = elements v /\
   1 = 1 /\
   Capacity (this f2) = Capacity v /\
   heap f2 = empty_heap).
Proof.
  intros v v1 f2.
  split; [apply wf_check_sound; reflexivity|].
  split; [reflexivity|].
  split; [vm_compute; reflexivity|]. split; [vm_compute; reflexivity|].
  apply (Erase_then_Insert v 1 1 v1 2%Z empty_heap 1 f2);
    [apply wf_check_sound; reflexivity|reflexivity
    |vm_compute; reflexivity|vm_compute; reflexivity].
Defined.
